(** * The Julienne bucketing structure (src/bucket.h)

    A shallow embedding of [struct buckets<D>] and of the functions that
    iterate over it and update it, followed by the properties of the
    structure that the specification states.

    Machine integers are integers of [Z] with their wrap-around written
    out: [size_t] is 64 bits wide, [uintE] 32 bits wide and [intT] a
    signed 32-bit integer. *)

From Stdlib Require Import ZArith Lia Bool Sorted.
From stdpp Require Import base list sorting.

Local Open Scope Z_scope.

(** ** Machine integers *)

(** Conversion to [size_t]. *)
Definition wrap64 (x : Z) : Z := x mod 2 ^ 64.

(** Modelled from the spec: [uintE] (lib/macros.h is not part of the
    sources) is the unsigned identifier and bucket-number type whose
    maximum representable value is the sentinel; it is taken 32 bits wide.
    [wrap32] is the conversion to [uintE]. *)
Definition wrap32 (x : Z) : Z := x mod 2 ^ 32.

(** Modelled from the spec: [intT] (lib/macros.h) is the signed integer
    of the same width as [uintE]; [to_intT] is the conversion to it. *)
Definition to_intT (x : Z) : Z := (x + 2 ^ 31) mod 2 ^ 32 - 2 ^ 31.

Definition add64 (x y : Z) : Z := wrap64 (x + y).
Definition sub64 (x y : Z) : Z := wrap64 (x - y).
Definition mul64 (x y : Z) : Z := wrap64 (x * y).

(** [const uintE null_bkt = std::numeric_limits<uintE>::max()] *)
Definition null_bkt : Z := 2 ^ 32 - 1.

(** ** The priority oracle and update batches *)

(** The callable [D]. The structure keeps a copy of the callable, which
    reads the consumer's own storage, so every operation is given the
    oracle as it stands when the operation runs. *)
Definition oracle : Type := Z -> Z.

(** [d(i)], as the [uintE] it is declared to return. *)
Definition ask (d : oracle) (i : Z) : Z := wrap32 (d i).

(** [F : [0,k) -> Maybe<std::tuple<uintE, uintE>>]: [None] when
    [m.exists] is false, otherwise the pair [m.t]. *)
Definition batch : Type := Z -> option (Z * Z).

(** [std::get<0>(m.t)] and [std::get<1>(m.t)], as [uintE]. *)
Definition get0 (p : Z * Z) : Z := wrap32 (fst p).
Definition get1 (p : Z * Z) : Z := wrap32 (snd p).

(** ** Bucket storage *)

(** Modelled from the spec: [dyn_arr<uintE>] (lib/dyn_arr.h is not part
    of the sources), a growable buffer [A] with a logical [size]. The
    capacity is the length of [A]; cells at and above [size] are reserved
    or left over from an earlier use, and are never read. *)
Record dyn_arr : Type := mk_dyn_arr { A : list Z; size : Z }.

(** A default-constructed array, as [pbbs::new_array<id_dyn_arr>] makes. *)
Definition empty_arr : dyn_arr := {| A := []; size := 0 |}.

(** Modelled from the spec: [resize(delta)] ensures capacity for [delta]
    more items beyond the current [size], never shrinks and leaves
    [size] untouched. The buffer is grown to just the cells asked for;
    fresh cells hold 0. *)
Definition resize (delta : Z) (a : dyn_arr) : dyn_arr :=
  {| A := A a ++ replicate (Z.to_nat (wrap64 (delta + size a)) - length (A a)) 0;
     size := size a |}.

(** Modelled from the spec: [insert(v, offset)] writes [v] into the
    reserved region at the caller's cursor [offset], that is at cell
    [size + offset], so that the scatter phase appends to the slot;
    [size] is untouched. *)
Definition insert (v pos : Z) (a : dyn_arr) : dyn_arr :=
  {| A := <[Z.to_nat (wrap64 (size a + pos)) := v]> (A a); size := size a |}.

(** The logically valid items of a slot. *)
Definition items (a : dyn_arr) : list Z := take (Z.to_nat (size a)) (A a).

(** ** The structure *)

Inductive bucket_order : Type := decreasing | increasing.

(** Modelled from the spec: the identifier-set type [vertexSubset]
    (vertex_subset.h is not part of the sources): the universe size, the
    number of identifiers held and the identifiers. *)
Record vertexSubset : Type := mk_vs { vs_n : Z; vs_m : Z; vs_s : list Z }.

(** [vertexSubset vs(n)]: the empty subset of a universe of [n]. *)
Definition vs_empty (n : Z) : vertexSubset := {| vs_n := n; vs_m := 0; vs_s := [] |}.

(** [struct bucket]. The constructor leaves [num_filtered]
    uninitialised: [None]. *)
Record bucket : Type := mk_bucket
  { id : Z; num_filtered : option Z; identifiers : vertexSubset }.

Definition new_bucket (_id : Z) (_identifiers : vertexSubset) : bucket :=
  {| id := _id; num_filtered := None; identifiers := _identifiers |}.

(** The data members of [struct buckets]; the oracle [d] is passed to the
    operations (see [oracle]). *)
Record buckets : Type := mk_buckets
  { order : bucket_order;
    bkts : list dyn_arr;
    cur_bkt : Z;
    max_bkt : Z;
    cur_range : Z;
    n : Z;
    num_elms : Z;
    open_buckets : Z;
    total_buckets : Z;
    allocated : bool }.

Definition set_bkts (l : list dyn_arr) (st : buckets) : buckets :=
  mk_buckets (order st) l (cur_bkt st) (max_bkt st) (cur_range st) (n st)
             (num_elms st) (open_buckets st) (total_buckets st) (allocated st).

Definition set_cur_bkt (c : Z) (st : buckets) : buckets :=
  mk_buckets (order st) (bkts st) c (max_bkt st) (cur_range st) (n st)
             (num_elms st) (open_buckets st) (total_buckets st) (allocated st).

Definition set_cur_range (r : Z) (st : buckets) : buckets :=
  mk_buckets (order st) (bkts st) (cur_bkt st) (max_bkt st) r (n st)
             (num_elms st) (open_buckets st) (total_buckets st) (allocated st).

Definition set_num_elms (e : Z) (st : buckets) : buckets :=
  mk_buckets (order st) (bkts st) (cur_bkt st) (max_bkt st) (cur_range st) (n st)
             e (open_buckets st) (total_buckets st) (allocated st).

(** [bkts[b]]; reading past the end of the array is undefined in the
    source and yields an empty array here. *)
Definition slot (st : buckets) (b : Z) : dyn_arr :=
  default empty_arr (bkts st !! Z.to_nat b).

(** [bkts[b] = a]; writing past the end is undefined in the source and
    does nothing here. *)
Definition set_slot (b : Z) (a : dyn_arr) (st : buckets) : buckets :=
  set_bkts (<[Z.to_nat b := a]> (bkts st)) st.

(** ** Range arithmetic *)

(** [to_range]: the slot of bucket number [bkt] under the current range.
    The products are [size_t] products; the result is converted to
    [bucket_id]. The parameter is a [uintE]: [bkt] is a value of that
    type, and a caller that holds a wider number converts it with
    [wrap32] where it calls. *)
Definition to_range (st : buckets) (bkt : Z) : Z :=
  match order st with
  | increasing =>
      if bkt <? mul64 (cur_range st) (open_buckets st) then null_bkt
      else if bkt <? mul64 (add64 (cur_range st) 1) (open_buckets st)
           then wrap32 (bkt mod open_buckets st)
           else wrap32 (open_buckets st)
  | decreasing =>
      if bkt >=? mul64 (cur_range st) (open_buckets st) then null_bkt
      else if bkt >=? mul64 (sub64 (cur_range st) 1) (open_buckets st)
           then wrap32 (sub64 (sub64 (open_buckets st) (bkt mod open_buckets st)) 1)
           else wrap32 (open_buckets st)
  end.

(** [get_cur_bucket_num] *)
Definition get_cur_bucket_num (st : buckets) : Z :=
  match order st with
  | increasing => add64 (mul64 (cur_range st) (open_buckets st)) (cur_bkt st)
  | decreasing => sub64 (sub64 (mul64 (cur_range st) (open_buckets st)) (cur_bkt st)) 1
  end.

(** [get_bucket], a [const] member function: it reads the structure and
    returns a [bucket_dest]. *)
Definition get_bucket (st : buckets) (prev next : Z) : Z :=
  let pb := to_range st prev in
  let nb := to_range st next in
  if negb (nb =? null_bkt)
     && ((prev =? null_bkt) || negb (pb =? nb) || (nb =? cur_bkt st))
  then nb else null_bkt.

(** [curBucketNonEmpty] *)
Definition curBucketNonEmpty (st : buckets) : bool :=
  0 <? size (slot st (cur_bkt st)).

(** ** Bulk update *)

(** Modelled from the spec: the runtime's constants, the worker count
    ([nworkers()]) and the sequential threshold
    ([pbbs::kSequentialForThreshold]), come from the parallel runtime,
    which is not part of the sources; they are parameters of the model. *)
Record runtime : Type := mk_runtime { nworkers : Z; kSequentialForThreshold : Z }.

(** [insert_in_bucket]. The value and the size pass through [intT]; a
    negative index is undefined in the source and writes nothing here. *)
Definition insert_in_bucket (b val : Z) (st : buckets) : buckets :=
  let a := slot st b in
  let sz := to_intT (size a) in
  let dst := if 0 <=? sz then <[Z.to_nat sz := wrap32 (to_intT val)]> (A a) else A a in
  set_slot b {| A := dst; size := add64 (size a) 1 |} st.

(** The body of the loop of [update_buckets_seq]. *)
Definition update_seq_step (f : batch) (st : buckets) (i : Z) : buckets :=
  match f i with
  | Some p =>
      let bkt := get1 p in
      if negb (bkt =? null_bkt) then
        let st1 := set_slot bkt (resize 1 (slot st bkt)) st in
        let st2 := insert_in_bucket bkt (get0 p) st1 in
        set_num_elms (add64 (num_elms st2) 1) st2
      else st
  | None => st
  end.

(** [update_buckets_seq]: the returned count and the structure after. *)
Definition update_buckets_seq (f : batch) (k : Z) (st : buckets) : Z * buckets :=
  let ne_before := num_elms st in
  let st' := foldl (update_seq_step f) st (seqZ 0 k) in
  (sub64 (num_elms st') ne_before, st').

Definition CACHE_LINE_S : Z := 64.

(** Scratch arrays of [uintE]. Indices into them are written as plain
    products and sums; a read past the end yields 0 and a write past the
    end does nothing (both are undefined in the source). *)
Definition rd (l : list Z) (i : Z) : Z := default 0 (l !! Z.to_nat i).
Definition wr (l : list Z) (i v : Z) : list Z := <[Z.to_nat i := v]> l.

(** Modelled from the spec: [pbbs::log2_up], the rounded-up binary
    logarithm that gives the block count [B = 2^ceil(log2 (k / 4096))];
    a count of 0 or 1 gives one block. *)
Definition log2_up (i : Z) : Z := Z.log2_up i.

(** Modelled from the spec: [pbbs::scan_add], the exclusive prefix sum of
    a sequence of [uintE], with the total. *)
Fixpoint scan_add_from (acc : Z) (l : list Z) : list Z * Z :=
  match l with
  | [] => ([], acc)
  | x :: r => let '(o, s) := scan_add_from (wrap32 (acc + x)) r in (acc :: o, s)
  end.

Definition scan_add (l : list Z) : list Z * Z := scan_add_from 0 l.

(** A [par_for] whose iterations write disjoint cells is run in index
    order. *)

(** Phase 1, the tally of one entry into the histogram [hist = &hists[base]]:
    [hist[b]++]. *)
Definition tally_step (f : batch) (base : Z) (h : list Z) (j : Z) : list Z :=
  match f j with
  | Some p =>
      let b := get1 p in
      if negb (b =? null_bkt)
      then wr h (base + b) (wrap32 (rd h (base + b) + 1))
      else h
  | None => h
  end.

(** Phase 1, one block: zero the block's histogram, then tally. *)
Definition hist_block (f : batch) (k T block_size : Z) (hists : list Z) (i : Z) : list Z :=
  let s := i * block_size in
  let e := Z.min (s + block_size) k in
  let h0 := foldl (fun h j => wr h (i * T + j) 0) hists (seqZ 0 T) in
  foldl (tally_step f (i * T)) h0 (seqZ s (e - s)).

(** Phase 4, one slot: the starting cursor of every block in the slot. *)
Definition offsets_slot (num_blocks : Z) (outs hists : list Z) (i : Z) : list Z :=
  let start := rd outs (i * num_blocks) in
  foldl (fun h j => wr h ((i * num_blocks + j) * CACHE_LINE_S)
                        (wrap32 (rd outs (i * num_blocks + j) - start)))
        hists (seqZ 0 num_blocks).

(** Phase 5, one entry of block [i]: write it at the block's cursor in
    its slot and advance the cursor. *)
Definition scatter_step (f : batch) (num_blocks i : Z) (acc : list Z * buckets) (j : Z)
    : list Z * buckets :=
  let '(h, st) := acc in
  match f j with
  | Some p =>
      let v := get0 p in
      let b := get1 p in
      if negb (b =? null_bkt) then
        let c := (b * num_blocks + i) * CACHE_LINE_S in
        let ind := rd h c in
        (wr h c (wrap32 (rd h c + 1)), set_slot b (insert v ind (slot st b)) st)
      else (h, st)
  | None => (h, st)
  end.

(** Phase 5, one block. *)
Definition scatter_block (f : batch) (k num_blocks block_size : Z)
    (acc : list Z * buckets) (i : Z) : list Z * buckets :=
  let s := i * block_size in
  let e := Z.min (s + block_size) k in
  foldl (scatter_step f num_blocks i) acc (seqZ s (e - s)).

(** Phases 1 to 6 of the blocked counting sort of [update_buckets], for
    [num_blocks] blocks of [block_size] entries. *)
Definition update_buckets_blocks (f : batch) (k num_blocks block_size : Z)
    (st : buckets) : Z * buckets :=
  let T := total_buckets st in
  let ne_before := num_elms st in
  let hists0 := replicate (Z.to_nat ((num_blocks + 1) * T * CACHE_LINE_S)) 0 in
  (* 1. per-block histograms *)
  let hists1 := foldl (hist_block f k T block_size) hists0 (seqZ 0 num_blocks) in
  (* 2. one histogram, slot-major, and its prefix sums *)
  let get := fun i => rd hists1 ((i mod num_blocks) * T + i / num_blocks) in
  let scanned := scan_add (get <$> seqZ 0 (num_blocks * T)) in
  let outs := fst scanned ++ [snd scanned] in
  let num_inc := fun i => wrap32 (rd outs ((i + 1) * num_blocks) - rd outs (i * num_blocks)) in
  (* 3. resize the slots *)
  let st3 := foldl (fun s i =>
                      set_num_elms (add64 (num_elms s) (num_inc i))
                                   (set_slot i (resize (num_inc i) (slot s i)) s))
                   st (seqZ 0 T) in
  (* 4. starting offsets of every block *)
  let hists4 := foldl (offsets_slot num_blocks outs) hists1 (seqZ 0 T) in
  (* 5. scatter *)
  let st5 := snd (foldl (scatter_block f k num_blocks block_size) (hists4, st3)
                        (seqZ 0 num_blocks)) in
  (* 6. commit the sizes *)
  let st6 := foldl (fun s i =>
                      let a := slot s i in
                      set_slot i {| A := A a; size := add64 (size a) (num_inc i) |} s)
                   st5 (seqZ 0 T) in
  (sub64 (num_elms st6) ne_before, st6).

(** The blocked counting sort of [update_buckets], taken when the batch
    is long enough and there are several workers. *)
Definition update_buckets_par (f : batch) (k : Z) (st : buckets) : Z * buckets :=
  let num_blocks := k / 4096 in
  let block_bits := log2_up num_blocks in
  let num_blocks := wrap64 (Z.shiftl 1 block_bits) in
  let block_size := sub64 (add64 k num_blocks) 1 / num_blocks in
  update_buckets_blocks f k num_blocks block_size st.

(** [update_buckets] *)
Definition update_buckets (rt : runtime) (f : batch) (k : Z) (st : buckets)
    : Z * buckets :=
  if (k <? kSequentialForThreshold rt) || (nworkers rt =? 1)
  then update_buckets_seq f k st
  else update_buckets_par f k st.

(** ** Iteration *)

(** What a call comes to: it returns, or the assertion of [unpack] fails
    (with the values the diagnostic prints: [m], [num_elms] and the
    current bucket number), or the model ran out of fuel. *)
Inductive outcome (X : Type) : Type :=
  | Done (x : X)
  | Abort (m ne cur : Z)
  | NoFuel.
Arguments Done {X} x.
Arguments Abort {X} m ne cur.
Arguments NoFuel {X}.

(** [unpack]. The assertion is compiled in: on a mismatch the diagnostic
    is printed (after [cur_bkt] is reset for it) and the program stops. *)
Definition unpack (rt : runtime) (d : oracle) (st : buckets) : outcome buckets :=
  let ob := open_buckets st in
  let m := size (slot st ob) in
  let tmp := items (slot st ob) in
  let st1 := match order st with
             | increasing => set_cur_range (add64 (cur_range st) 1) st
             | decreasing => set_cur_range (sub64 (cur_range st) 1) st
             end in
  let st2 := set_slot ob {| A := A (slot st1 ob); size := 0 |} st1 in
  let g : batch := fun i =>
            let v := rd tmp (wrap32 i) in
            Some (v, to_range st2 (ask d v)) in
  if negb (m =? num_elms st2) then
    Abort m (num_elms st2) (get_cur_bucket_num (set_cur_bkt 0 st2))
  else
    let '(_, st3) := update_buckets rt g m st2 in
    Done (set_num_elms (sub64 (num_elms st3) m) st3).

(** [_next_bucket] *)
Definition _next_bucket (rt : runtime) (d : oracle) (st : buckets) : outcome buckets :=
  let st1 := set_cur_bkt (add64 (cur_bkt st) 1) st in
  if cur_bkt st1 =? open_buckets st1 then
    match unpack rt d st1 with
    | Done st2 => Done (set_cur_bkt 0 st2)
    | Abort m ne c => Abort m ne c
    | NoFuel => NoFuel
    end
  else Done st1.

(** [next_bucket] and [get_cur_bucket], which call each other. Every
    turn of the loop of [next_bucket] and every call takes one unit of
    fuel. *)
Fixpoint next_bucket (rt : runtime) (d : oracle) (fuel : nat) (st : buckets)
    : outcome (bucket * buckets) :=
  match fuel with
  | O => NoFuel
  | S fuel' =>
      if negb (curBucketNonEmpty st) && (0 <? num_elms st) then
        match _next_bucket rt d st with
        | Done st1 => next_bucket rt d fuel' st1
        | Abort m ne c => Abort m ne c
        | NoFuel => NoFuel
        end
      else if num_elms st =? 0 then
        Done (new_bucket null_bkt (vs_empty (n st)), st)
      else get_cur_bucket rt d fuel' st
  end
with get_cur_bucket (rt : runtime) (d : oracle) (fuel : nat) (st : buckets)
    : outcome (bucket * buckets) :=
  match fuel with
  | O => NoFuel
  | S fuel' =>
      let bkt := slot st (cur_bkt st) in
      let sz := size bkt in
      let st1 := set_num_elms (sub64 (num_elms st) sz) st in
      let cur_bkt_num := get_cur_bucket_num st1 in
      let out := List.filter (fun i => ask d i =? cur_bkt_num) (items bkt) in
      let m := Z.of_nat (length out) in
      let st2 := set_slot (cur_bkt st1) {| A := A bkt; size := 0 |} st1 in
      if m =? 0 then next_bucket rt d fuel' st2
      else
        Done ({| id := cur_bkt_num; num_filtered := Some sz;
                 identifiers := {| vs_n := n st2; vs_m := m; vs_s := out |} |}, st2)
  end.

(** ** Construction *)

(** Modelled from the spec: [pbbs::reduce], the parallel reduction with
    an associative operation; on an empty sequence it is given 0. *)
Definition reduce (f : Z -> Z -> Z) (l : list Z) : Z :=
  match l with
  | [] => 0
  | x :: r => foldl f x r
  end.

(** The constructor of [buckets], reached through [make_buckets]. *)
Definition make_buckets (rt : runtime) (_n : Z) (d : oracle) (_order : bucket_order)
    (_total_buckets : Z) : buckets :=
  let ob := sub64 _total_buckets 1 in
  let r :=
    match _order with
    | increasing =>
        let min_b := reduce Z.min ((fun i => ask d i) <$> seqZ 0 _n) in
        min_b / ob
    | decreasing =>
        let max_b := reduce Z.max
                       ((fun i => if ask d i =? null_bkt then 0 else ask d i) <$> seqZ 0 _n) in
        add64 max_b ob / ob
    end in
  let st0 :=
    {| order := _order;
       bkts := replicate (Z.to_nat _total_buckets) empty_arr;
       cur_bkt := 0;
       max_bkt := _total_buckets;
       cur_range := r;
       n := _n;
       num_elms := 0;
       open_buckets := ob;
       total_buckets := _total_buckets;
       allocated := true |} in
  let get_id_and_bkt : batch := fun i =>
        let i := wrap32 i in
        let bkt := ask d i in
        Some (i, if negb (bkt =? null_bkt) then to_range st0 bkt else bkt) in
  snd (update_buckets rt get_id_and_bkt _n st0).

(** ** Consumers *)

(** A call of a [const] member function: its result, and the structure
    it leaves. *)
Definition call_const {X : Type} (f : buckets -> X) (st : buckets) : X * buckets :=
  (f st, st).

(** The oracle that reads the array [l]; an identifier outside the array
    is in no bucket. *)
Definition oracle_of_list (l : list Z) : oracle :=
  fun i => default null_bkt (l !! Z.to_nat i).

(** The consumer's loop with a fixed oracle: [next_bucket] is called until
    it returns the sentinel, at most [calls] times. The result lists the
    buckets returned before the sentinel, each with the structure as the
    call left it. *)
Fixpoint drain (rt : runtime) (d : oracle) (fuel calls : nat) (st : buckets)
    : outcome (list (bucket * buckets)) :=
  match calls with
  | O => NoFuel
  | S calls' =>
      match next_bucket rt d fuel st with
      | Done (b, st') =>
          if id b =? null_bkt then Done []
          else match drain rt d fuel calls' st' with
               | Done l => Done ((b, st') :: l)
               | Abort m ne c => Abort m ne c
               | NoFuel => NoFuel
               end
      | Abort m ne c => Abort m ne c
      | NoFuel => NoFuel
      end
  end.

(** What the consumer sees of a returned bucket, and the range and the
    slots of the structure after the call. *)
Definition emitted (r : bucket * buckets) : Z * list Z := (id (fst r), vs_s (identifiers (fst r))).
Definition window (st : buckets) : Z * list (list Z) := (cur_range st, items <$> bkts st).

(** ** Destruction *)

(** [del]: when the structure is still allocated, the buffer of every
    slot and then the array of slots are released, which leaves no slot,
    and [allocated] is cleared; otherwise nothing is done. *)
Definition del (st : buckets) : buckets :=
  if allocated st then
    {| order := order st;
       bkts := [];
       cur_bkt := cur_bkt st;
       max_bkt := max_bkt st;
       cur_range := cur_range st;
       n := n st;
       num_elms := num_elms st;
       open_buckets := open_buckets st;
       total_buckets := total_buckets st;
       allocated := false |}
  else st.

(** * The triangle-counting front-end (benchmark/Triangle.h)

    The graph, its vertices and [edgeMapDenseForward] are not part of
    the sources. What the front-end takes from them is passed in: the
    out-degree of a vertex, the size of the intersection that
    [V[s].intersect(&V[d], s, d)] returns, the sort, and the calls that
    the edge map makes. *)

(** ** [countF] *)

Module countF.

(** [update(s, d)], run by worker [w]: the count of the edge is added to
    the cell of the worker, [counts[w << 4]]. The result is [1]. The
    cells are [size_t]. *)
Definition update (intersect : Z -> Z -> Z) (w : Z) (counts : list Z) (s d : Z)
    : bool * list Z :=
  let ct := wrap64 (intersect s d) in
  (true, wr counts (Z.shiftl w 4) (add64 (rd counts (Z.shiftl w 4)) ct)).

(** [updateAtomic(s, d)]: the same statements. *)
Definition updateAtomic (intersect : Z -> Z -> Z) (w : Z) (counts : list Z) (s d : Z)
    : bool * list Z :=
  let ct := wrap64 (intersect s d) in
  (true, wr counts (Z.shiftl w 4) (add64 (rd counts (Z.shiftl w 4)) ct)).

End countF.

(** ** [rankNodes] *)

(** [rankNodes(V, n)]. The array [o] is filled with [0 .. n-1] and
    sorted by out-degree, and [r[o[i]] = i] is written for every [i].
    [r0] is what the fresh array [r] holds before it is written.
    Modelled from the spec: [pbbs::sample_sort] (lib/sample_sort.h is not
    part of the sources) is the parameter [sample_sort], a sort of an
    array of [uintE] by a comparison. *)
Definition rankNodes (sample_sort : (Z -> Z -> bool) -> list Z -> list Z)
    (getOutDegree : Z -> Z) (n : Z) (r0 : list Z) : list Z :=
  let o := (fun i => wrap32 i) <$> seqZ 0 n in
  let o := sample_sort (fun u v => getOutDegree u <? getOutDegree v) o in
  foldl (fun r i => wr r (rd o i) (wrap32 i)) r0 (seqZ 0 n).

(** ** [CountDirected] and [Triangle] *)

(** Modelled from the spec: [seq::plusReduce(counts, len)], the sum of
    the first [len] cells of an array of [size_t]. *)
Definition plusReduce (counts : list Z) (len : Z) : Z :=
  foldl add64 0 (take (Z.to_nat len) counts).

(** Modelled from the spec: a call that [edgeMapDenseForward] makes to
    the functor it is given: the worker that runs it
    ([__cilkrts_get_worker_number()]), whether it is [updateAtomic] or
    [update], and the edge. *)
Record call : Type := mk_call { c_worker : Z; c_atomic : bool; c_src : Z; c_dst : Z }.

(** The array [counts] after the call [c]. *)
Definition run_call (intersect : Z -> Z -> Z) (counts : list Z) (c : call) : list Z :=
  snd ((if c_atomic c then countF.updateAtomic else countF.update)
         intersect (c_worker c) counts (c_src c) (c_dst c)).

(** [CountDirected(DG, counts, Frontier)], the edge map being given by
    the calls it makes, with [workers = getWorkers()]: the counts after
    the calls are summed over the [16 * workers] cells. *)
Definition CountDirected (intersect : Z -> Z -> Z) (workers : Z) (counts : list Z)
    (calls : list call) : Z * list Z :=
  let counts' := foldl (run_call intersect) counts calls in
  (plusReduce counts' (16 * workers), counts').

(** The parts of [Triangle]: the array [counts] with its [16 *
    getWorkers()] cells set to 0, [c0] being what the fresh array holds
    before; and the predicate [pack_predicate] that keeps the edges from
    lower to higher rank. *)
Definition zero_counts (workers : Z) (c0 : list Z) : list Z :=
  foldl (fun c i => wr c i 0) c0 (seqZ 0 (16 * workers)).

Definition pack_predicate (rank : list Z) (u v : Z) : bool := rd rank u <? rd rank v.

(** * Invariants and closed forms

    The notions below are not in the source. They say what the
    operations do to the slots and what they keep, and they are what
    the statements of the properties are written with. *)

(** A slot whose logical size lies within its buffer. *)
Definition wf_arr (a : dyn_arr) : Prop := 0 <= size a <= Z.of_nat (length (A a)).

(** The slot with the identifiers [vs] appended to its items. *)
Definition append_items (a : dyn_arr) (vs : list Z) : dyn_arr :=
  {| A := take (Z.to_nat (size a)) (A a) ++ vs
          ++ drop (Z.to_nat (size a) + length vs) (A a);
     size := size a + Z.of_nat (length vs) |}.

(** The entry that index [j] of a batch inserts: its slot and its
    identifier, if the entry exists and its slot is not the sentinel. *)
Definition live (f : batch) (j : Z) : option (Z * Z) :=
  match f j with
  | Some p => if get1 p =? null_bkt then None else Some (get1 p, get0 p)
  | None => None
  end.

(** The entries that the indices [js] insert, in order. *)
Definition entries (f : batch) (js : list Z) : list (Z * Z) := omap (live f) js.

(** The identifiers among the entries [es] that go to slot [s]. *)
Definition sel (s : Z) (es : list (Z * Z)) : list Z :=
  snd <$> List.filter (fun e => fst e =? s) es.

(** The structure once the entries [es] are appended to their slots. *)
Definition apply_entries (es : list (Z * Z)) (st : buckets) : buckets :=
  set_num_elms (wrap64 (num_elms st + Z.of_nat (length es)))
    (set_bkts (imap (fun s a => append_items a (sel (Z.of_nat s) es)) (bkts st)) st).

(** One entry appended to its slot, and counted. *)
Definition put (st : buckets) (e : Z * Z) : buckets :=
  set_num_elms (add64 (num_elms st) 1)
    (set_slot (fst e) (append_items (slot st (fst e)) [snd e]) st).

(** A batch that the structure can take: its slots exist and no slot
    grows to [2^31] entries. *)
Definition batch_ok (f : batch) (k : Z) (st : buckets) : Prop :=
  (forall j b v, 0 <= j < k -> live f j = Some (b, v) -> b < Z.of_nat (length (bkts st)))
  /\ (forall s, 0 <= s < Z.of_nat (length (bkts st)) ->
        size (slot st s) + Z.of_nat (length (sel s (entries f (seqZ 0 k)))) < 2 ^ 31).

(** The sum of a list of integers. *)
Definition sumZ (l : list Z) : Z := foldr Z.add 0 l.

(** The number of entries of the indices [js] that go to slot [s]. *)
Definition cnt (f : batch) (s : Z) (js : list Z) : Z :=
  Z.of_nat (length (sel s (entries f js))).

(** [st'] has the scalar members of [st], except perhaps [num_elms], and
    as many slots. *)
Definition same_frame (st st' : buckets) : Prop :=
  order st' = order st /\ cur_bkt st' = cur_bkt st /\ max_bkt st' = max_bkt st
  /\ cur_range st' = cur_range st /\ n st' = n st
  /\ open_buckets st' = open_buckets st /\ total_buckets st' = total_buckets st
  /\ allocated st' = allocated st /\ length (bkts st') = length (bkts st).

(** The buffer of a slot with [vs] written after its items, before the
    size is committed. *)
Definition overwrite (a : dyn_arr) (vs : list Z) : dyn_arr :=
  {| A := A (append_items a vs); size := size a |}.

(** The number of entries held, over all slots. *)
Definition total_size (st : buckets) : Z :=
  sumZ ((fun s => size (slot st s)) <$> seqZ 0 (total_buckets st)).

(** The identifiers held, slot after slot. *)
Definition all_items (st : buckets) : list Z :=
  concat ((fun s => items (slot st s)) <$> seqZ 0 (total_buckets st)).

(** A structure as the constructor and the operations keep it, save for
    [cur_bkt]: at least one open slot, slot indices that fit a
    [bucket_dest] below the sentinel, [total_buckets] slots, [num_elms]
    the number of entries held, and fewer than [2^31] of them. *)
Record wf_st (st : buckets) : Prop := mk_wf_st
  { wf_T : 2 <= total_buckets st < 2 ^ 32;
    wf_ob : open_buckets st = total_buckets st - 1;
    wf_len : Z.of_nat (length (bkts st)) = total_buckets st;
    wf_slots : Forall wf_arr (bkts st);
    wf_ne : num_elms st = total_size st;
    wf_cap : total_size st < 2 ^ 31;
    wf_range : 0 <= cur_range st < 2 ^ 64 }.

(** A well-formed structure between two operations: the cursor is on an
    open slot. *)
Definition good (st : buckets) : Prop :=
  wf_st st /\ 0 <= cur_bkt st < open_buckets st.

(** A batch that a consumer may pass: its slots exist, it is shorter
    than [2^32] and the structure stays below [2^31] entries. *)
Definition batch_fits (f : batch) (k : Z) (st : buckets) : Prop :=
  0 <= k < 2 ^ 32
  /\ (forall j b v, 0 <= j < k -> live f j = Some (b, v) -> b < total_buckets st)
  /\ total_size st + Z.of_nat (length (entries f (seqZ 0 k))) < 2 ^ 31.

(** The test of the loop of [next_bucket]. *)
Definition scan_cond (st : buckets) : bool :=
  negb (curBucketNonEmpty st) && (0 <? num_elms st).

(** The identifiers of the current slot that pass the filter of
    [get_cur_bucket]. *)
Definition cur_filtered (d : oracle) (st : buckets) : list Z :=
  List.filter (fun i => ask d i =? get_cur_bucket_num st) (items (slot st (cur_bkt st))).

(** The structure once [get_cur_bucket] has drained the current slot. *)
Definition drain_cur (st : buckets) : buckets :=
  set_slot (cur_bkt st) {| A := A (slot st (cur_bkt st)); size := 0 |}
    (set_num_elms (sub64 (num_elms st) (size (slot st (cur_bkt st)))) st).

(** The bucket that [get_cur_bucket] returns from the current slot. *)
Definition cur_emit (d : oracle) (st : buckets) : bucket :=
  {| id := get_cur_bucket_num st;
     num_filtered := Some (size (slot st (cur_bkt st)));
     identifiers := {| vs_n := n st;
                       vs_m := Z.of_nat (length (cur_filtered d st));
                       vs_s := cur_filtered d st |} |}.

(** The bucket that [next_bucket] returns when no identifier remains. *)
Definition sentinel (st : buckets) : bucket := new_bucket null_bkt (vs_empty (n st)).

(** What a call of [next_bucket] on [st] comes to when it returns: it
    skips an empty slot (unpacking at the end of the window) and goes
    on; or no entry remains and it returns the sentinel; or the current
    slot holds stale entries only, which it drops, and goes on; or it
    returns the identifiers of the current slot that pass the filter. *)
Inductive returns (rt : runtime) (d : oracle) : buckets -> bucket -> buckets -> Prop :=
  | returns_skip st st1 b st' :
      scan_cond st = true -> _next_bucket rt d st = Done st1 ->
      returns rt d st1 b st' -> returns rt d st b st'
  | returns_exhausted st :
      scan_cond st = false -> num_elms st = 0 ->
      returns rt d st (sentinel st) st
  | returns_stale st b st' :
      scan_cond st = false -> num_elms st <> 0 -> cur_filtered d st = [] ->
      returns rt d (drain_cur st) b st' -> returns rt d st b st'
  | returns_emit st :
      scan_cond st = false -> num_elms st <> 0 -> cur_filtered d st <> [] ->
      returns rt d st (cur_emit d st) (drain_cur st).

(** The states that a call of [next_bucket] passes through before it
    returns: it skips empty slots and drops slots of stale entries. *)
Inductive scans (rt : runtime) (d : oracle) : buckets -> buckets -> Prop :=
  | scans_here st : scans rt d st st
  | scans_skip st st1 st2 :
      scan_cond st = true -> _next_bucket rt d st = Done st1 ->
      scans rt d st1 st2 -> scans rt d st st2
  | scans_stale st st2 :
      scan_cond st = false -> num_elms st <> 0 -> cur_filtered d st = [] ->
      scans rt d (drain_cur st) st2 -> scans rt d st st2.

(** [unpack], step by step: the range advances, the overflow slot is
    emptied, and its identifiers are the batch of an update. *)
Definition advance (st : buckets) : buckets :=
  match order st with
  | increasing => set_cur_range (add64 (cur_range st) 1) st
  | decreasing => set_cur_range (sub64 (cur_range st) 1) st
  end.

(** The structure once [unpack] has advanced the range and reset the
    size of the overflow slot. *)
Definition emptied_overflow (st : buckets) : buckets :=
  set_slot (open_buckets st)
    {| A := A (slot (advance st) (open_buckets st)); size := 0 |} (advance st).

(** The batch [g] of [unpack]. *)
Definition unpack_batch (d : oracle) (st : buckets) : batch :=
  fun i =>
    let v := rd (items (slot st (open_buckets st))) (wrap32 i) in
    Some (v, to_range (emptied_overflow st) (ask d v)).

(** A set as [next_bucket] builds it for the structure [st]: its
    universe is that of the structure and its size field counts the
    identifiers it holds. *)
Definition valid_subset (st : buckets) (vs : vertexSubset) : Prop :=
  vs_n vs = n st /\ vs_m vs = Z.of_nat (length (vs_s vs)).

(** The bucket number of open slot [s] under the current range. *)
Definition num_at (st : buckets) (s : Z) : Z :=
  match order st with
  | increasing => cur_range st * open_buckets st + s
  | decreasing => cur_range st * open_buckets st - s - 1
  end.

(** The entry that [unpack] makes of identifier [v] of the overflow
    slot, under the range of [st2]. *)
Definition reclass (d : oracle) (st2 : buckets) (v : Z) : option (Z * Z) :=
  let b := to_range st2 (ask d v) in
  if b =? null_bkt then None else Some (b, wrap32 v).

(** The entries that [unpack] inserts. *)
Definition unpack_entries (d : oracle) (st : buckets) : list (Z * Z) :=
  omap (reclass d (emptied_overflow st)) (items (slot st (open_buckets st))).

(** The structure that [unpack] leaves. *)
Definition unpack_result (d : oracle) (st : buckets) : buckets :=
  set_num_elms (Z.of_nat (length (unpack_entries d st)))
    (apply_entries (unpack_entries d st) (emptied_overflow st)).

(** Every open slot before the cursor is empty. *)
Definition below (st : buckets) : Prop :=
  forall s, 0 <= s < cur_bkt st -> size (slot st s) = 0.

(** The range that the constructor starts from. *)
Definition init_range (n : Z) (d : oracle) (o : bucket_order) (T : Z) : Z :=
  match o with
  | increasing => reduce Z.min ((fun i => ask d i) <$> seqZ 0 n) / sub64 T 1
  | decreasing =>
      add64 (reduce Z.max
               ((fun i => if ask d i =? null_bkt then 0 else ask d i) <$> seqZ 0 n))
            (sub64 T 1) / sub64 T 1
  end.

(** The structure before the constructor seeds it. *)
Definition init_state (n : Z) (d : oracle) (o : bucket_order) (T : Z) : buckets :=
  {| order := o;
     bkts := replicate (Z.to_nat T) empty_arr;
     cur_bkt := 0;
     max_bkt := T;
     cur_range := init_range n d o T;
     n := n;
     num_elms := 0;
     open_buckets := sub64 T 1;
     total_buckets := T;
     allocated := true |}.

(** The batch [get_id_and_bkt] of the constructor. *)
Definition init_batch (d : oracle) (st0 : buckets) : batch :=
  fun i =>
    let i := wrap32 i in
    let bkt := ask d i in
    Some (i, if negb (bkt =? null_bkt) then to_range st0 bkt else bkt).

(** The window has not moved past the last bucket number by more than
    one range. *)
Definition bounds (st : buckets) : Prop :=
  match order st with
  | increasing => cur_range st * open_buckets st <= null_bkt + open_buckets st
  | decreasing => cur_range st <= 2 ^ 32
  end.

(** The window starts at or before the last bucket number. *)
Definition tight (st : buckets) : Prop :=
  match order st with
  | increasing => cur_range st * open_buckets st <= null_bkt
  | decreasing => 1 <= cur_range st
  end.

(** The range is within the bucket numbers, and tightly so while
    entries are held. *)
Definition rng (st : buckets) : Prop :=
  bounds st /\ (0 < total_size st -> tight st).

(** The bucket number under the cursor. *)
Definition pos (st : buckets) : Z := num_at st (cur_bkt st).

(** The direction of the order: up or down the bucket numbers. *)
Definition dir (st : buckets) : Z :=
  match order st with increasing => 1 | decreasing => -1 end.

(** The entry that the constructor makes of identifier [i]. *)
Definition init_entry (d : oracle) (st0 : buckets) (i : Z) : option (Z * Z) :=
  if ask d i =? null_bkt then None else Some (to_range st0 (ask d i), i).

(** The entries that the constructor inserts. *)
Definition init_entries (n : Z) (d : oracle) (o : bucket_order) (T : Z) : list (Z * Z) :=
  omap (init_entry d (init_state n d o T)) (seqZ 0 n).

(** What a consumer does between construction and destruction: it calls
    [update_buckets] with a batch, or [next_bucket] with the oracle as it
    stands at the call. *)
Inductive event : Type :=
  | Update (f : batch) (k : Z)
  | Next (d : oracle).

(** The buckets that the calls of [next_bucket] of a run return, in
    order, and the structure at the end. *)
Fixpoint run (rt : runtime) (fuel : nat) (evs : list event) (st : buckets)
    : outcome (list bucket * buckets) :=
  match evs with
  | [] => Done ([], st)
  | Update f k :: evs' => run rt fuel evs' (snd (update_buckets rt f k st))
  | Next d :: evs' =>
      match next_bucket rt d fuel st with
      | Done (b, st') =>
          match run rt fuel evs' st' with
          | Done (bs, st'') => Done (b :: bs, st'')
          | Abort m ne c => Abort m ne c
          | NoFuel => NoFuel
          end
      | Abort m ne c => Abort m ne c
      | NoFuel => NoFuel
      end
  end.

(** Every batch of the run satisfies [P] on the structure it is applied
    to. *)
Fixpoint follows (P : buckets -> batch -> Z -> Prop) (rt : runtime) (fuel : nat)
    (evs : list event) (st : buckets) : Prop :=
  match evs with
  | [] => True
  | Update f k :: evs' =>
      P st f k /\ follows P rt fuel evs' (snd (update_buckets rt f k st))
  | Next d :: evs' =>
      match next_bucket rt d fuel st with
      | Done (_, st') => follows P rt fuel evs' st'
      | _ => True
      end
  end.

(** A batch that inserts at or after the cursor only. *)
Definition forward (st : buckets) (f : batch) (k : Z) : Prop :=
  batch_fits f k st
  /\ forall j b v, 0 <= j < k -> live f j = Some (b, v) -> cur_bkt st <= b.

(** A batch whose slots are what [to_range], and so [get_bucket], gives
    for some bucket number. *)
Definition ranged (st : buckets) (f : batch) (k : Z) : Prop :=
  batch_fits f k st
  /\ forall j b v, 0 <= j < k -> live f j = Some (b, v) ->
       exists bn, 0 <= bn <= null_bkt /\ b = to_range st bn.

(** The event is a call of [next_bucket]. *)
Definition is_next (e : event) : Prop :=
  match e with Next _ => True | Update _ _ => False end.

(** The bucket numbers of the buckets returned, the sentinel left out. *)
Definition emitted_ids (bs : list bucket) : list Z :=
  List.filter (fun x => negb (x =? null_bkt)) (id <$> bs).

(** The order in which bucket numbers are to come out. *)
Definition precedes_eq (o : bucket_order) (x y : Z) : Prop :=
  match o with increasing => x <= y | decreasing => y <= x end.

(** The same, strictly. *)
Definition precedes (o : bucket_order) (x y : Z) : Prop :=
  match o with increasing => x < y | decreasing => y < x end.

(** A batch that inserts nothing into the slot under the cursor. *)
Definition quiet (st : buckets) (f : batch) (k : Z) : Prop :=
  ranged st f k
  /\ forall j b v, 0 <= j < k -> live f j = Some (b, v) -> b <> cur_bkt st.

(** Every identifier held lies in the universe and sits in the slot
    where [to_range] sends its bucket number. *)
Definition content (N : Z) (d : oracle) (st : buckets) : Prop :=
  forall s v, 0 <= s < total_buckets st -> v ∈ items (slot st s) ->
    0 <= v < N /\ to_range st (ask d v) = s.

(** The structure as the operations keep it while the oracle stands. *)
Definition sound (N : Z) (d : oracle) (st : buckets) : Prop :=
  good st /\ below st /\ rng st /\ content N d st.

(** How far the cursor is from the end of the bucket numbers. *)
Definition togo (st : buckets) : Z :=
  match order st with
  | increasing => null_bkt + 2 * open_buckets st - pos st
  | decreasing => pos st + open_buckets st + 1
  end.

(** The structure as the constructor builds it and as the operations
    keep it when every batch inserts at or after the cursor, into slots
    that [to_range] gives. *)
Definition tidy (st : buckets) : Prop := good st /\ below st /\ rng st.

(** * Properties *)

(** ** Range arithmetic and [get_bucket] *)

Lemma wrap32_small x : 0 <= x < 2 ^ 32 -> wrap32 x = x.
Proof. intros H. unfold wrap32. apply Z.mod_small. lia. Qed.

Lemma wrap64_small x : 0 <= x < 2 ^ 64 -> wrap64 x = x.
Proof. intros H. unfold wrap64. apply Z.mod_small. lia. Qed.

Lemma wrap32_range x : 0 <= wrap32 x < 2 ^ 32.
Proof. unfold wrap32. apply Z.mod_pos_bound. lia. Qed.

Lemma wrap64_range x : 0 <= wrap64 x < 2 ^ 64.
Proof. unfold wrap64. apply Z.mod_pos_bound. lia. Qed.

Lemma ask_range d i : 0 <= ask d i <= null_bkt.
Proof. unfold ask, null_bkt. pose proof (wrap32_range (d i)). lia. Qed.

(** C4. For all bucket numbers [prev] and [next], [get_bucket] returns
    [to_range next] when that slot is not the sentinel and [prev] is the
    sentinel, or the two slots differ, or the slot is the current one; it
    returns the sentinel otherwise; and the call leaves the structure as
    it found it. *)
Theorem get_bucket_spec (st : buckets) (prev next : Z) :
  let r := call_const (fun s => get_bucket s prev next) st in
  snd r = st
  /\ (to_range st next <> null_bkt
      /\ (prev = null_bkt \/ to_range st prev <> to_range st next
          \/ to_range st next = cur_bkt st)
      -> fst r = to_range st next)
  /\ (~ (to_range st next <> null_bkt
         /\ (prev = null_bkt \/ to_range st prev <> to_range st next
             \/ to_range st next = cur_bkt st))
      -> fst r = null_bkt).
Proof.
  cbn. unfold get_bucket.
  destruct (Z.eqb_spec (to_range st next) null_bkt) as [En|En];
    destruct (Z.eqb_spec prev null_bkt) as [Ep|Ep];
    destruct (Z.eqb_spec (to_range st prev) (to_range st next)) as [Eb|Eb];
    destruct (Z.eqb_spec (to_range st next) (cur_bkt st)) as [Ec|Ec];
    cbn; repeat split; try tauto; try congruence; intros; exfalso; tauto.
Qed.

(** Under increasing order [to_range] sends the sentinel to the overflow
    slot as long as the window ends at or below it. *)
Lemma to_range_null_increasing (st : buckets) :
  order st = increasing ->
  0 <= cur_range st -> 0 <= open_buckets st ->
  (cur_range st + 1) * open_buckets st <= null_bkt ->
  to_range st null_bkt = open_buckets st.
Proof.
  intros Ho Hr Hob Hle. unfold to_range. rewrite Ho.
  assert (Hnb : null_bkt = 2 ^ 32 - 1) by reflexivity.
  assert (H1 : mul64 (cur_range st) (open_buckets st) <= null_bkt).
  { unfold mul64. rewrite wrap64_small; nia. }
  assert (H2 : mul64 (add64 (cur_range st) 1) (open_buckets st) <= null_bkt).
  { destruct (Z.eq_dec (open_buckets st) 0) as [E0|E0].
    - rewrite E0. unfold mul64. rewrite Z.mul_0_r. unfold wrap64, null_bkt.
      rewrite Z.mod_0_l; lia.
    - unfold add64, mul64. rewrite (wrap64_small (cur_range st + 1)) by nia.
      rewrite wrap64_small; nia. }
  destruct (Z.ltb_spec null_bkt (mul64 (cur_range st) (open_buckets st))); [lia|].
  destruct (Z.ltb_spec null_bkt (mul64 (add64 (cur_range st) 1) (open_buckets st))); [lia|].
  apply wrap32_small. nia.
Qed.

(** C10. Under increasing order, whenever [(cur_range + 1) * open_buckets]
    does not exceed the sentinel, [to_range] maps the sentinel to the
    overflow slot [open_buckets], and [get_bucket prev null_bkt] returns
    the overflow slot whenever [prev] is the sentinel, or [to_range prev]
    is not the overflow slot, or the overflow slot is the current one;
    that slot is not the sentinel unless [open_buckets] is. *)
Theorem get_bucket_null_overflow (st : buckets) (prev : Z) :
  order st = increasing ->
  0 <= cur_range st -> 0 <= open_buckets st ->
  (cur_range st + 1) * open_buckets st <= null_bkt ->
  to_range st null_bkt = open_buckets st
  /\ (prev = null_bkt \/ to_range st prev <> open_buckets st
      \/ open_buckets st = cur_bkt st ->
      get_bucket st prev null_bkt = open_buckets st)
  /\ (open_buckets st <> null_bkt -> to_range st null_bkt <> null_bkt).
Proof.
  intros Ho Hr Hob Hle.
  pose proof (to_range_null_increasing st Ho Hr Hob Hle) as Ht.
  split; [exact Ht|]. split; [|congruence].
  intros Hc. unfold get_bucket. rewrite Ht.
  destruct (Z.eqb_spec (open_buckets st) null_bkt) as [En|En]; cbn; [congruence|].
  destruct (Z.eqb_spec prev null_bkt) as [Ep|Ep]; cbn; [reflexivity|].
  destruct (Z.eqb_spec (to_range st prev) (open_buckets st)) as [Eb|Eb]; cbn;
    [|reflexivity].
  destruct (Z.eqb_spec (open_buckets st) (cur_bkt st)) as [Ec|Ec]; [reflexivity|].
  exfalso. tauto.
Qed.

Lemma get_bucket_null_overflow_witness :
  let st := mk_buckets increasing (replicate 3 empty_arr) 0 3 0 5 0 2 3 true in
  to_range st null_bkt = 2 /\ get_bucket st 1 null_bkt = 2.
Proof.
  cbn zeta.
  destruct (get_bucket_null_overflow
              (mk_buckets increasing (replicate 3 empty_arr) 0 3 0 5 0 2 3 true) 1)
    as (H1 & H2 & _).
  - reflexivity.
  - cbn. lia.
  - cbn. lia.
  - vm_compute. discriminate.
  - split; [exact H1|]. apply H2. right. left. vm_compute. discriminate.
Defined.

(** ** Slots and scratch arrays *)

(** Reduces the projections of a structure that was just built. *)
Ltac simpl_st :=
  cbn [order bkts cur_bkt max_bkt cur_range n num_elms open_buckets total_buckets
       allocated set_bkts set_cur_bkt set_cur_range set_num_elms set_slot fst snd
       A size] in *.

Lemma rd_wr_eq l i v : 0 <= i < Z.of_nat (length l) -> rd (wr l i v) i = v.
Proof.
  intros H. unfold rd, wr. rewrite list_lookup_insert_eq by lia. reflexivity.
Qed.

Lemma rd_wr_ne l i j v : 0 <= i -> 0 <= j -> i <> j -> rd (wr l i v) j = rd l j.
Proof.
  intros Hi Hj H. unfold rd, wr. rewrite list_lookup_insert_ne by lia. reflexivity.
Qed.

Lemma length_wr l i v : length (wr l i v) = length l.
Proof. apply length_insert. Qed.

Lemma slot_set_slot_eq st b a :
  0 <= b < Z.of_nat (length (bkts st)) -> slot (set_slot b a st) b = a.
Proof.
  intros H. unfold slot, set_slot. cbn.
  rewrite list_lookup_insert_eq by lia. reflexivity.
Qed.

Lemma slot_set_slot_ne st b c a :
  0 <= b -> 0 <= c -> b <> c -> slot (set_slot b a st) c = slot st c.
Proof.
  intros Hb Hc H. unfold slot, set_slot. cbn.
  rewrite list_lookup_insert_ne by lia. reflexivity.
Qed.

Lemma slot_lookup st b a : bkts st !! Z.to_nat b = Some a -> slot st b = a.
Proof. intros H. unfold slot. rewrite H. reflexivity. Qed.

Lemma slot_is_lookup st b :
  0 <= b < Z.of_nat (length (bkts st)) -> bkts st !! Z.to_nat b = Some (slot st b).
Proof.
  intros H. unfold slot.
  destruct (lookup_lt_is_Some_2 (bkts st) (Z.to_nat b)) as [a Ha]; [lia|].
  rewrite Ha. reflexivity.
Qed.

(** ** What a batch inserts *)

Lemma items_append_items a vs :
  wf_arr a -> items (append_items a vs) = items a ++ vs.
Proof.
  intros [H0 H1]. unfold items, append_items. cbn.
  replace (Z.to_nat (size a + Z.of_nat (length vs)))
    with (length (take (Z.to_nat (size a)) (A a) ++ vs)).
  - rewrite app_assoc. rewrite take_app_length. reflexivity.
  - rewrite length_app, length_take. lia.
Qed.

Lemma append_items_nil a : append_items a [] = a.
Proof.
  unfold append_items. destruct a as [l s]. cbn. f_equal; [|lia].
  rewrite Nat.add_0_r. apply take_drop.
Qed.

Lemma wf_append_items a vs : wf_arr a -> wf_arr (append_items a vs).
Proof.
  intros [H0 H1]. unfold wf_arr, append_items. cbn.
  rewrite !length_app, length_take. lia.
Qed.

Lemma append_items_app a u w :
  wf_arr a -> append_items (append_items a u) w = append_items a (u ++ w).
Proof.
  intros [H0 H1]. unfold append_items. cbn.
  f_equal; [|rewrite length_app; lia].
  assert (HP : length (take (Z.to_nat (size a)) (A a)) = Z.to_nat (size a))
    by (rewrite length_take; lia).
  set (P := take (Z.to_nat (size a)) (A a)) in *.
  replace (Z.to_nat (size a + Z.of_nat (length u))) with (length (P ++ u))
    by (rewrite length_app; lia).
  rewrite (app_assoc P u). rewrite take_app_length.
  rewrite drop_app_ge by lia.
  rewrite drop_drop. rewrite <- !app_assoc. do 3 f_equal.
  rewrite !length_app. f_equal. lia.
Qed.

Lemma sel_cons_eq s v es : sel s ((s, v) :: es) = v :: sel s es.
Proof. unfold sel. cbn. rewrite Z.eqb_refl. reflexivity. Qed.

Lemma sel_cons_ne s b v es : b <> s -> sel s ((b, v) :: es) = sel s es.
Proof.
  intros H. unfold sel. cbn. destruct (Z.eqb_spec b s); [contradiction|reflexivity].
Qed.

Lemma sel_app s es1 es2 : sel s (es1 ++ es2) = sel s es1 ++ sel s es2.
Proof. unfold sel. rewrite List.filter_app, fmap_app. reflexivity. Qed.

Lemma sel_nil s : sel s [] = [].
Proof. reflexivity. Qed.

Lemma length_sel_le s es : (length (sel s es) <= length es)%nat.
Proof.
  unfold sel. rewrite length_fmap. induction es as [|e es IH]; cbn; [lia|].
  destruct (fst e =? s); cbn; lia.
Qed.

Lemma to_intT_small x : 0 <= x < 2 ^ 31 -> to_intT x = x.
Proof. intros H. unfold to_intT. rewrite Z.mod_small; lia. Qed.

Lemma wrap32_to_intT x : 0 <= x < 2 ^ 32 -> wrap32 (to_intT x) = x.
Proof.
  intros H. unfold wrap32, to_intT.
  rewrite Zminus_mod_idemp_l.
  replace (x + 2 ^ 31 - 2 ^ 31) with x by lia. apply Z.mod_small. lia.
Qed.

(** Growing a slot by one cell and writing into it appends the value. *)
Lemma resize_insert_append a v :
  wf_arr a -> size a < 2 ^ 31 - 1 -> 0 <= v < 2 ^ 32 ->
  (let a1 := resize 1 a in
   let sz := to_intT (size a1) in
   {| A := if 0 <=? sz then <[Z.to_nat sz := wrap32 (to_intT v)]> (A a1) else A a1;
      size := add64 (size a1) 1 |}) = append_items a [v].
Proof.
  intros [H0 H1] Hs Hv. cbn zeta. unfold resize, append_items. cbn.
  rewrite to_intT_small by lia. rewrite wrap32_to_intT by lia.
  destruct (Z.leb_spec 0 (size a)); [|lia].
  unfold add64. rewrite (wrap64_small (size a + 1)) by lia.
  rewrite (wrap64_small (1 + size a)) by lia.
  f_equal.
  destruct (decide (Z.of_nat (length (A a)) = size a)) as [E|E].
  - replace (Z.to_nat (1 + size a) - length (A a))%nat with 1%nat by lia.
    cbn. replace (Z.to_nat (size a)) with (length (A a) + 0)%nat by lia.
    rewrite insert_app_r. cbn. rewrite Nat.add_0_r, take_ge by lia.
    rewrite drop_ge by lia. reflexivity.
  - replace (Z.to_nat (1 + size a) - length (A a))%nat with 0%nat by lia.
    cbn. rewrite app_nil_r. rewrite insert_take_drop by lia.
    replace (Z.to_nat (size a) + 1)%nat with (S (Z.to_nat (size a))) by lia.
    reflexivity.
Qed.

Lemma live_range f j b v : live f j = Some (b, v) ->
  0 <= b < 2 ^ 32 /\ b <> null_bkt /\ 0 <= v < 2 ^ 32.
Proof.
  unfold live. destruct (f j) as [p|]; [|discriminate].
  destruct (Z.eqb_spec (get1 p) null_bkt); [discriminate|].
  intros [= <- <-]. unfold get0, get1.
  pose proof (wrap32_range (fst p)). pose proof (wrap32_range (snd p)). tauto.
Qed.

Lemma update_seq_step_put f st j :
  (forall b v, live f j = Some (b, v) ->
        b < Z.of_nat (length (bkts st)) /\ wf_arr (slot st b) /\ size (slot st b) < 2 ^ 31 - 1) ->
  update_seq_step f st j = match live f j with Some e => put st e | None => st end.
Proof.
  intros H. unfold update_seq_step.
  destruct (live f j) as [[b v]|] eqn:E.
  - destruct (live_range _ _ _ _ E) as (Hb & Hn & Hv).
    destruct (H b v eq_refl) as (Hlt & Hwf & Hsz).
    unfold live in E. destruct (f j) as [p|]; [|discriminate].
    destruct (Z.eqb_spec (get1 p) null_bkt) as [|Hne]; [discriminate|].
    injection E as E1 E2. cbn [negb]. rewrite E1, E2.
    unfold put, insert_in_bucket. cbn [fst snd].
    rewrite slot_set_slot_eq by lia.
    rewrite resize_insert_append by auto.
    unfold set_slot, set_bkts, set_num_elms. cbn.
    rewrite list_insert_insert_eq. reflexivity.
  - unfold live in E. destruct (f j) as [p|]; [|reflexivity].
    destruct (Z.eqb_spec (get1 p) null_bkt); [reflexivity|discriminate].
Qed.

Lemma apply_entries_nil st :
  0 <= num_elms st < 2 ^ 64 -> apply_entries [] st = st.
Proof.
  intros H. unfold apply_entries, set_num_elms, set_bkts.
  destruct st as [o bk cb mb cr nn ne ob tb al]. cbn in *.
  rewrite Z.add_0_r, wrap64_small by lia. f_equal.
  apply list_eq. intros i. rewrite list_lookup_imap.
  destruct (bk !! i) as [a|]; cbn; [|reflexivity].
  rewrite append_items_nil. reflexivity.
Qed.

Lemma apply_entries_cons e es st :
  Forall wf_arr (bkts st) ->
  0 <= fst e < Z.of_nat (length (bkts st)) ->
  apply_entries es (put st e) = apply_entries (e :: es) st.
Proof.
  intros Hwf Hb. destruct e as [b v]. cbn [fst] in Hb.
  unfold apply_entries, put. simpl_st. unfold set_num_elms, set_bkts. simpl_st.
  f_equal.
  - apply list_eq. intros i. rewrite !list_lookup_imap.
    destruct (decide (i = Z.to_nat b)) as [->|Hne].
    + rewrite list_lookup_insert_eq by lia.
      rewrite (slot_is_lookup st b) by lia. cbn [fmap option_fmap option_map].
      rewrite Z2Nat.id by lia. rewrite sel_cons_eq.
      rewrite append_items_app; [reflexivity|].
      eapply Forall_lookup_1; [exact Hwf|]. apply slot_is_lookup. lia.
    + rewrite list_lookup_insert_ne by lia.
      destruct (bkts st !! i) as [a|]; cbn [fmap option_fmap option_map]; [|reflexivity].
      rewrite sel_cons_ne by lia. reflexivity.
  - unfold add64, wrap64. rewrite Zplus_mod_idemp_l. f_equal. cbn [length]. lia.
Qed.

Lemma length_bkts_put st e : length (bkts (put st e)) = length (bkts st).
Proof. unfold put. cbn. apply length_insert. Qed.

Lemma wf_put st e : Forall wf_arr (bkts st) -> Forall wf_arr (bkts (put st e)).
Proof.
  intros Hwf. unfold put. cbn.
  destruct (decide (Z.to_nat (fst e) < length (bkts st))%nat) as [Hlt|Hge].
  - apply Forall_insert; [exact Hwf|]. apply wf_append_items.
    unfold slot. destruct (bkts st !! Z.to_nat (fst e)) as [a|] eqn:E; cbn.
    + eapply Forall_lookup_1; eauto.
    + unfold wf_arr. cbn. lia.
  - rewrite list_insert_ge by lia. exact Hwf.
Qed.

Lemma slot_put st e s :
  0 <= fst e < Z.of_nat (length (bkts st)) -> 0 <= s ->
  slot (put st e) s
  = if fst e =? s then append_items (slot st s) [snd e] else slot st s.
Proof.
  destruct e as [b v]. cbn [fst snd]. intros Hb Hs. unfold put. cbn [fst snd].
  change (slot (set_num_elms ?x ?y) s) with (slot y s).
  destruct (Z.eqb_spec b s) as [<-|Hne].
  - apply slot_set_slot_eq. lia.
  - apply slot_set_slot_ne; lia.
Qed.

Lemma entries_cons f j js :
  entries f (j :: js)
  = match live f j with Some e => e :: entries f js | None => entries f js end.
Proof. reflexivity. Qed.

Lemma entries_app f js1 js2 : entries f (js1 ++ js2) = entries f js1 ++ entries f js2.
Proof. apply omap_app. Qed.

(** The sequential path appends every entry of the batch to its slot. *)
Lemma foldl_update_seq_step f js st :
  Forall wf_arr (bkts st) ->
  0 <= num_elms st < 2 ^ 64 ->
  (forall e, e ∈ entries f js -> fst e < Z.of_nat (length (bkts st))) ->
  (forall s, 0 <= s < Z.of_nat (length (bkts st)) ->
        size (slot st s) + Z.of_nat (length (sel s (entries f js))) < 2 ^ 31) ->
  foldl (update_seq_step f) st js = apply_entries (entries f js) st.
Proof.
  revert st. induction js as [|j js IH]; intros st Hwf Hne Hin Hsz.
  - cbn. symmetry. apply apply_entries_nil. exact Hne.
  - cbn [foldl]. rewrite entries_cons in *.
    destruct (live f j) as [[b v]|] eqn:E.
    + destruct (live_range _ _ _ _ E) as (Hb & Hn & Hv).
      assert (Hlt : b < Z.of_nat (length (bkts st))).
      { apply (Hin (b, v)). left. }
      rewrite update_seq_step_put.
      2:{ intros b' v' E'. rewrite E in E'. injection E' as <- <-.
          split; [exact Hlt|]. split.
          - eapply Forall_lookup_1; [exact Hwf|]. apply slot_is_lookup. lia.
          - specialize (Hsz b ltac:(lia)).
            rewrite sel_cons_eq in Hsz. cbn [length] in Hsz. lia. }
      rewrite E.
      rewrite IH.
      * apply apply_entries_cons; [exact Hwf|cbn; lia].
      * apply wf_put. exact Hwf.
      * unfold put. cbn. unfold add64. apply wrap64_range.
      * intros e He. rewrite length_bkts_put. apply Hin. right. exact He.
      * intros s Hs. rewrite length_bkts_put in Hs.
        rewrite slot_put by (cbn; lia). cbn [fst snd].
        specialize (Hsz s Hs).
        destruct (Z.eqb_spec b s) as [->|Hbs].
        -- rewrite sel_cons_eq in Hsz. cbn [length append_items size] in *. lia.
        -- rewrite sel_cons_ne in Hsz by lia. lia.
    + rewrite update_seq_step_put by (intros b v E'; rewrite E in E'; discriminate).
      rewrite E. apply IH; auto.
Qed.

Lemma elem_of_entries f js e :
  e ∈ entries f js -> exists j, j ∈ js /\ live f j = Some e.
Proof.
  unfold entries. rewrite list_elem_of_omap. intros (j & Hj & E). eauto.
Qed.

Lemma update_buckets_seq_closed f k st :
  Forall wf_arr (bkts st) ->
  0 <= num_elms st < 2 ^ 64 ->
  batch_ok f k st ->
  update_buckets_seq f k st
  = (sub64 (wrap64 (num_elms st + Z.of_nat (length (entries f (seqZ 0 k)))))
           (num_elms st),
     apply_entries (entries f (seqZ 0 k)) st).
Proof.
  intros Hwf Hne [Hb Hsz]. unfold update_buckets_seq.
  rewrite foldl_update_seq_step; auto.
  intros [b v] He. apply elem_of_entries in He as (j & Hj & E).
  apply elem_of_seqZ in Hj. cbn. eapply Hb; [|exact E]. lia.
Qed.

(** ** The blocked counting sort *)

Lemma sumZ_app l1 l2 : sumZ (l1 ++ l2) = sumZ l1 + sumZ l2.
Proof. unfold sumZ. induction l1 as [|x l1 IH]; cbn; lia. Qed.

Lemma sumZ_cons x l : sumZ (x :: l) = x + sumZ l.
Proof. reflexivity. Qed.

Lemma wrap32_add_l x y : wrap32 (wrap32 x + y) = wrap32 (x + y).
Proof. unfold wrap32. apply Zplus_mod_idemp_l. Qed.

Lemma wrap32_add_r x y : wrap32 (x + wrap32 y) = wrap32 (x + y).
Proof. unfold wrap32. apply Zplus_mod_idemp_r. Qed.

Lemma wrap32_sub x y : wrap32 (wrap32 x - wrap32 y) = wrap32 (x - y).
Proof. unfold wrap32. rewrite <- Zminus_mod. reflexivity. Qed.

Lemma wrap32_idem x : wrap32 (wrap32 x) = wrap32 x.
Proof. unfold wrap32. apply Z.mod_mod. lia. Qed.

Lemma wrap64_add_l x y : wrap64 (wrap64 x + y) = wrap64 (x + y).
Proof. unfold wrap64. apply Zplus_mod_idemp_l. Qed.

Lemma wrap32_sumZ_fmap l : wrap32 (sumZ (wrap32 <$> l)) = wrap32 (sumZ l).
Proof.
  induction l as [|x l IH]; [reflexivity|].
  rewrite fmap_cons, !sumZ_cons.
  rewrite wrap32_add_l. rewrite <- wrap32_add_r, IH, wrap32_add_r. reflexivity.
Qed.

(** A loop that writes the cells [idx 0 .. idx (m-1)] of a scratch
    array. *)
Lemma foldl_wr_seqZ (idx val : Z -> Z) (h : list Z) (m : nat) :
  (forall j, 0 <= j < Z.of_nat m -> 0 <= idx j < Z.of_nat (length h)) ->
  (forall i j, 0 <= i < Z.of_nat m -> 0 <= j < Z.of_nat m -> idx i = idx j -> i = j) ->
  let h' := foldl (fun h j => wr h (idx j) (val j)) h (seqZ 0 (Z.of_nat m)) in
  length h' = length h
  /\ (forall j, 0 <= j < Z.of_nat m -> rd h' (idx j) = val j)
  /\ (forall c, 0 <= c -> (forall j, 0 <= j < Z.of_nat m -> idx j <> c) -> rd h' c = rd h c).
Proof.
  induction m as [|m IH]; intros Hin Hinj.
  - cbn. repeat split; intros; try reflexivity; lia.
  - destruct IH as (IHl & IHw & IHf).
    { intros j Hj. apply Hin. lia. }
    { intros i j Hi Hj. apply Hinj; lia. }
    rewrite seqZ_S, foldl_app. cbn [foldl]. rewrite Z.add_0_l.
    cbn zeta.
    set (hp := foldl (fun h j => wr h (idx j) (val j)) h (seqZ 0 (Z.of_nat m))) in *.
    assert (Hm : 0 <= idx (Z.of_nat m) < Z.of_nat (length hp)).
    { rewrite IHl. apply Hin. lia. }
    split; [rewrite length_wr; exact IHl|]. split.
    + intros j Hj. destruct (decide (j = Z.of_nat m)) as [->|Hne].
      * apply rd_wr_eq. exact Hm.
      * rewrite rd_wr_ne.
        -- apply IHw. lia.
        -- lia.
        -- specialize (Hin j ltac:(lia)). lia.
        -- intros E. apply Hne. symmetry. apply Hinj; [lia|lia|exact E].
    + intros c Hc Hne. rewrite rd_wr_ne.
      * apply IHf; [exact Hc|]. intros j Hj. apply Hne. lia.
      * lia.
      * exact Hc.
      * apply Hne. lia.
Qed.

Lemma rd_replicate m c : rd (replicate m 0) c = 0.
Proof.
  unfold rd. destruct (replicate m 0 !! Z.to_nat c) as [x|] eqn:E; [|reflexivity].
  apply lookup_replicate in E as [-> _]. reflexivity.
Qed.

Lemma cnt_nil f s : cnt f s [] = 0.
Proof. reflexivity. Qed.

Lemma cnt_app f s js1 js2 : cnt f s (js1 ++ js2) = cnt f s js1 + cnt f s js2.
Proof. unfold cnt. rewrite entries_app, sel_app, length_app. lia. Qed.

Lemma cnt_cons f s j js :
  cnt f s (j :: js)
  = (match live f j with Some e => if fst e =? s then 1 else 0 | None => 0 end)
    + cnt f s js.
Proof.
  unfold cnt. rewrite entries_cons. destruct (live f j) as [[b v]|]; [|lia].
  cbn [fst]. destruct (Z.eqb_spec b s) as [->|Hne].
  - rewrite sel_cons_eq. cbn [length]. lia.
  - rewrite sel_cons_ne by exact Hne. lia.
Qed.

Lemma cnt_nonneg f s js : 0 <= cnt f s js.
Proof. unfold cnt. lia. Qed.

Lemma cnt_le_length f s js : cnt f s js <= Z.of_nat (length js).
Proof.
  induction js as [|j js IH]; [rewrite cnt_nil; cbn [length]; lia|].
  rewrite cnt_cons. cbn [length].
  destruct (live f j) as [e|]; [destruct (fst e =? s)|]; lia.
Qed.

Lemma live_Some f j p :
  f j = Some p -> get1 p <> null_bkt -> live f j = Some (get1 p, get0 p).
Proof.
  intros E H. unfold live. rewrite E.
  destruct (Z.eqb_spec (get1 p) null_bkt); [contradiction|reflexivity].
Qed.

Lemma live_None_null f j p : f j = Some p -> get1 p = null_bkt -> live f j = None.
Proof. intros E H. unfold live. rewrite E, H, Z.eqb_refl. reflexivity. Qed.

Lemma live_None f j : f j = None -> live f j = None.
Proof. intros E. unfold live. rewrite E. reflexivity. Qed.

Lemma tally_step_live f base h j :
  tally_step f base h j
  = match live f j with
    | Some e => wr h (base + fst e) (wrap32 (rd h (base + fst e) + 1))
    | None => h
    end.
Proof.
  unfold tally_step, live. destruct (f j) as [p|]; [|reflexivity].
  cbv zeta. destruct (get1 p =? null_bkt); reflexivity.
Qed.

(** The tally loop of phase 1 adds to every cell of the block's histogram
    the number of entries of its slot. *)
Lemma tally_spec (f : batch) (T base : Z) (js : list Z) (h : list Z) :
  0 <= base -> base + T <= Z.of_nat (length h) ->
  (forall c, base <= c < base + T -> 0 <= rd h c < 2 ^ 32) ->
  (forall j b v, j ∈ js -> live f j = Some (b, v) -> b < T) ->
  let h' := foldl (tally_step f base) h js in
  length h' = length h
  /\ (forall c, 0 <= c ->
        rd h' c = if (base <=? c) && (c <? base + T)
                  then wrap32 (rd h c + cnt f (c - base) js)
                  else rd h c).
Proof.
  intros Hbase. revert h. induction js as [|j js IH]; intros h Hlen Hr Hval; cbn zeta.
  - cbn [foldl]. split; [reflexivity|]. intros c Hc.
    destruct (Z.leb_spec base c); destruct (Z.ltb_spec c (base + T)); cbn [andb];
      try reflexivity.
    rewrite cnt_nil, Z.add_0_r. symmetry. apply wrap32_small. apply Hr. lia.
  - cbn [foldl].
    assert (Hval' : forall j0 b v, j0 ∈ js -> live f j0 = Some (b, v) -> b < T).
    { intros j0 b v Hj0. apply Hval. right. exact Hj0. }
    rewrite tally_step_live.
    destruct (live f j) as [[b v]|] eqn:E; cbn [fst].
    + destruct (live_range _ _ _ _ E) as (Hb & _ & _).
      assert (HbT : b < T) by (eapply Hval; [left|exact E]).
      set (h1 := wr h (base + b) (wrap32 (rd h (base + b) + 1))).
      destruct (IH h1) as (IHl & IHc).
      * unfold h1. rewrite length_wr. exact Hlen.
      * intros c Hc. unfold h1.
        destruct (decide (c = base + b)) as [->|Hcb].
        -- rewrite rd_wr_eq by lia. apply wrap32_range.
        -- rewrite rd_wr_ne by lia. apply Hr. exact Hc.
      * exact Hval'.
      * split; [rewrite IHl; unfold h1; apply length_wr|].
        intros c Hc. rewrite IHc by exact Hc.
        rewrite cnt_cons, E. cbn [fst].
        destruct (Z.leb_spec base c); destruct (Z.ltb_spec c (base + T)); cbn [andb].
        -- unfold h1. destruct (Z.eqb_spec b (c - base)) as [Eb|Eb].
           ++ replace c with (base + b) by lia. rewrite rd_wr_eq by lia.
              rewrite wrap32_add_l. f_equal. lia.
           ++ rewrite rd_wr_ne by lia. f_equal.
        -- unfold h1. rewrite rd_wr_ne by lia. reflexivity.
        -- unfold h1. rewrite rd_wr_ne by lia. reflexivity.
        -- unfold h1. rewrite rd_wr_ne by lia. reflexivity.
    + destruct (IH h Hlen Hr Hval') as (IHl & IHc). split; [exact IHl|].
      intros c Hc. rewrite IHc by exact Hc. rewrite cnt_cons, E. reflexivity.
Qed.

(** ** Structures that differ in their slots only *)

Lemma same_frame_refl st : same_frame st st.
Proof. unfold same_frame. tauto. Qed.

Lemma same_frame_trans st1 st2 st3 :
  same_frame st1 st2 -> same_frame st2 st3 -> same_frame st1 st3.
Proof. unfold same_frame. intuition congruence. Qed.

Lemma same_frame_set_slot st b a : same_frame st (set_slot b a st).
Proof. unfold same_frame, set_slot. simpl_st. rewrite length_insert. tauto. Qed.

Lemma same_frame_set_num_elms st e : same_frame st (set_num_elms e st).
Proof. unfold same_frame. simpl_st. tauto. Qed.

Lemma slot_set_num_elms st e b : slot (set_num_elms e st) b = slot st b.
Proof. reflexivity. Qed.

Lemma buckets_ext st1 st2 :
  same_frame st1 st2 -> num_elms st2 = num_elms st1 ->
  (forall i, 0 <= i < Z.of_nat (length (bkts st1)) -> slot st2 i = slot st1 i) ->
  st2 = st1.
Proof.
  intros (H1 & H2 & H3 & H4 & H5 & H6 & H7 & H8 & H9) Hn Hs.
  destruct st1 as [o1 b1 c1 m1 r1 n1 e1 ob1 t1 a1].
  destruct st2 as [o2 b2 c2 m2 r2 n2 e2 ob2 t2 a2]. cbn in *. subst.
  f_equal. apply list_eq. intros i.
  destruct (decide (i < length b1)%nat) as [Hlt|Hge].
  - specialize (Hs (Z.of_nat i) ltac:(lia)). unfold slot in Hs. cbn in Hs.
    rewrite Nat2Z.id in Hs.
    destruct (lookup_lt_is_Some_2 b1 i Hlt) as [x1 E1].
    destruct (lookup_lt_is_Some_2 b2 i ltac:(lia)) as [x2 E2].
    rewrite E1, E2 in *. cbn in Hs. congruence.
  - rewrite !lookup_ge_None_2 by lia. reflexivity.
Qed.

(** A loop that rewrites slot [i] and [num_elms] for every [i] below
    [m]. *)
Lemma foldl_slots (step : buckets -> Z -> buckets)
    (F : Z -> dyn_arr -> dyn_arr) (g : Z -> Z -> Z) (st : buckets) (m : nat) :
  (forall s i, step s i = set_num_elms (g i (num_elms s)) (set_slot i (F i (slot s i)) s)) ->
  let st' := foldl step st (seqZ 0 (Z.of_nat m)) in
  same_frame st st'
  /\ num_elms st' = foldl (fun x i => g i x) (num_elms st) (seqZ 0 (Z.of_nat m))
  /\ (forall i, 0 <= i < Z.of_nat (length (bkts st)) ->
        slot st' i = if i <? Z.of_nat m then F i (slot st i) else slot st i).
Proof.
  intros Hstep. induction m as [|m IH]; cbn zeta.
  - cbn [seqZ foldl]. change (seqZ 0 (Z.of_nat 0)) with (@nil Z). cbn [foldl].
    split; [apply same_frame_refl|]. split; [reflexivity|].
    intros i Hi. destruct (Z.ltb_spec i (Z.of_nat 0)); [lia|reflexivity].
  - rewrite seqZ_S, !foldl_app. cbn [foldl]. rewrite Z.add_0_l.
    destruct IH as (IHf & IHn & IHs).
    set (sp := foldl step st (seqZ 0 (Z.of_nat m))) in *.
    rewrite Hstep. split; [|split].
    + eapply same_frame_trans; [exact IHf|].
      eapply same_frame_trans; [apply same_frame_set_slot|apply same_frame_set_num_elms].
    + simpl_st. rewrite IHn. reflexivity.
    + intros i Hi. rewrite slot_set_num_elms.
      assert (Hlen : length (bkts sp) = length (bkts st)) by apply IHf.
      destruct (decide (i = Z.of_nat m)) as [->|Hne].
      * rewrite slot_set_slot_eq by lia. rewrite IHs by lia.
        destruct (Z.ltb_spec (Z.of_nat m) (Z.of_nat m)); [lia|].
        destruct (Z.ltb_spec (Z.of_nat m) (Z.of_nat (S m))); [reflexivity|lia].
      * rewrite slot_set_slot_ne by lia. rewrite IHs by lia.
        destruct (Z.ltb_spec i (Z.of_nat m)); destruct (Z.ltb_spec i (Z.of_nat (S m)));
          try reflexivity; lia.
Qed.

Lemma overwrite_nil a : overwrite a [] = a.
Proof.
  unfold overwrite. rewrite append_items_nil. destruct a; reflexivity.
Qed.

Lemma insert_overwrite a vs v :
  wf_arr a -> size a + Z.of_nat (length vs) < Z.of_nat (length (A a)) ->
  size a + Z.of_nat (length vs) < 2 ^ 64 ->
  insert v (Z.of_nat (length vs)) (overwrite a vs) = overwrite a (vs ++ [v]).
Proof.
  intros [H0 H1] Hroom Hlt. unfold insert, overwrite, append_items. simpl_st.
  f_equal. rewrite wrap64_small by lia.
  assert (HP : length (take (Z.to_nat (size a)) (A a)) = Z.to_nat (size a))
    by (rewrite length_take; lia).
  set (P := take (Z.to_nat (size a)) (A a)) in *.
  rewrite (app_assoc P vs).
  replace (Z.to_nat (size a + Z.of_nat (length vs))) with (length (P ++ vs) + 0)%nat
    by (rewrite length_app; lia).
  rewrite insert_app_r.
  rewrite <- !app_assoc. do 2 f_equal.
  destruct (drop (Z.to_nat (size a) + length vs) (A a)) as [|x r] eqn:E.
  - apply (f_equal length) in E. rewrite length_drop in E. cbn in E. lia.
  - cbn. f_equal.
    assert (E' : drop 1 (drop (Z.to_nat (size a) + length vs) (A a)) = r)
      by (rewrite E; reflexivity).
    rewrite drop_drop in E'. rewrite <- E'. f_equal. rewrite length_app. cbn. lia.
Qed.

(** Reserving room for [vs], writing it and committing the size appends
    [vs]. *)
Lemma resize_overwrite_commit a vs :
  wf_arr a -> size a + Z.of_nat (length vs) < 2 ^ 64 ->
  (let a5 := overwrite (resize (Z.of_nat (length vs)) a) vs in
   {| A := A a5; size := add64 (size a5) (Z.of_nat (length vs)) |})
  = append_items a vs.
Proof.
  intros [H0 H1] Hlt. cbn zeta. unfold overwrite, resize, append_items. simpl_st.
  unfold add64. rewrite !wrap64_small by lia. f_equal.
  rewrite take_app_le by lia. do 2 f_equal.
  rewrite drop_app. rewrite drop_replicate.
  replace (Z.to_nat (Z.of_nat (length vs) + size a) - length (A a)
           - (Z.to_nat (size a) + length vs - length (A a)))%nat with 0%nat by lia.
  cbn. apply app_nil_r.
Qed.

Lemma length_A_resize delta a :
  0 <= delta + size a < 2 ^ 64 ->
  delta + size a <= Z.of_nat (length (A (resize delta a))).
Proof.
  intros H. unfold resize. simpl_st. rewrite length_app, length_replicate.
  rewrite wrap64_small by lia. lia.
Qed.

Lemma wf_resize delta a : wf_arr a -> wf_arr (resize delta a).
Proof.
  intros [H0 H1]. unfold wf_arr, resize. simpl_st. rewrite length_app. lia.
Qed.

Lemma sumZ_fmap_add {X} (g1 g2 : X -> Z) (l : list X) :
  sumZ ((fun x => g1 x + g2 x) <$> l) = sumZ (g1 <$> l) + sumZ (g2 <$> l).
Proof.
  induction l as [|x l IH]; [reflexivity|].
  rewrite !fmap_cons, !sumZ_cons, IH. lia.
Qed.

Lemma sumZ_fmap_zero {X} (g : X -> Z) (l : list X) :
  (forall x, x ∈ l -> g x = 0) -> sumZ (g <$> l) = 0.
Proof.
  induction l as [|x l IH]; intros H; [reflexivity|].
  rewrite fmap_cons, sumZ_cons, IH.
  - rewrite H; [reflexivity|left].
  - intros y Hy. apply H. right. exact Hy.
Qed.

Lemma sum_indicator (b T : Z) :
  0 <= b < T -> sumZ ((fun s => if b =? s then 1 else 0) <$> seqZ 0 T) = 1.
Proof.
  intros Hb. replace T with (b + (1 + (T - b - 1))) by lia.
  rewrite seqZ_app by lia. rewrite seqZ_app by lia.
  rewrite !fmap_app, !sumZ_app.
  rewrite (sumZ_fmap_zero _ (seqZ 0 b)).
  2:{ intros s Hs. apply elem_of_seqZ in Hs. destruct (Z.eqb_spec b s); [lia|reflexivity]. }
  rewrite (sumZ_fmap_zero _ (seqZ (0 + b + 1) (T - b - 1))).
  2:{ intros s Hs. apply elem_of_seqZ in Hs. destruct (Z.eqb_spec b s); [lia|reflexivity]. }
  change (seqZ (0 + b) 1) with [0 + b]. rewrite Z.add_0_l.
  rewrite fmap_cons, sumZ_cons, Z.eqb_refl. reflexivity.
Qed.

(** Every entry goes to one slot. *)
Lemma sum_length_sel (es : list (Z * Z)) (T : Z) :
  (forall e, e ∈ es -> 0 <= fst e < T) ->
  sumZ ((fun s => Z.of_nat (length (sel s es))) <$> seqZ 0 T) = Z.of_nat (length es).
Proof.
  induction es as [|[b v] es IH]; intros H.
  - apply sumZ_fmap_zero. intros; reflexivity.
  - assert (Hb : 0 <= b < T) by (apply (H (b, v)); left).
    rewrite (list_fmap_ext _
               (fun s => Z.of_nat (length (sel s es)) + (if b =? s then 1 else 0))).
    + rewrite sumZ_fmap_add. rewrite sum_indicator by exact Hb.
      rewrite IH; [cbn [length]; lia|].
      intros e He. apply H. right. exact He.
    + intros i s _. destruct (Z.eqb_spec b s) as [->|Hne].
      * rewrite sel_cons_eq. cbn [length]. lia.
      * rewrite sel_cons_ne by exact Hne. lia.
Qed.

Lemma foldl_add64 (c : Z -> Z) (l : list Z) (x0 : Z) :
  0 <= x0 < 2 ^ 64 ->
  foldl (fun x i => add64 x (c i)) x0 l = wrap64 (x0 + sumZ (c <$> l)).
Proof.
  revert x0. induction l as [|i l IH]; intros x0 Hx.
  - cbn. rewrite Z.add_0_r, wrap64_small by lia. reflexivity.
  - cbn [foldl]. rewrite IH by apply wrap64_range.
    rewrite fmap_cons, sumZ_cons. unfold add64. rewrite wrap64_add_l. f_equal. lia.
Qed.

Lemma scatter_step_live f nb i h st j :
  scatter_step f nb i (h, st) j
  = match live f j with
    | Some e =>
        let c := (fst e * nb + i) * CACHE_LINE_S in
        (wr h c (wrap32 (rd h c + 1)),
         set_slot (fst e) (insert (snd e) (rd h c) (slot st (fst e))) st)
    | None => (h, st)
    end.
Proof.
  unfold scatter_step, live. destruct (f j) as [p|]; [|reflexivity].
  cbv zeta. destruct (get1 p =? null_bkt); reflexivity.
Qed.

Lemma entries_snoc f js j :
  entries f (js ++ [j])
  = entries f js ++ match live f j with Some e => [e] | None => [] end.
Proof.
  rewrite entries_app. reflexivity.
Qed.

Lemma cnt_prefix_mono f s x y : 0 <= x <= y -> cnt f s (seqZ 0 x) <= cnt f s (seqZ 0 y).
Proof.
  intros H. replace y with (x + (y - x)) by lia.
  rewrite seqZ_app by lia. rewrite cnt_app.
  pose proof (cnt_nonneg f s (seqZ (0 + x) (y - x))). lia.
Qed.

Lemma same_frame_sym st st' : same_frame st st' -> same_frame st' st.
Proof. unfold same_frame. intuition congruence. Qed.

Lemma same_frame_apply_entries es st : same_frame st (apply_entries es st).
Proof.
  unfold same_frame, apply_entries. simpl_st. rewrite length_imap. tauto.
Qed.

Lemma slot_apply_entries es st i :
  0 <= i < Z.of_nat (length (bkts st)) ->
  slot (apply_entries es st) i = append_items (slot st i) (sel i es).
Proof.
  intros Hi. unfold slot, apply_entries. simpl_st.
  rewrite list_lookup_imap.
  destruct (lookup_lt_is_Some_2 (bkts st) (Z.to_nat i)) as [a Ha]; [lia|].
  rewrite Ha. cbn. rewrite Z2Nat.id by lia. reflexivity.
Qed.

Lemma foldl_const {X Y} (x0 : X) (l : list Y) : foldl (fun x _ => x) x0 l = x0.
Proof. induction l as [|y l IH]; [reflexivity|exact IH]. Qed.

Lemma fmap_seqZ_ext {X} (g1 g2 : Z -> X) m len :
  (forall j, m <= j < m + len -> g1 j = g2 j) -> g1 <$> seqZ m len = g2 <$> seqZ m len.
Proof.
  intros H. apply list_fmap_ext. intros i x Hx.
  apply lookup_seqZ in Hx as [-> Hi]. apply H. lia.
Qed.

Lemma take_seqZ m len i :
  0 <= i <= len -> take (Z.to_nat i) (seqZ m len) = seqZ m i.
Proof.
  intros H. replace len with (i + (len - i)) by lia.
  rewrite seqZ_app by lia. apply take_app_length'. rewrite length_seqZ. reflexivity.
Qed.

(** The exclusive prefix sums of [scan_add]. *)
Lemma scan_add_from_spec (l : list Z) (acc : Z) :
  0 <= acc < 2 ^ 32 ->
  length (fst (scan_add_from acc l)) = length l
  /\ snd (scan_add_from acc l) = wrap32 (acc + sumZ l)
  /\ (forall i, (i < length l)%nat ->
        fst (scan_add_from acc l) !! i = Some (wrap32 (acc + sumZ (take i l)))).
Proof.
  revert acc. induction l as [|x l IH]; intros acc Hacc.
  - cbn. rewrite Z.add_0_r, wrap32_small by lia. repeat split. intros i Hi. lia.
  - cbn [scan_add_from].
    destruct (scan_add_from (wrap32 (acc + x)) l) as [o s] eqn:E.
    destruct (IH (wrap32 (acc + x)) (wrap32_range _)) as (IHl & IHs & IHi).
    rewrite E in IHl, IHs, IHi. cbn [fst snd] in *.
    split; [cbn [length]; lia|]. split.
    + rewrite IHs, sumZ_cons, wrap32_add_l. f_equal. lia.
    + intros [|i] Hi.
      * cbn. rewrite Z.add_0_r, wrap32_small by lia. reflexivity.
      * cbn [length] in Hi. cbn [lookup list_lookup take]. 
        change ((acc :: o) !! S i) with (o !! i).
        rewrite IHi by lia. rewrite sumZ_cons, wrap32_add_l. do 2 f_equal. lia.
Qed.

Lemma rd_app_l l1 l2 i :
  0 <= i < Z.of_nat (length l1) -> rd (l1 ++ l2) i = rd l1 i.
Proof. intros H. unfold rd. rewrite lookup_app_l by lia. reflexivity. Qed.

Lemma rd_app_length l1 x i :
  i = Z.of_nat (length l1) -> rd (l1 ++ [x]) i = x.
Proof.
  intros ->. unfold rd. rewrite Nat2Z.id.
  rewrite lookup_app_r by lia. rewrite Nat.sub_diag. reflexivity.
Qed.

Lemma rd_scan_add (l : list Z) (i : Z) :
  0 <= i <= Z.of_nat (length l) ->
  rd (fst (scan_add l) ++ [snd (scan_add l)]) i = wrap32 (sumZ (take (Z.to_nat i) l)).
Proof.
  intros Hi. unfold scan_add.
  destruct (scan_add_from_spec l 0 ltac:(lia)) as (Hl & Hs & Ho).
  destruct (decide (i = Z.of_nat (length l))) as [->|Hne].
  - rewrite rd_app_length by lia. rewrite Hs, Nat2Z.id, take_ge by lia. reflexivity.
  - rewrite rd_app_l by lia. unfold rd. rewrite Ho by lia. reflexivity.
Qed.

Section CountingSort.

Variables (f : batch) (k T B bs : Z).
Hypothesis HT : 0 <= T.
Hypothesis HB : 1 <= B.
Hypothesis Hbs : 0 <= bs.
Hypothesis Hcover : k <= B * bs.
Hypothesis Hk : 0 <= k < 2 ^ 32.
Hypothesis Hval : forall j b v, 0 <= j < k -> live f j = Some (b, v) -> b < T.

(** The indices of block [i]. *)
Definition blk (i : Z) : list Z := seqZ (i * bs) (Z.min (i * bs + bs) k - i * bs).

Lemma elem_of_blk i j : 0 <= i -> j ∈ blk i -> 0 <= j < k.
Proof. unfold blk. rewrite elem_of_seqZ. nia. Qed.

(** The blocks before block [m], one after the other. *)
Lemma seqZ_blk (m : Z) :
  0 <= m -> seqZ 0 (Z.min (m * bs) k) ++ blk m = seqZ 0 (Z.min ((m + 1) * bs) k).
Proof.
  intros Hm. unfold blk.
  destruct (Z.le_gt_cases k (m * bs)) as [Hle|Hgt].
  - rewrite (seqZ_nil (m * bs)) by lia. rewrite app_nil_r. f_equal. nia.
  - replace (Z.min (m * bs) k) with (m * bs) by lia.
    replace (Z.min ((m + 1) * bs) k)
      with (m * bs + (Z.min (m * bs + bs) k - m * bs)) by nia.
    rewrite seqZ_app by nia. reflexivity.
Qed.

Lemma cnt_bound s js : (forall j, j ∈ js -> 0 <= j < k) -> NoDup js -> cnt f s js <= k.
Proof.
  intros Hin Hnd. etransitivity; [apply cnt_le_length|].
  assert (Hsub : js ⊆ seqZ 0 k).
  { intros j Hj. apply elem_of_seqZ. specialize (Hin j Hj). lia. }
  pose proof (submseteq_length _ _ (NoDup_submseteq _ _ Hnd Hsub)) as Hlen.
  rewrite length_seqZ in Hlen. lia.
Qed.

Lemma cnt_prefix_bound s x : 0 <= x <= k -> 0 <= cnt f s (seqZ 0 x) < 2 ^ 32.
Proof.
  intros Hx. split; [apply cnt_nonneg|].
  pose proof (cnt_le_length f s (seqZ 0 x)) as H. rewrite length_seqZ in H. lia.
Qed.

(** Phase 1, one block. *)
Lemma hist_block_spec (h : list Z) (i : Z) :
  0 <= i -> i * T + T <= Z.of_nat (length h) ->
  let h' := hist_block f k T bs h i in
  length h' = length h
  /\ (forall c, 0 <= c ->
        rd h' c = if (i * T <=? c) && (c <? i * T + T)
                  then wrap32 (cnt f (c - i * T) (blk i))
                  else rd h c).
Proof.
  intros Hi Hlen. cbn zeta. unfold hist_block. cbv zeta.
  fold (blk i).
  destruct (foldl_wr_seqZ (fun j => i * T + j) (fun _ => 0) h (Z.to_nat T))
    as (Zl & Zw & Zf).
  { intros j Hj. nia. }
  { intros a b _ _ E. lia. }
  rewrite Z2Nat.id in * by lia.
  set (h0 := foldl (fun h j => wr h (i * T + j) 0) h (seqZ 0 T)) in *.
  destruct (tally_spec f T (i * T) (blk i) h0) as (Tl & Tc).
  - nia.
  - rewrite Zl. exact Hlen.
  - intros c Hc. replace c with (i * T + (c - i * T)) by lia.
    rewrite Zw by lia. lia.
  - intros j b v Hj E. eapply Hval; [|exact E]. eapply elem_of_blk; eauto.
  - split; [rewrite Tl; exact Zl|].
    intros c Hc. rewrite Tc by exact Hc.
    destruct (Z.leb_spec (i * T) c); destruct (Z.ltb_spec c (i * T + T)); cbn [andb].
    + replace c with (i * T + (c - i * T)) at 1 by lia.
      rewrite Zw by lia. reflexivity.
    + apply Zf; [exact Hc|]. intros j Hj. lia.
    + apply Zf; [exact Hc|]. intros j Hj. lia.
    + apply Zf; [exact Hc|]. intros j Hj. lia.
Qed.

(** Phase 1: every block's histogram holds the block's counts. *)
Lemma hists1_spec (h : list Z) (m : nat) :
  Z.of_nat m * T <= Z.of_nat (length h) ->
  let h' := foldl (hist_block f k T bs) h (seqZ 0 (Z.of_nat m)) in
  length h' = length h
  /\ (forall i s, 0 <= i < Z.of_nat m -> 0 <= s < T ->
        rd h' (i * T + s) = wrap32 (cnt f s (blk i))).
Proof.
  induction m as [|m IH]; intros Hlen; cbn zeta.
  - cbn. split; [reflexivity|]. intros; lia.
  - rewrite seqZ_S, foldl_app. cbn [foldl]. rewrite Z.add_0_l.
    destruct IH as (IHl & IHc); [nia|].
    set (hp := foldl (hist_block f k T bs) h (seqZ 0 (Z.of_nat m))) in *.
    destruct (hist_block_spec hp (Z.of_nat m)) as (Hl & Hc); [lia|rewrite IHl; nia|].
    split; [rewrite Hl; exact IHl|].
    intros i s Hi Hs. rewrite Hc by nia.
    destruct (decide (i = Z.of_nat m)) as [->|Hne].
    + destruct (Z.leb_spec (Z.of_nat m * T) (Z.of_nat m * T + s)); [|lia].
      destruct (Z.ltb_spec (Z.of_nat m * T + s) (Z.of_nat m * T + T)); [|lia].
      cbn [andb]. do 2 f_equal. lia.
    + destruct (Z.leb_spec (Z.of_nat m * T) (i * T + s)); [nia|].
      cbn [andb]. apply IHc; lia.
Qed.

(** The count that cell [i] of the slot-major sequence holds. *)
Definition cell (i : Z) : Z := cnt f (i / B) (blk (i mod B)).

(** The number of entries before cell [i], slot-major. *)
Definition before (i : Z) : Z := sumZ (cell <$> seqZ 0 i).

Lemma cell_slot_block s b : 0 <= b < B -> cell (s * B + b) = cnt f s (blk b).
Proof.
  intros Hb. unfold cell. f_equal.
  - rewrite Z.add_comm, Z.div_add by lia. rewrite Z.div_small by lia. lia.
  - f_equal. rewrite Z.add_comm, Z.mod_add by lia. apply Z.mod_small. lia.
Qed.

Lemma sum_cnt_blocks s (b : nat) :
  sumZ ((fun i => cnt f s (blk i)) <$> seqZ 0 (Z.of_nat b))
  = cnt f s (seqZ 0 (Z.min (Z.of_nat b * bs) k)).
Proof.
  induction b as [|b IH].
  - change (Z.of_nat 0) with 0. rewrite Z.mul_0_l.
    replace (Z.min 0 k) with 0 by lia. reflexivity.
  - rewrite seqZ_S, fmap_app, sumZ_app, IH. cbn [fmap list_fmap sumZ foldr].
    rewrite Z.add_0_l, Z.add_0_r. rewrite <- cnt_app. f_equal.
    rewrite seqZ_blk by lia. f_equal. f_equal. lia.
Qed.

Lemma before_slot_block s b :
  0 <= s -> 0 <= b <= B ->
  before (s * B + b) - before (s * B) = cnt f s (seqZ 0 (Z.min (b * bs) k)).
Proof.
  intros Hs Hb. unfold before.
  rewrite (seqZ_app 0 (s * B) b) by nia. rewrite fmap_app, sumZ_app.
  rewrite Z.add_0_l.
  replace (sumZ (cell <$> seqZ (s * B) b))
    with (sumZ ((fun i => cnt f s (blk i)) <$> seqZ 0 b)).
  - rewrite <- (Z2Nat.id b) by lia. rewrite sum_cnt_blocks.
    rewrite Z2Nat.id by lia. lia.
  - replace (seqZ (s * B) b) with (Z.add (s * B) <$> seqZ 0 b)
      by (rewrite fmap_add_seqZ; f_equal; lia).
    rewrite <- list_fmap_compose. f_equal.
    apply fmap_seqZ_ext. intros j Hj. cbn.
    symmetry. apply cell_slot_block. lia.
Qed.

(** *** The phases on a structure [st] *)

Variable st : buckets.
Hypothesis Hlen : Z.of_nat (length (bkts st)) = T.
Hypothesis Hwf : Forall wf_arr (bkts st).
Hypothesis Hne : 0 <= num_elms st < 2 ^ 64.
Hypothesis Hsz : forall s, 0 <= s < T -> size (slot st s) + cnt f s (seqZ 0 k) < 2 ^ 31.

Let h0 : list Z := replicate (Z.to_nat ((B + 1) * T * CACHE_LINE_S)) 0.
Let h1 : list Z := foldl (hist_block f k T bs) h0 (seqZ 0 B).
Let in_map : list Z := (fun i => rd h1 ((i mod B) * T + i / B)) <$> seqZ 0 (B * T).
Let outs : list Z := fst (scan_add in_map) ++ [snd (scan_add in_map)].
Let num_inc (i : Z) : Z := wrap32 (rd outs ((i + 1) * B) - rd outs (i * B)).
Let h4 : list Z := foldl (offsets_slot B outs) h1 (seqZ 0 T).

(** The cursor cell of slot [s] and block [b]. *)
Definition cidx (s b : Z) : Z := (s * B + b) * CACHE_LINE_S.

Lemma length_h0 : Z.of_nat (length h0) = (B + 1) * T * CACHE_LINE_S.
Proof. unfold h0, CACHE_LINE_S. rewrite length_replicate. nia. Qed.

Lemma h1_spec :
  length h1 = length h0
  /\ (forall i s, 0 <= i < B -> 0 <= s < T -> rd h1 (i * T + s) = wrap32 (cnt f s (blk i))).
Proof.
  pose proof length_h0 as L0. unfold CACHE_LINE_S in L0.
  destruct (hists1_spec h0 (Z.to_nat B)) as (Hl & Hc).
  { rewrite Z2Nat.id by lia. nia. }
  rewrite Z2Nat.id in * by lia. split; [exact Hl|exact Hc].
Qed.

Lemma in_map_cells : in_map = wrap32 <$> (cell <$> seqZ 0 (B * T)).
Proof.
  unfold in_map. rewrite <- list_fmap_compose. apply fmap_seqZ_ext.
  intros j Hj. cbn. unfold cell. apply h1_spec.
  - apply Z.mod_pos_bound. lia.
  - split; [apply Z.div_pos; lia|]. apply Z.div_lt_upper_bound; lia.
Qed.

Lemma rd_outs i : 0 <= i <= B * T -> rd outs i = wrap32 (before i).
Proof.
  intros Hi. unfold outs. rewrite rd_scan_add.
  - rewrite in_map_cells, <- !fmap_take, take_seqZ by lia.
    apply wrap32_sumZ_fmap.
  - unfold in_map. rewrite length_fmap, length_seqZ. lia.
Qed.

Lemma cursor0_spec s b :
  0 <= s < T -> 0 <= b <= B ->
  wrap32 (rd outs (s * B + b) - rd outs (s * B)) = cnt f s (seqZ 0 (Z.min (b * bs) k)).
Proof.
  intros Hs Hb. rewrite !rd_outs by nia. rewrite wrap32_sub.
  rewrite before_slot_block by lia. apply wrap32_small.
  apply cnt_prefix_bound. nia.
Qed.

Lemma num_inc_spec s : 0 <= s < T -> num_inc s = cnt f s (seqZ 0 k).
Proof.
  intros Hs. unfold num_inc. replace ((s + 1) * B) with (s * B + B) by lia.
  rewrite cursor0_spec by lia. do 2 f_equal. nia.
Qed.

Lemma offsets_slot_spec (h : list Z) (s : Z) :
  0 <= s -> cidx s B <= Z.of_nat (length h) ->
  let h' := offsets_slot B outs h s in
  length h' = length h
  /\ (forall b, 0 <= b < B ->
        rd h' (cidx s b) = wrap32 (rd outs (s * B + b) - rd outs (s * B)))
  /\ (forall c, 0 <= c -> (forall b, 0 <= b < B -> cidx s b <> c) -> rd h' c = rd h c).
Proof.
  intros Hs Hl. cbn zeta. unfold offsets_slot. cbv zeta.
  destruct (foldl_wr_seqZ (fun j => (s * B + j) * CACHE_LINE_S)
              (fun j => wrap32 (rd outs (s * B + j) - rd outs (s * B))) h (Z.to_nat B))
    as (Wl & Ww & Wf).
  { intros j Hj. unfold cidx, CACHE_LINE_S in *. nia. }
  { intros a b _ _ E. unfold CACHE_LINE_S in E. lia. }
  rewrite Z2Nat.id in * by lia. split; [exact Wl|]. split; [exact Ww|exact Wf].
Qed.

Lemma h4_spec_gen (m : nat) :
  Z.of_nat m <= T ->
  let h' := foldl (offsets_slot B outs) h1 (seqZ 0 (Z.of_nat m)) in
  length h' = length h1
  /\ (forall s b, 0 <= s < Z.of_nat m -> 0 <= b < B ->
        rd h' (cidx s b) = wrap32 (rd outs (s * B + b) - rd outs (s * B))).
Proof.
  pose proof length_h0 as L0. destruct h1_spec as (L1 & _).
  induction m as [|m IH]; intros Hm; cbn zeta.
  - change (seqZ 0 (Z.of_nat 0)) with (@nil Z). cbn [foldl].
    split; [reflexivity|]. intros; lia.
  - rewrite seqZ_S, foldl_app. cbn [foldl]. rewrite Z.add_0_l.
    destruct IH as (IHl & IHc); [lia|].
    set (hp := foldl (offsets_slot B outs) h1 (seqZ 0 (Z.of_nat m))) in *.
    destruct (offsets_slot_spec hp (Z.of_nat m)) as (Ol & Ow & Of); [lia| |].
    { rewrite IHl, L1, L0. unfold cidx, CACHE_LINE_S. nia. }
    split; [rewrite Ol; exact IHl|].
    intros s b Hs Hb. destruct (decide (s = Z.of_nat m)) as [->|Hne'].
    + apply Ow. exact Hb.
    + rewrite Of.
      * apply IHc; lia.
      * unfold cidx, CACHE_LINE_S. nia.
      * intros b' Hb'. unfold cidx, CACHE_LINE_S. nia.
Qed.

Lemma h4_spec :
  length h4 = length h0
  /\ (forall s b, 0 <= s < T -> 0 <= b < B ->
        rd h4 (cidx s b) = cnt f s (seqZ 0 (Z.min (b * bs) k))).
Proof.
  destruct (h4_spec_gen (Z.to_nat T)) as (Hl & Hc); [lia|].
  rewrite Z2Nat.id in * by lia. destruct h1_spec as (L1 & _).
  split; [unfold h4; rewrite Hl; exact L1|].
  intros s b Hs Hb. unfold h4. rewrite Hc by lia. apply cursor0_spec; lia.
Qed.

Let st3 : buckets :=
  foldl (fun s i => set_num_elms (add64 (num_elms s) (num_inc i))
                      (set_slot i (resize (num_inc i) (slot s i)) s))
        st (seqZ 0 T).

Lemma entries_slots e : e ∈ entries f (seqZ 0 k) -> 0 <= fst e < T.
Proof.
  destruct e as [b v]. intros He. apply elem_of_entries in He as (j & Hj & E).
  apply elem_of_seqZ in Hj. cbn [fst].
  destruct (live_range _ _ _ _ E) as (Hb & _). split; [lia|].
  eapply Hval; [|exact E]. lia.
Qed.

Lemma st3_spec :
  same_frame st st3
  /\ num_elms st3 = wrap64 (num_elms st + Z.of_nat (length (entries f (seqZ 0 k))))
  /\ (forall s, 0 <= s < T ->
        slot st3 s = resize (cnt f s (seqZ 0 k)) (slot st s)).
Proof.
  destruct (foldl_slots
              (fun s i => set_num_elms (add64 (num_elms s) (num_inc i))
                            (set_slot i (resize (num_inc i) (slot s i)) s))
              (fun i a => resize (num_inc i) a)
              (fun i x => add64 x (num_inc i)) st (Z.to_nat T))
    as (Hf & Hn & Hs); [reflexivity|].
  rewrite Z2Nat.id in * by lia. fold st3 in Hf, Hn, Hs.
  split; [exact Hf|]. split.
  - rewrite Hn. rewrite foldl_add64 by exact Hne. f_equal. f_equal.
    rewrite <- (sum_length_sel (entries f (seqZ 0 k)) T) by apply entries_slots.
    f_equal. apply fmap_seqZ_ext. intros s Hs'. apply num_inc_spec. lia.
  - intros s Hs'. rewrite Hs by lia.
    destruct (Z.ltb_spec s T); [|lia]. rewrite num_inc_spec by lia. reflexivity.
Qed.

Lemma st3_room s :
  0 <= s < T ->
  wf_arr (slot st3 s)
  /\ size (slot st3 s) = size (slot st s)
  /\ size (slot st3 s) + cnt f s (seqZ 0 k) <= Z.of_nat (length (A (slot st3 s))).
Proof.
  intros Hs. destruct st3_spec as (_ & _ & H3). rewrite H3 by exact Hs.
  assert (Hw : wf_arr (slot st s)).
  { eapply Forall_lookup_1; [exact Hwf|]. apply slot_is_lookup. lia. }
  pose proof (Hsz s Hs) as Hb. pose proof (cnt_nonneg f s (seqZ 0 k)) as Hc.
  split; [apply wf_resize; exact Hw|]. split; [reflexivity|].
  change (size (resize ?d ?a)) with (size a).
  etransitivity; [|apply length_A_resize]; [lia|].
  destruct Hw. lia.
Qed.

(** The state of the scatter phase while block [i] is being written,
    the indices [done] having been processed. *)
Definition scat_inv (done : list Z) (i : Z) (acc : list Z * buckets) : Prop :=
  same_frame st3 (snd acc)
  /\ num_elms (snd acc) = num_elms st3
  /\ length (fst acc) = length h0
  /\ (forall s, 0 <= s < T ->
        slot (snd acc) s = overwrite (slot st3 s) (sel s (entries f done)))
  /\ (forall s, 0 <= s < T -> rd (fst acc) (cidx s i) = cnt f s done)
  /\ (forall s i', 0 <= s < T -> i < i' < B ->
        rd (fst acc) (cidx s i') = cnt f s (seqZ 0 (Z.min (i' * bs) k))).

Lemma cidx_range s b :
  0 <= s < T -> 0 <= b < B -> 0 <= cidx s b < Z.of_nat (length h0).
Proof.
  intros Hs Hb. rewrite length_h0. unfold cidx, CACHE_LINE_S. nia.
Qed.

Lemma cidx_inj s b s' b' :
  0 <= b < B -> 0 <= b' < B -> cidx s b = cidx s' b' -> s = s' /\ b = b'.
Proof.
  unfold cidx, CACHE_LINE_S. intros Hb Hb' E.
  assert (H : b + s * B = b' + s' * B) by lia.
  assert (Hs : s = s').
  { apply (f_equal (fun x => x / B)) in H.
    rewrite !Z.div_add, !(Z.div_small _ B) in H by lia. lia. }
  subst s'. split; [reflexivity|lia].
Qed.

Lemma scatter_steps (i : Z) (js : list Z) :
  0 <= i < B ->
  forall done acc,
    scat_inv done i acc ->
    (forall j, j ∈ js -> 0 <= j < k) ->
    (forall s, 0 <= s < T -> cnt f s (done ++ js) <= cnt f s (seqZ 0 k)) ->
    scat_inv (done ++ js) i (foldl (scatter_step f B i) acc js).
Proof.
  intros Hi. induction js as [|j js IH]; intros done [h s5] Hinv Hjs Hroom.
  - rewrite app_nil_r. exact Hinv.
  - cbn [foldl]. replace (done ++ j :: js) with ((done ++ [j]) ++ js)
      by (rewrite <- app_assoc; reflexivity).
    assert (Hroom' : forall s, 0 <= s < T ->
              cnt f s ((done ++ [j]) ++ js) <= cnt f s (seqZ 0 k)).
    { intros s Hs. rewrite <- app_assoc. apply Hroom. exact Hs. }
    apply IH; [|intros j' Hj'; apply Hjs; right; exact Hj'|exact Hroom'].
    destruct Hinv as (If & In & Il & Is & Ic & Id). cbn [fst snd] in *.
    rewrite scatter_step_live. unfold scat_inv.
    rewrite entries_snoc.
    destruct (live f j) as [[b v]|] eqn:E.
    + destruct (live_range _ _ _ _ E) as (Hb & _ & _).
      assert (HbT : b < T) by (eapply Hval; [apply Hjs; left|exact E]).
      cbn [fst snd]. cbv zeta. fold (cidx b i).
      pose proof (cidx_range b i ltac:(lia) Hi) as Hcr.
      assert (Hcnt : cnt f b (done ++ [j]) = cnt f b done + 1).
      { rewrite cnt_app, cnt_cons, E. cbn [fst]. rewrite Z.eqb_refl, cnt_nil. lia. }
      assert (Hle : cnt f b done + 1 <= cnt f b (seqZ 0 k)).
      { rewrite <- Hcnt. etransitivity; [|apply (Hroom' b); lia].
        rewrite (cnt_app f b (done ++ [j])).
        pose proof (cnt_nonneg f b js). lia. }
      destruct (st3_room b ltac:(lia)) as (Hw3 & Hs3 & Hr3).
      pose proof (Hsz b ltac:(lia)) as Hsb.
      assert (Hlenb : length (bkts s5) = length (bkts st3)) by apply If.
      assert (Hlen3 : length (bkts st3) = length (bkts st)) by apply st3_spec.
      split; [|split; [|split; [|split; [|split]]]].
      * eapply same_frame_trans; [exact If|apply same_frame_set_slot].
      * exact In.
      * rewrite length_wr. exact Il.
      * intros s Hs. destruct (decide (s = b)) as [->|Hsb'].
        -- rewrite slot_set_slot_eq by lia.
           rewrite Is, Ic by lia. unfold cnt.
           rewrite insert_overwrite.
           ++ rewrite sel_app. rewrite sel_cons_eq, sel_nil. reflexivity.
           ++ exact Hw3.
           ++ unfold cnt in *. lia.
           ++ unfold cnt in *. destruct Hw3. lia.
        -- rewrite slot_set_slot_ne by lia. rewrite Is by lia.
           rewrite sel_app, sel_cons_ne, sel_nil, app_nil_r by lia. reflexivity.
      * intros s Hs. destruct (decide (s = b)) as [->|Hsb'].
        -- rewrite rd_wr_eq by lia. rewrite Ic by lia.
           rewrite Hcnt. apply wrap32_small. pose proof (cnt_nonneg f b done).
           pose proof (cnt_prefix_bound b k ltac:(lia)). lia.
        -- rewrite rd_wr_ne.
           ++ rewrite Ic by lia. rewrite cnt_app, cnt_cons, E. cbn [fst].
              destruct (Z.eqb_spec b s); [lia|]. rewrite cnt_nil. lia.
           ++ lia.
           ++ apply cidx_range; lia.
           ++ intros Ec. apply cidx_inj in Ec; lia.
      * intros s i' Hs Hi'. rewrite rd_wr_ne.
        -- apply Id; lia.
        -- lia.
        -- apply cidx_range; lia.
        -- intros Ec. apply cidx_inj in Ec; lia.
    + rewrite app_nil_r. cbn [fst snd].
      split; [exact If|]. split; [exact In|]. split; [exact Il|].
      split; [exact Is|]. split; [|exact Id].
      intros s Hs. rewrite Ic by exact Hs.
      rewrite cnt_app, cnt_cons, E, cnt_nil. lia.
Qed.

Lemma scatter_blocks (m : nat) :
  Z.of_nat m <= B ->
  let acc := foldl (scatter_block f k B bs) (h4, st3) (seqZ 0 (Z.of_nat m)) in
  same_frame st3 (snd acc)
  /\ num_elms (snd acc) = num_elms st3
  /\ length (fst acc) = length h0
  /\ (forall s, 0 <= s < T ->
        slot (snd acc) s
        = overwrite (slot st3 s)
            (sel s (entries f (seqZ 0 (Z.min (Z.of_nat m * bs) k)))))
  /\ (forall s i', 0 <= s < T -> Z.of_nat m <= i' < B ->
        rd (fst acc) (cidx s i') = cnt f s (seqZ 0 (Z.min (i' * bs) k))).
Proof.
  induction m as [|m IH]; intros Hm; cbn zeta.
  - change (seqZ 0 (Z.of_nat 0)) with (@nil Z). cbn [foldl fst snd].
    split; [apply same_frame_refl|]. split; [reflexivity|].
    split; [apply h4_spec|]. split.
    + intros s Hs. change (Z.of_nat 0) with 0. rewrite Z.mul_0_l.
      replace (Z.min 0 k) with 0 by lia.
      change (seqZ 0 0) with (@nil Z). symmetry. apply overwrite_nil.
    + intros s i' Hs Hi'. apply h4_spec; lia.
  - rewrite seqZ_S, foldl_app. cbn [foldl]. rewrite Z.add_0_l.
    destruct IH as (If & In & Il & Is & Id); [lia|].
    set (acc := foldl (scatter_block f k B bs) (h4, st3) (seqZ 0 (Z.of_nat m))) in *.
    unfold scatter_block. cbv zeta. fold (blk (Z.of_nat m)).
    destruct (scatter_steps (Z.of_nat m) (blk (Z.of_nat m)) ltac:(lia)
                (seqZ 0 (Z.min (Z.of_nat m * bs) k)) acc)
      as (Jf & Jn & Jl & Js & _ & Jd).
    + split; [exact If|]. split; [exact In|]. split; [exact Il|].
      split; [exact Is|]. split.
      * intros s Hs. rewrite Id by lia. reflexivity.
      * intros s i' Hs Hi'. apply Id; lia.
    + intros j Hj. eapply elem_of_blk; [|exact Hj]. lia.
    + intros s Hs. rewrite seqZ_blk by lia. apply cnt_prefix_mono. lia.
    + rewrite seqZ_blk in Js by lia.
      replace (Z.of_nat (S m)) with (Z.of_nat m + 1) by lia.
      split; [exact Jf|]. split; [exact Jn|]. split; [exact Jl|].
      split; [exact Js|]. intros s i' Hs Hi'. apply Jd; lia.
Qed.

Hypothesis HTB : total_buckets st = T.

(** The blocked counting sort appends every entry of the batch to its
    slot. *)
Lemma update_buckets_blocks_closed :
  update_buckets_blocks f k B bs st
  = (sub64 (wrap64 (num_elms st + Z.of_nat (length (entries f (seqZ 0 k)))))
           (num_elms st),
     apply_entries (entries f (seqZ 0 k)) st).
Proof.
  unfold update_buckets_blocks. rewrite HTB.
  pose (step6 := fun s i =>
                   set_slot i {| A := A (slot s i);
                                 size := add64 (size (slot s i)) (num_inc i) |} s).
  transitivity
    (let st6 := foldl step6
                  (snd (foldl (scatter_block f k B bs) (h4, st3) (seqZ 0 B)))
                  (seqZ 0 T) in
     (sub64 (num_elms st6) (num_elms st), st6)); [reflexivity|].
  cbv zeta.
  destruct (scatter_blocks (Z.to_nat B)) as (Sf & Sn & _ & Ss & _); [lia|].
  rewrite Z2Nat.id in * by lia.
  set (st5 := snd (foldl (scatter_block f k B bs) (h4, st3) (seqZ 0 B))) in *.
  replace (Z.min (B * bs) k) with k in Ss by lia.
  destruct st3_spec as (Tf & Tn & Ts).
  destruct (foldl_slots step6
              (fun i a => {| A := A a; size := add64 (size a) (num_inc i) |})
              (fun _ x => x) st5 (Z.to_nat T))
    as (Cf & Cn & Cs).
  { intros s i. destruct s; reflexivity. }
  rewrite Z2Nat.id in * by lia.
  set (st6 := foldl step6 st5 (seqZ 0 T)) in *.
  rewrite foldl_const in Cn.
  assert (E : st6 = apply_entries (entries f (seqZ 0 k)) st).
  { apply buckets_ext.
    - eapply same_frame_trans; [apply same_frame_sym, same_frame_apply_entries|].
      eapply same_frame_trans; [exact Tf|].
      eapply same_frame_trans; [exact Sf|exact Cf].
    - rewrite Cn, Sn, Tn. reflexivity.
    - intros i Hi.
      assert (Hl : length (bkts (apply_entries (entries f (seqZ 0 k)) st))
                   = length (bkts st)) by apply same_frame_apply_entries.
      assert (Hl5 : length (bkts st5) = length (bkts st)).
      { transitivity (length (bkts st3)); [apply Sf|apply Tf]. }
      rewrite Hl in Hi. rewrite Cs by lia.
      destruct (Z.ltb_spec i T); [|lia].
      rewrite slot_apply_entries by lia.
      rewrite Ss, Ts by lia. rewrite num_inc_spec by lia.
      assert (Hw : wf_arr (slot st i)).
      { eapply Forall_lookup_1; [exact Hwf|]. apply slot_is_lookup. lia. }
      pose proof (Hsz i ltac:(lia)) as Hb. unfold cnt in *.
      apply resize_overwrite_commit; [exact Hw|]. destruct Hw. lia. }
  rewrite E. reflexivity.
Qed.

End CountingSort.

Lemma log2_up_blocks (k : Z) :
  0 <= k < 2 ^ 32 ->
  let num_blocks := wrap64 (Z.shiftl 1 (log2_up (k / 4096))) in
  let block_size := sub64 (add64 k num_blocks) 1 / num_blocks in
  1 <= num_blocks /\ 0 <= block_size /\ k <= num_blocks * block_size.
Proof.
  intros Hk. cbn zeta. unfold log2_up.
  assert (Hq : 0 <= k / 4096 < 2 ^ 20).
  { split; [apply Z.div_pos; lia|]. apply Z.div_lt_upper_bound; lia. }
  assert (Hl : 0 <= Z.log2_up (k / 4096) <= 20).
  { split; [apply Z.log2_up_nonneg|].
    destruct (Z.eq_dec (k / 4096) 0) as [E|E]; [rewrite E; cbn; lia|].
    apply Z.log2_up_le_pow2; lia. }
  rewrite Z.shiftl_1_l.
  assert (Hp : 1 <= 2 ^ Z.log2_up (k / 4096) <= 2 ^ 20).
  { split; [|apply Z.pow_le_mono_r; lia].
    pose proof (Z.pow_pos_nonneg 2 (Z.log2_up (k / 4096)) ltac:(lia) ltac:(lia)). lia. }
  set (nb := 2 ^ Z.log2_up (k / 4096)) in *.
  rewrite (wrap64_small nb) by lia.
  unfold add64, sub64. rewrite (wrap64_small (k + nb)) by lia.
  rewrite (wrap64_small (k + nb - 1)) by lia.
  split; [lia|]. split; [apply Z.div_pos; lia|].
  pose proof (Z.div_mod (k + nb - 1) nb ltac:(lia)) as Hdm.
  pose proof (Z.mod_pos_bound (k + nb - 1) nb ltac:(lia)) as Hmb.
  lia.
Qed.

(** ** [update_buckets] in closed form *)

(** Both paths of [update_buckets] append every entry of the batch to
    its slot. *)
Lemma update_buckets_par_closed f k st :
  Forall wf_arr (bkts st) ->
  0 <= num_elms st < 2 ^ 64 ->
  Z.of_nat (length (bkts st)) = total_buckets st ->
  0 <= k < 2 ^ 32 ->
  batch_ok f k st ->
  update_buckets_par f k st
  = (sub64 (wrap64 (num_elms st + Z.of_nat (length (entries f (seqZ 0 k)))))
           (num_elms st),
     apply_entries (entries f (seqZ 0 k)) st).
Proof.
  intros Hwf Hne Hlen Hk [Hb Hsz]. unfold update_buckets_par. cbv zeta.
  destruct (log2_up_blocks k Hk) as (H1 & H2 & H3).
  apply (update_buckets_blocks_closed f k (total_buckets st)); auto; try lia.
  - intros j b v Hj E. rewrite <- Hlen. eapply Hb; eauto.
  - intros s Hs. apply Hsz. lia.
Qed.

Lemma update_buckets_closed rt f k st :
  Forall wf_arr (bkts st) ->
  0 <= num_elms st < 2 ^ 64 ->
  Z.of_nat (length (bkts st)) = total_buckets st ->
  0 <= k < 2 ^ 32 ->
  batch_ok f k st ->
  update_buckets rt f k st
  = (sub64 (wrap64 (num_elms st + Z.of_nat (length (entries f (seqZ 0 k)))))
           (num_elms st),
     apply_entries (entries f (seqZ 0 k)) st).
Proof.
  intros Hwf Hne Hlen Hk Hok. unfold update_buckets.
  destruct (_ || _).
  - apply update_buckets_seq_closed; assumption.
  - apply update_buckets_par_closed; assumption.
Qed.

(** ** Well-formed structures *)

Lemma wf_slot st s :
  Forall wf_arr (bkts st) -> wf_arr (slot st s).
Proof.
  intros H. unfold slot. destruct (bkts st !! Z.to_nat s) as [a|] eqn:E; cbn.
  - eapply Forall_lookup_1; eauto.
  - unfold wf_arr. cbn. lia.
Qed.

Lemma sumZ_nonneg l : Forall (fun x => 0 <= x) l -> 0 <= sumZ l.
Proof. induction 1; [cbn; lia|]. rewrite sumZ_cons. lia. Qed.

Lemma sumZ_elem_le l x : Forall (fun y => 0 <= y) l -> x ∈ l -> x <= sumZ l.
Proof.
  induction 1 as [|y l Hy Hl IH]; intros Hx; [inversion Hx|].
  rewrite sumZ_cons. pose proof (sumZ_nonneg l Hl).
  apply elem_of_cons in Hx as [->|Hx]; [lia|]. specialize (IH Hx). lia.
Qed.

Lemma sizes_nonneg st :
  Forall wf_arr (bkts st) ->
  Forall (fun x => 0 <= x) ((fun s => size (slot st s)) <$> seqZ 0 (total_buckets st)).
Proof.
  intros H. apply Forall_fmap, Forall_forall. intros s _. cbn.
  apply (wf_slot st s H).
Qed.

Lemma total_size_nonneg st : Forall wf_arr (bkts st) -> 0 <= total_size st.
Proof. intros H. apply sumZ_nonneg, sizes_nonneg, H. Qed.

Lemma size_le_total st s :
  Forall wf_arr (bkts st) -> 0 <= s < total_buckets st ->
  0 <= size (slot st s) <= total_size st.
Proof.
  intros H Hs. split; [apply (wf_slot st s H)|].
  apply sumZ_elem_le; [apply sizes_nonneg, H|].
  apply (list_elem_of_fmap_2 (fun s => size (slot st s))). apply elem_of_seqZ. lia.
Qed.

Lemma total_size_zero st s :
  Forall wf_arr (bkts st) -> total_size st = 0 -> 0 <= s < total_buckets st ->
  size (slot st s) = 0.
Proof.
  intros H H0 Hs. pose proof (size_le_total st s H Hs). lia.
Qed.

Lemma to_range_slot st b :
  1 <= open_buckets st < 2 ^ 32 - 1 -> 0 <= b ->
  to_range st b = null_bkt \/ 0 <= to_range st b <= open_buckets st.
Proof.
  intros Ho Hb. unfold to_range.
  pose proof (Z.mod_pos_bound b (open_buckets st) ltac:(lia)) as Hm.
  destruct (order st).
  - destruct (b >=? _); [left; reflexivity|]. right.
    destruct (b >=? _).
    + unfold sub64. rewrite (wrap64_small (open_buckets st - _)) by lia.
      rewrite wrap64_small by lia. rewrite wrap32_small by lia. lia.
    + rewrite wrap32_small by lia. lia.
  - destruct (b <? _); [left; reflexivity|]. right.
    destruct (b <? _); rewrite wrap32_small by lia; lia.
Qed.

Lemma concat_fmap_app_perm {X} (g1 g2 : X -> list Z) (l : list X) :
  concat ((fun x => g1 x ++ g2 x) <$> l) ≡ₚ concat (g1 <$> l) ++ concat (g2 <$> l).
Proof.
  induction l as [|x l IH]; [reflexivity|].
  rewrite !fmap_cons. cbn [concat]. rewrite IH.
  rewrite <- !app_assoc. apply Permutation_app_head.
  rewrite !app_assoc. apply Permutation_app_tail. apply Permutation_app_comm.
Qed.

Lemma concat_fmap_nil {X} (g : X -> list Z) (l : list X) :
  (forall x, x ∈ l -> g x = []) -> concat (g <$> l) = [].
Proof.
  induction l as [|x l IH]; intros H; [reflexivity|].
  rewrite fmap_cons. cbn [concat]. rewrite IH.
  - rewrite H; [reflexivity|left].
  - intros y Hy. apply H. right. exact Hy.
Qed.

Lemma concat_indicator (b v T : Z) :
  0 <= b < T ->
  concat ((fun s => if b =? s then [v] else []) <$> seqZ 0 T) = [v].
Proof.
  intros Hb. replace T with (b + (1 + (T - b - 1))) by lia.
  rewrite seqZ_app by lia. rewrite seqZ_app by lia.
  rewrite !fmap_app, !concat_app.
  rewrite (concat_fmap_nil _ (seqZ 0 b)).
  2:{ intros s Hs. apply elem_of_seqZ in Hs. destruct (Z.eqb_spec b s); [lia|reflexivity]. }
  rewrite (concat_fmap_nil _ (seqZ (0 + b + 1) (T - b - 1))).
  2:{ intros s Hs. apply elem_of_seqZ in Hs. destruct (Z.eqb_spec b s); [lia|reflexivity]. }
  change (seqZ (0 + b) 1) with [0 + b]. rewrite Z.add_0_l.
  rewrite fmap_cons. cbn [concat fmap list_fmap app]. rewrite Z.eqb_refl. reflexivity.
Qed.

(** The entries, slot after slot, are the entries. *)
Lemma concat_sel_perm (es : list (Z * Z)) (T : Z) :
  (forall e, e ∈ es -> 0 <= fst e < T) ->
  concat ((fun s => sel s es) <$> seqZ 0 T) ≡ₚ snd <$> es.
Proof.
  induction es as [|[b v] es IH]; intros H.
  - rewrite concat_fmap_nil; [reflexivity|]. intros; reflexivity.
  - assert (Hb : 0 <= b < T) by (apply (H (b, v)); left).
    rewrite (list_fmap_ext _ (fun s => (if b =? s then [v] else []) ++ sel s es)).
    + rewrite concat_fmap_app_perm, concat_indicator by exact Hb.
      rewrite fmap_cons. cbn [snd app]. apply Permutation_cons; [reflexivity|].
      apply IH. intros e He. apply H. right. exact He.
    + intros i s _. destruct (Z.eqb_spec b s) as [->|Hne].
      * rewrite sel_cons_eq. reflexivity.
      * rewrite sel_cons_ne by exact Hne. reflexivity.
Qed.

Lemma total_size_apply_entries es st :
  Z.of_nat (length (bkts st)) = total_buckets st ->
  (forall e, e ∈ es -> 0 <= fst e < total_buckets st) ->
  total_size (apply_entries es st) = total_size st + Z.of_nat (length es).
Proof.
  intros Hlen Hes. unfold total_size.
  change (total_buckets (apply_entries es st)) with (total_buckets st).
  rewrite <- (sum_length_sel es (total_buckets st) Hes).
  rewrite <- sumZ_fmap_add. f_equal. apply fmap_seqZ_ext.
  intros s Hs. rewrite slot_apply_entries by lia. reflexivity.
Qed.

Lemma all_items_apply_entries es st :
  Z.of_nat (length (bkts st)) = total_buckets st ->
  Forall wf_arr (bkts st) ->
  (forall e, e ∈ es -> 0 <= fst e < total_buckets st) ->
  all_items (apply_entries es st) ≡ₚ all_items st ++ (snd <$> es).
Proof.
  intros Hlen Hwf Hes. unfold all_items.
  change (total_buckets (apply_entries es st)) with (total_buckets st).
  rewrite <- (concat_sel_perm es (total_buckets st) Hes).
  rewrite <- concat_fmap_app_perm.
  erewrite fmap_seqZ_ext; [reflexivity|].
  intros s Hs. cbn beta. rewrite slot_apply_entries by lia.
  apply items_append_items. apply wf_slot. exact Hwf.
Qed.

Lemma wf_st_apply_entries es st :
  wf_st st ->
  (forall e, e ∈ es -> 0 <= fst e < total_buckets st) ->
  total_size st + Z.of_nat (length es) < 2 ^ 31 ->
  wf_st (apply_entries es st).
Proof.
  intros [HT Hob Hlen Hwf Hne Hcap Hr] Hes Hroom.
  pose proof (total_size_nonneg st Hwf) as H0.
  constructor.
  - exact HT.
  - exact Hob.
  - unfold apply_entries. simpl_st. rewrite length_imap. exact Hlen.
  - unfold apply_entries. simpl_st. apply Forall_forall. intros a Ha.
    apply list_elem_of_lookup in Ha as [i Hi]. rewrite list_lookup_imap in Hi.
    destruct (bkts st !! i) as [a0|] eqn:E; [|discriminate]. cbn in Hi.
    injection Hi as <-. apply wf_append_items. eapply Forall_lookup_1; eauto.
  - rewrite total_size_apply_entries by assumption.
    unfold apply_entries. simpl_st. rewrite Hne. apply wrap64_small. lia.
  - rewrite total_size_apply_entries by assumption. exact Hroom.
  - exact Hr.
Qed.

Lemma batch_fits_entries f k st e :
  batch_fits f k st -> e ∈ entries f (seqZ 0 k) -> 0 <= fst e < total_buckets st.
Proof.
  intros (Hk & Hv & _) He. destruct e as [b v].
  apply elem_of_entries in He as (j & Hj & E). apply elem_of_seqZ in Hj.
  destruct (live_range _ _ _ _ E) as (Hb & _). cbn [fst]. split; [lia|].
  eapply Hv; [|exact E]. lia.
Qed.

(** Whatever the runtime, [update_buckets] appends the entries of the
    batch to their slots and returns their number. *)
Lemma update_buckets_fits rt f k st :
  wf_st st -> batch_fits f k st ->
  update_buckets rt f k st
  = (Z.of_nat (length (entries f (seqZ 0 k))), apply_entries (entries f (seqZ 0 k)) st).
Proof.
  intros Hwf Hfit. pose proof Hfit as (Hk & Hv & Hroom).
  destruct Hwf as [HT Hob Hlen Hwfs Hne Hcap Hr].
  pose proof (total_size_nonneg st Hwfs) as H0.
  rewrite update_buckets_closed.
  - f_equal. rewrite Hne. rewrite wrap64_small by lia.
    unfold sub64. rewrite wrap64_small by lia. lia.
  - exact Hwfs.
  - rewrite Hne. lia.
  - exact Hlen.
  - exact Hk.
  - split.
    + intros j b v Hj E. rewrite Hlen. eapply Hv; eauto.
    + intros s Hs. rewrite Hlen in Hs.
      pose proof (size_le_total st s Hwfs Hs).
      pose proof (length_sel_le s (entries f (seqZ 0 k))). lia.
Qed.

(** ** The steps of [next_bucket] *)

Lemma next_bucket_S rt d fuel st :
  next_bucket rt d (S fuel) st
  = if scan_cond st then
      match _next_bucket rt d st with
      | Done st1 => next_bucket rt d fuel st1
      | Abort m ne c => Abort m ne c
      | NoFuel => NoFuel
      end
    else if num_elms st =? 0 then Done (sentinel st, st)
    else get_cur_bucket rt d fuel st.
Proof. reflexivity. Qed.

Lemma get_cur_bucket_S rt d fuel st :
  get_cur_bucket rt d (S fuel) st
  = if Z.of_nat (length (cur_filtered d st)) =? 0
    then next_bucket rt d fuel (drain_cur st)
    else Done (cur_emit d st, drain_cur st).
Proof. reflexivity. Qed.

Lemma length_zero_iff_nil {X} (l : list X) :
  (Z.of_nat (length l) =? 0) = true <-> l = [].
Proof.
  split.
  - intros H. apply Z.eqb_eq in H. destruct l; [reflexivity|cbn [length] in H; lia].
  - intros ->. reflexivity.
Qed.

Lemma next_bucket_returns rt d fuel st b st' :
  next_bucket rt d fuel st = Done (b, st') -> returns rt d st b st'.
Proof.
  revert st. induction fuel as [fuel IH] using lt_wf_ind. intros st H.
  destruct fuel as [|fuel]; [discriminate|].
  rewrite next_bucket_S in H.
  destruct (scan_cond st) eqn:Ec.
  - destruct (_next_bucket rt d st) as [st1| |] eqn:En; try discriminate.
    eapply returns_skip; eauto.
  - destruct (Z.eqb_spec (num_elms st) 0) as [E0|E0].
    + injection H as <- <-. apply returns_exhausted; assumption.
    + destruct fuel as [|fuel]; [discriminate|].
      rewrite get_cur_bucket_S in H.
      destruct (Z.of_nat (length (cur_filtered d st)) =? 0) eqn:Ef.
      * apply length_zero_iff_nil in Ef. eapply returns_stale; eauto.
      * injection H as <- <-. apply returns_emit; try assumption.
        intros Hn. apply length_zero_iff_nil in Hn. congruence.
Qed.

Lemma returns_next_bucket rt d st b st' :
  returns rt d st b st' ->
  exists fuel0, forall fuel, (fuel0 <= fuel)%nat -> next_bucket rt d fuel st = Done (b, st').
Proof.
  induction 1 as [st st1 b st' Ec En _ [f0 IH] | st Ec E0
                 | st b st' Ec E0 Ef _ [f0 IH] | st Ec E0 Ef].
  - exists (S f0). intros fuel Hf. destruct fuel as [|fuel]; [lia|].
    rewrite next_bucket_S, Ec, En. apply IH. lia.
  - exists 1%nat. intros fuel Hf. destruct fuel as [|fuel]; [lia|].
    rewrite next_bucket_S, Ec, E0. reflexivity.
  - exists (S (S f0)). intros fuel Hf. destruct fuel as [|[|fuel]]; try lia.
    rewrite next_bucket_S, Ec. destruct (Z.eqb_spec (num_elms st) 0); [contradiction|].
    rewrite get_cur_bucket_S, Ef. cbn [length]. cbn. apply IH. lia.
  - exists 2%nat. intros fuel Hf. destruct fuel as [|[|fuel]]; try lia.
    rewrite next_bucket_S, Ec. destruct (Z.eqb_spec (num_elms st) 0); [contradiction|].
    rewrite get_cur_bucket_S.
    destruct (Z.of_nat (length (cur_filtered d st)) =? 0) eqn:E; [|reflexivity].
    apply length_zero_iff_nil in E. contradiction.
Qed.

(** An invariant of the steps of a call holds when it returns, and the
    call does not stop on the assertion. *)
Lemma next_bucket_invariant rt d (I : buckets -> Prop) :
  (forall st, I st -> scan_cond st = true ->
         exists st1, _next_bucket rt d st = Done st1 /\ I st1) ->
  (forall st, I st -> scan_cond st = false -> num_elms st <> 0 -> I (drain_cur st)) ->
  forall fuel st, I st ->
    next_bucket rt d fuel st = NoFuel
    \/ exists b st', next_bucket rt d fuel st = Done (b, st') /\ I st'.
Proof.
  intros Hskip Hdrain fuel. induction fuel as [fuel IH] using lt_wf_ind. intros st HI.
  destruct fuel as [|fuel]; [left; reflexivity|].
  rewrite next_bucket_S.
  destruct (scan_cond st) eqn:Ec.
  - destruct (Hskip st HI Ec) as (st1 & En & HI1). rewrite En. apply IH; [lia|exact HI1].
  - destruct (Z.eqb_spec (num_elms st) 0) as [E0|E0]; [right; eauto|].
    destruct fuel as [|fuel]; [left; reflexivity|].
    rewrite get_cur_bucket_S.
    destruct (Z.of_nat (length (cur_filtered d st)) =? 0).
    + apply IH; [lia|]. apply Hdrain; assumption.
    + right. do 2 eexists. split; [reflexivity|]. apply Hdrain; assumption.
Qed.

(** A call that returns either finds no entry left and returns the
    sentinel, or returns what the filter keeps of the current slot of
    some state [st_e] that it reached. *)
Lemma returns_cases rt d st b st' :
  returns rt d st b st' ->
  (b = sentinel st' /\ num_elms st' = 0 /\ scans rt d st st')
  \/ (exists st_e, scans rt d st st_e /\ num_elms st_e <> 0
                   /\ cur_filtered d st_e <> []
                   /\ b = cur_emit d st_e /\ st' = drain_cur st_e).
Proof.
  induction 1 as [st st1 b st' Ec En _ IH | st Ec E0
                 | st b st' Ec E0 Ef _ IH | st Ec E0 Ef].
  - destruct IH as [(Hb & H0 & Hs)|(st_e & Hs & H)].
    + left. split; [exact Hb|]. split; [exact H0|]. eapply scans_skip; eauto.
    + right. exists st_e. split; [eapply scans_skip; eauto|exact H].
  - left. split; [reflexivity|]. split; [exact E0|]. apply scans_here.
  - destruct IH as [(Hb & H0 & Hs)|(st_e & Hs & H)].
    + left. split; [exact Hb|]. split; [exact H0|]. eapply scans_stale; eauto.
    + right. exists st_e. split; [eapply scans_stale; eauto|exact H].
  - right. exists st. split; [apply scans_here|]. tauto.
Qed.

(** C3. Whenever [next_bucket] returns a bucket other than the sentinel,
    every identifier of the returned set is mapped by [D] to the returned
    bucket number, and the returned [num_filtered] is the size that the
    drained slot had before the filter: the bucket is what
    [get_cur_bucket] builds from the current slot of the state [st_e]
    that the call had reached, and the call leaves that state with the
    slot drained. *)
Theorem next_bucket_emits_filtered rt d fuel st b st' :
  next_bucket rt d fuel st = Done (b, st') ->
  id b <> null_bkt ->
  (forall i, i ∈ vs_s (identifiers b) -> ask d i = id b)
  /\ exists st_e,
       scans rt d st st_e
       /\ id b = get_cur_bucket_num st_e
       /\ vs_s (identifiers b)
          = List.filter (fun i => ask d i =? id b) (items (slot st_e (cur_bkt st_e)))
       /\ num_filtered b = Some (size (slot st_e (cur_bkt st_e)))
       /\ st' = drain_cur st_e.
Proof.
  intros H Hid. apply next_bucket_returns, returns_cases in H.
  destruct H as [(Hb & _)|(st_e & Hs & _ & _ & Hb & Hst)].
  - subst b. cbn in Hid. contradiction.
  - subst b. cbn [id cur_emit identifiers vs_s num_filtered]. split.
    + intros i Hi. unfold cur_filtered in Hi.
      apply list_elem_of_In, List.filter_In in Hi as [_ Hi].
      apply Z.eqb_eq in Hi. exact Hi.
    + exists st_e. repeat split; auto.
Qed.

Lemma next_bucket_emits_filtered_witness :
  let rt := mk_runtime 1 2048 in
  let st := make_buckets rt 2 (oracle_of_list [1; 1]) increasing 128 in
  let d := oracle_of_list [2; 1] in
  exists b st',
    next_bucket rt d 4 st = Done (b, st')
    /\ id b = 1 /\ vs_s (identifiers b) = [1] /\ num_filtered b = Some 2
    /\ forall i, i ∈ vs_s (identifiers b) -> ask d i = id b.
Proof.
  cbn zeta.
  destruct (next_bucket (mk_runtime 1 2048) (oracle_of_list [2; 1]) 4
              (make_buckets (mk_runtime 1 2048) 2 (oracle_of_list [1; 1]) increasing 128))
    as [[b st']| |] eqn:E; try (vm_compute in E; discriminate).
  exists b, st'.
  destruct (next_bucket_emits_filtered _ _ _ _ _ _ E) as (Hf & _).
  - vm_compute in E. injection E as <- _. vm_compute. discriminate.
  - split; [reflexivity|]. vm_compute in E. injection E as <- _.
    split; [reflexivity|]. split; [reflexivity|]. split; [reflexivity|]. exact Hf.
Defined.

(** ** The frame of the operations *)

Lemma update_seq_step_frame f st j : same_frame st (update_seq_step f st j).
Proof.
  unfold update_seq_step. destruct (f j) as [p|]; [|apply same_frame_refl].
  destruct (negb _); [|apply same_frame_refl].
  eapply same_frame_trans; [apply same_frame_set_slot|].
  eapply same_frame_trans; [|apply same_frame_set_num_elms].
  unfold insert_in_bucket. apply same_frame_set_slot.
Qed.

Lemma foldl_frame {X} (step : buckets -> X -> buckets) (l : list X) st :
  (forall s x, same_frame s (step s x)) -> same_frame st (foldl step st l).
Proof.
  intros H. revert st. induction l as [|x l IH]; intros st; [apply same_frame_refl|].
  cbn [foldl]. eapply same_frame_trans; [apply H|apply IH].
Qed.

Lemma scatter_step_frame f nb i acc j :
  same_frame (snd acc) (snd (scatter_step f nb i acc j)).
Proof.
  destruct acc as [h st]. rewrite scatter_step_live.
  destruct (live f j); cbn [snd]; [apply same_frame_set_slot|apply same_frame_refl].
Qed.

Lemma foldl_snd_frame {X} (step : list Z * buckets -> X -> list Z * buckets)
    (l : list X) acc :
  (forall a x, same_frame (snd a) (snd (step a x))) ->
  same_frame (snd acc) (snd (foldl step acc l)).
Proof.
  intros H. revert acc. induction l as [|x l IH]; intros acc; [apply same_frame_refl|].
  cbn [foldl]. eapply same_frame_trans; [apply H|apply IH].
Qed.

Lemma update_buckets_frame rt f k st : same_frame st (snd (update_buckets rt f k st)).
Proof.
  unfold update_buckets. destruct (_ || _).
  - unfold update_buckets_seq. cbn [snd]. apply foldl_frame. apply update_seq_step_frame.
  - unfold update_buckets_par, update_buckets_blocks. cbv zeta. cbn [snd].
    eapply same_frame_trans; [|apply foldl_frame; intros; apply same_frame_set_slot].
    eapply same_frame_trans.
    2:{ apply (foldl_snd_frame (scatter_block f k _ _)). intros a x.
        unfold scatter_block. apply foldl_snd_frame. apply scatter_step_frame. }
    cbn [snd]. apply foldl_frame. intros s x.
    eapply same_frame_trans; [apply same_frame_set_slot|apply same_frame_set_num_elms].
Qed.

Lemma unpack_eq rt d st :
  unpack rt d st
  = if negb (size (slot st (open_buckets st)) =? num_elms st) then
      Abort (size (slot st (open_buckets st))) (num_elms st)
            (get_cur_bucket_num (set_cur_bkt 0 (emptied_overflow st)))
    else
      let r := update_buckets rt (unpack_batch d st) (size (slot st (open_buckets st)))
                 (emptied_overflow st) in
      Done (set_num_elms (sub64 (num_elms (snd r)) (size (slot st (open_buckets st))))
              (snd r)).
Proof.
  unfold unpack, unpack_batch, emptied_overflow, advance. cbv zeta.
  destruct (order st); simpl_st;
    (destruct (negb _); [reflexivity|]);
    destruct (update_buckets rt _ _ _); reflexivity.
Qed.

Lemma advance_frame st :
  n (advance st) = n st /\ order (advance st) = order st
  /\ open_buckets (advance st) = open_buckets st
  /\ total_buckets (advance st) = total_buckets st
  /\ bkts (advance st) = bkts st /\ num_elms (advance st) = num_elms st
  /\ cur_bkt (advance st) = cur_bkt st.
Proof. unfold advance. destruct (order st) eqn:E; cbn; rewrite ?E; tauto. Qed.

Lemma unpack_n rt d st st' : unpack rt d st = Done st' -> n st' = n st.
Proof.
  rewrite unpack_eq. destruct (negb _); [discriminate|]. cbv zeta.
  intros [= <-]. simpl_st.
  pose proof (update_buckets_frame rt (unpack_batch d st)
                (size (slot st (open_buckets st))) (emptied_overflow st)) as F.
  destruct F as (_ & _ & _ & _ & Hn & _). rewrite Hn.
  unfold emptied_overflow. simpl_st. apply advance_frame.
Qed.

Lemma _next_bucket_n rt d st st' : _next_bucket rt d st = Done st' -> n st' = n st.
Proof.
  unfold _next_bucket. destruct (_ =? _).
  - destruct (unpack rt d _) as [st2| |] eqn:E; try discriminate.
    intros [= <-]. simpl_st. apply unpack_n in E. exact E.
  - intros [= <-]. reflexivity.
Qed.

Lemma scans_n rt d st st' : scans rt d st st' -> n st' = n st.
Proof.
  induction 1 as [st | st st1 st2 _ En _ IH | st st2 _ _ _ _ IH]; [reflexivity| |].
  - rewrite IH. eapply _next_bucket_n; eauto.
  - rewrite IH. reflexivity.
Qed.

(** ** Exhaustion *)

(** C9, as the code has it. [next_bucket] returns the sentinel, with an
    empty set, at once when [num_elms] is 0 on entry. In general it
    returns either the sentinel with an empty set, and then [num_elms] is
    0 when it returns, or a non-empty set drawn from a state it reached
    in which [num_elms] was not 0; so the sentinel stands for [num_elms]
    being 0 at the last test of the call, after empty slots were skipped
    and slots of stale entries dropped, not on entry. The returned set is
    valid in every case. *)
Theorem next_bucket_sentinel rt d :
  (forall st fuel, num_elms st = 0 ->
     next_bucket rt d (S fuel) st = Done (sentinel st, st)
     /\ id (sentinel st) = null_bkt /\ vs_s (identifiers (sentinel st)) = [])
  /\ (forall st fuel b st',
        next_bucket rt d fuel st = Done (b, st') ->
        valid_subset st' (identifiers b)
        /\ ((b = sentinel st' /\ num_elms st' = 0)
            \/ (vs_s (identifiers b) <> []
                /\ exists st_e, scans rt d st st_e /\ num_elms st_e <> 0
                                /\ b = cur_emit d st_e /\ st' = drain_cur st_e))).
Proof.
  split.
  - intros st fuel H0. split; [|split; reflexivity].
    rewrite next_bucket_S. unfold scan_cond. rewrite H0.
    rewrite andb_false_r. reflexivity.
  - intros st fuel b st' H. apply next_bucket_returns, returns_cases in H.
    destruct H as [(Hb & H0 & Hs)|(st_e & Hs & Hne & Hf & Hb & Hst)].
    + split; [subst b; split; reflexivity|]. left. tauto.
    + split.
      * subst b st'. split; reflexivity.
      * right. split; [subst b; exact Hf|]. exists st_e. tauto.
Qed.

(** The sentinel is tied to [num_elms] being 0 neither on entry nor on
    return: a structure that holds one entry, stale under the present
    oracle, returns the sentinel; and the call that returns the last
    identifier leaves [num_elms] at 0 and returns bucket 0. *)
Lemma next_bucket_sentinel_counterexample :
  let rt := mk_runtime 1 2048 in
  let st := make_buckets rt 1 (oracle_of_list [0]) increasing 2 in
  num_elms st = 1
  /\ (exists st', next_bucket rt (oracle_of_list [7]) 3 st = Done (sentinel st, st')
                  /\ id (sentinel st) = null_bkt)
  /\ (exists b st', next_bucket rt (oracle_of_list [0]) 3 st = Done (b, st')
                    /\ id b = 0 /\ vs_s (identifiers b) = [0] /\ num_elms st' = 0).
Proof.
  cbn zeta. split; [reflexivity|]. split.
  - eexists. split; [vm_compute; reflexivity|reflexivity].
  - do 2 eexists. split; [vm_compute; reflexivity|]. repeat split.
Qed.

(** ** Slot updates and the totals *)

Lemma sum_indicator_c (b T c : Z) :
  0 <= b < T -> sumZ ((fun s => if b =? s then c else 0) <$> seqZ 0 T) = c.
Proof.
  intros Hb. replace T with (b + (1 + (T - b - 1))) by lia.
  rewrite seqZ_app by lia. rewrite seqZ_app by lia.
  rewrite !fmap_app, !sumZ_app.
  rewrite (sumZ_fmap_zero _ (seqZ 0 b)).
  2:{ intros s Hs. apply elem_of_seqZ in Hs. destruct (Z.eqb_spec b s); [lia|reflexivity]. }
  rewrite (sumZ_fmap_zero _ (seqZ (0 + b + 1) (T - b - 1))).
  2:{ intros s Hs. apply elem_of_seqZ in Hs. destruct (Z.eqb_spec b s); [lia|reflexivity]. }
  change (seqZ (0 + b) 1) with [0 + b]. rewrite Z.add_0_l.
  rewrite fmap_cons, sumZ_cons, Z.eqb_refl. cbn. lia.
Qed.

Lemma total_size_set_slot b a st :
  Z.of_nat (length (bkts st)) = total_buckets st -> 0 <= b < total_buckets st ->
  total_size (set_slot b a st) = total_size st - size (slot st b) + size a.
Proof.
  intros Hlen Hb. unfold total_size.
  change (total_buckets (set_slot b a st)) with (total_buckets st).
  transitivity
    (sumZ ((fun s => size (slot st s)
                     + (if b =? s then size a - size (slot st b) else 0))
             <$> seqZ 0 (total_buckets st))).
  - f_equal. apply fmap_seqZ_ext. intros s Hs.
    destruct (Z.eqb_spec b s) as [<-|Hne].
    + rewrite slot_set_slot_eq by lia. lia.
    + rewrite slot_set_slot_ne by lia. lia.
  - rewrite sumZ_fmap_add, sum_indicator_c by exact Hb. lia.
Qed.

Lemma all_items_empty st :
  (forall s, 0 <= s < total_buckets st -> size (slot st s) = 0) -> all_items st = [].
Proof.
  intros H. unfold all_items. apply concat_fmap_nil. intros s Hs.
  apply elem_of_seqZ in Hs. unfold items. rewrite H by lia. reflexivity.
Qed.

Lemma length_items a : wf_arr a -> Z.of_nat (length (items a)) = size a.
Proof. intros [H0 H1]. unfold items. rewrite length_take. lia. Qed.

Lemma items_nil a : size a = 0 -> items a = [].
Proof. intros H. unfold items. rewrite H. reflexivity. Qed.

Lemma wf_set_slot b a st :
  Forall wf_arr (bkts st) -> wf_arr a -> Forall wf_arr (bkts (set_slot b a st)).
Proof.
  intros H Ha. unfold set_slot. simpl_st.
  destruct (decide (Z.to_nat b < length (bkts st))%nat).
  - apply Forall_insert; assumption.
  - rewrite list_insert_ge by lia. exact H.
Qed.

(** ** Range arithmetic without wrap-around *)

Lemma to_range_range st b : 0 <= to_range st b < 2 ^ 32.
Proof.
  unfold to_range.
  destruct (order st); repeat destruct (_ : bool);
    first [apply wrap32_range | unfold null_bkt; lia].
Qed.

Lemma to_range_increasing st b :
  order st = increasing ->
  1 <= open_buckets st < 2 ^ 32 - 1 -> 0 <= cur_range st ->
  cur_range st * open_buckets st <= null_bkt + open_buckets st ->
  0 <= b ->
  to_range st b
  = if b <? cur_range st * open_buckets st then null_bkt
    else if b <? (cur_range st + 1) * open_buckets st then b mod open_buckets st
         else open_buckets st.
Proof.
  intros Ho HO Hr Hb' Hb. unfold to_range. rewrite Ho.
  assert (Hn : null_bkt = 2 ^ 32 - 1) by reflexivity.
  pose proof (Z.mod_pos_bound b (open_buckets st) ltac:(lia)) as Hm.
  assert (Hr1 : cur_range st < 2 ^ 33) by nia.
  unfold mul64, add64. rewrite (wrap64_small (cur_range st + 1)) by lia.
  rewrite !wrap64_small by nia. rewrite !wrap32_small by lia. reflexivity.
Qed.

Lemma to_range_decreasing st b :
  order st = decreasing ->
  1 <= open_buckets st < 2 ^ 32 - 1 -> 1 <= cur_range st <= 2 ^ 32 ->
  0 <= b ->
  to_range st b
  = if b >=? cur_range st * open_buckets st then null_bkt
    else if b >=? (cur_range st - 1) * open_buckets st
         then open_buckets st - b mod open_buckets st - 1
         else open_buckets st.
Proof.
  intros Ho HO Hr Hb. unfold to_range. rewrite Ho.
  pose proof (Z.mod_pos_bound b (open_buckets st) ltac:(lia)) as Hm.
  unfold mul64, sub64. rewrite (wrap64_small (cur_range st - 1)) by lia.
  rewrite (wrap64_small (cur_range st * _)) by nia.
  rewrite (wrap64_small ((cur_range st - 1) * _)) by nia.
  rewrite (wrap64_small (open_buckets st - _)) by lia.
  rewrite (wrap64_small (open_buckets st - _ - 1)) by lia.
  rewrite !wrap32_small by lia. reflexivity.
Qed.

Lemma to_range_decreasing_zero st b :
  order st = decreasing -> cur_range st = 0 -> 0 <= b -> to_range st b = null_bkt.
Proof.
  intros Ho Hr Hb. unfold to_range. rewrite Ho, Hr. unfold mul64.
  rewrite Z.mul_0_l. unfold wrap64. rewrite Z.mod_0_l by lia.
  destruct (Z.geb_spec b 0); [reflexivity|lia].
Qed.

Lemma div_mod_window b r O s :
  0 < O -> r * O <= b < (r + 1) * O -> b mod O = s -> b = r * O + s.
Proof.
  intros HO Hb Hs. assert (E : b / O = r).
  { symmetry. apply (Z.div_unique b O r (b - r * O)); lia. }
  pose proof (Z.div_mod b O ltac:(lia)) as H. rewrite E, Hs in H. lia.
Qed.

Lemma mod_window r O s : 0 <= s < O -> (r * O + s) mod O = s.
Proof.
  intros Hs. rewrite Z.add_comm, Z.mod_add by lia. apply Z.mod_small. lia.
Qed.

(** ** Unpacking a well-formed structure *)

Lemma fmap_rd_seqZ (l : list Z) : (fun i => rd l i) <$> seqZ 0 (Z.of_nat (length l)) = l.
Proof.
  apply list_eq. intros i. rewrite list_lookup_fmap.
  destruct (decide (i < length l)%nat) as [Hlt|Hge].
  - rewrite lookup_seqZ_lt by lia. cbn. unfold rd. rewrite Z.add_0_l, Nat2Z.id.
    destruct (lookup_lt_is_Some_2 l i Hlt) as [x Hx]. rewrite Hx. reflexivity.
  - rewrite lookup_seqZ_ge by lia. rewrite lookup_ge_None_2 by lia. reflexivity.
Qed.

Lemma omap_fmap_compose {X Y W} (g : Y -> option W) (h : X -> Y) (l : list X) :
  omap g (h <$> l) = omap (fun x => g (h x)) l.
Proof.
  induction l as [|x l IH]; [reflexivity|].
  rewrite fmap_cons. cbn. rewrite IH. reflexivity.
Qed.

Lemma omap_seqZ_ext {X} (g1 g2 : Z -> option X) m len :
  (forall j, m <= j < m + len -> g1 j = g2 j) -> omap g1 (seqZ m len) = omap g2 (seqZ m len).
Proof.
  intros H. apply list_omap_ext. apply Forall2_same_length_lookup_2; [reflexivity|].
  intros i x y Hx Hy. rewrite Hx in Hy. injection Hy as <-.
  apply lookup_seqZ in Hx as [-> Hi]. apply H. lia.
Qed.

Lemma length_omap_le {X Y} (g : X -> option Y) (l : list X) :
  (length (omap g l) <= length l)%nat.
Proof.
  induction l as [|x l IH]; [cbn; lia|]. cbn. destruct (g x); cbn; lia.
Qed.

Lemma entries_unpack_batch d st :
  wf_arr (slot st (open_buckets st)) -> size (slot st (open_buckets st)) < 2 ^ 32 ->
  entries (unpack_batch d st) (seqZ 0 (size (slot st (open_buckets st))))
  = unpack_entries d st.
Proof.
  intros Hwf Hlt. unfold entries, unpack_entries.
  rewrite <- (fmap_rd_seqZ (items (slot st (open_buckets st)))) at 1.
  rewrite omap_fmap_compose. rewrite length_items by exact Hwf.
  apply omap_seqZ_ext. intros j Hj.
  unfold live, unpack_batch, reclass. cbv zeta. unfold get0, get1. cbn [fst snd].
  rewrite (wrap32_small j) by lia.
  rewrite (wrap32_small (to_range _ _)) by apply to_range_range.
  reflexivity.
Qed.

Lemma reclass_slot d st2 v e :
  1 <= open_buckets st2 < 2 ^ 32 - 1 -> reclass d st2 v = Some e ->
  0 <= fst e <= open_buckets st2 /\ fst e = to_range st2 (ask d v) /\ snd e = wrap32 v.
Proof.
  intros HO. unfold reclass. cbv zeta.
  destruct (Z.eqb_spec (to_range st2 (ask d v)) null_bkt) as [|Hne]; [discriminate|].
  intros [= <-]. cbn [fst snd].
  destruct (to_range_slot st2 (ask d v) HO) as [?|?]; [apply ask_range|contradiction|].
  tauto.
Qed.

Lemma emptied_overflow_frame st :
  order (emptied_overflow st) = order st
  /\ open_buckets (emptied_overflow st) = open_buckets st
  /\ total_buckets (emptied_overflow st) = total_buckets st
  /\ num_elms (emptied_overflow st) = num_elms st
  /\ cur_bkt (emptied_overflow st) = cur_bkt st
  /\ n (emptied_overflow st) = n st
  /\ cur_range (emptied_overflow st) = cur_range (advance st)
  /\ length (bkts (emptied_overflow st)) = length (bkts st).
Proof.
  pose proof (advance_frame st) as (H1 & H2 & H3 & H4 & H5 & H6 & H7).
  unfold emptied_overflow. simpl_st. rewrite length_insert, H5. tauto.
Qed.

Lemma slot_emptied_overflow st s :
  0 <= open_buckets st < Z.of_nat (length (bkts st)) -> 0 <= s ->
  slot (emptied_overflow st) s
  = if s =? open_buckets st
    then {| A := A (slot st (open_buckets st)); size := 0 |}
    else slot st s.
Proof.
  intros HO Hs. pose proof (advance_frame st) as (_ & _ & H3 & _ & H5 & _).
  assert (E : forall x, slot (advance st) x = slot st x).
  { intros x. unfold slot. rewrite H5. reflexivity. }
  unfold emptied_overflow. rewrite E.
  destruct (Z.eqb_spec s (open_buckets st)) as [->|Hne].
  - rewrite slot_set_slot_eq; [reflexivity|]. rewrite H5. lia.
  - rewrite slot_set_slot_ne by lia. apply E.
Qed.

Lemma wf_emptied_overflow st :
  Forall wf_arr (bkts st) -> Forall wf_arr (bkts (emptied_overflow st)).
Proof.
  intros H. pose proof (advance_frame st) as (_ & _ & _ & _ & H5 & _).
  unfold emptied_overflow. apply wf_set_slot.
  - rewrite H5. exact H.
  - unfold wf_arr. simpl_st. lia.
Qed.

Lemma total_size_emptied_overflow st :
  Z.of_nat (length (bkts st)) = total_buckets st ->
  0 <= open_buckets st < total_buckets st ->
  total_size (emptied_overflow st) = total_size st - size (slot st (open_buckets st)).
Proof.
  intros Hlen HO. pose proof (advance_frame st) as (_ & _ & H3 & H4 & H5 & _).
  unfold emptied_overflow.
  rewrite total_size_set_slot; rewrite ?H5, ?H4; try lia.
  simpl_st. unfold total_size, slot. rewrite H4, H5. lia.
Qed.

(** [unpack] on a well-formed structure whose overflow slot holds every
    entry: the overflow identifiers are put where the oracle now sends
    them. *)
Lemma unpack_done rt d st :
  wf_st st -> size (slot st (open_buckets st)) = num_elms st ->
  unpack rt d st = Done (unpack_result d st).
Proof.
  intros [HT Hob Hlen Hwf Hne Hcap Hr] Hm.
  pose proof (total_size_nonneg st Hwf) as H0.
  pose proof (emptied_overflow_frame st) as (F1 & F2 & F3 & F4 & F5 & F6 & F7 & F8).
  assert (Hwo : wf_arr (slot st (open_buckets st))) by (apply wf_slot; exact Hwf).
  assert (Ht2 : total_size (emptied_overflow st) = 0).
  { rewrite total_size_emptied_overflow by lia. lia. }
  pose proof (length_omap_le (reclass d (emptied_overflow st))
                (items (slot st (open_buckets st)))) as Hle.
  fold (unpack_entries d st) in Hle.
  pose proof (length_items _ Hwo) as Hli.
  rewrite unpack_eq. rewrite Hm, Z.eqb_refl. cbn [negb]. cbv zeta.
  rewrite <- Hm.
  rewrite update_buckets_closed.
  - cbn [snd]. rewrite entries_unpack_batch by (auto; lia).
    unfold unpack_result. f_equal.
    unfold apply_entries. simpl_st. rewrite F4.
    unfold set_num_elms. simpl_st. f_equal.
    unfold sub64. rewrite (wrap64_small (num_elms st + _)) by lia.
    rewrite wrap64_small by lia. lia.
  - apply wf_emptied_overflow. exact Hwf.
  - rewrite F4. lia.
  - rewrite F8, F3. exact Hlen.
  - lia.
  - split.
    + intros j b v Hj E.
      assert (He : (b, v) ∈ entries (unpack_batch d st)
                              (seqZ 0 (size (slot st (open_buckets st))))).
      { apply list_elem_of_omap. exists j. split; [apply elem_of_seqZ; lia|exact E]. }
      rewrite entries_unpack_batch in He by (auto; lia).
      apply list_elem_of_omap in He as (v0 & _ & Hv0).
      apply reclass_slot in Hv0; [|rewrite F2; lia]. cbn [fst] in Hv0.
      rewrite F8, F2 in *. lia.
    + intros s Hs. rewrite F8 in Hs.
      rewrite entries_unpack_batch by (auto; lia).
      pose proof (size_le_total (emptied_overflow st) s
                    (wf_emptied_overflow st Hwf) ltac:(rewrite F3; lia)).
      pose proof (length_sel_le s (unpack_entries d st)). lia.
Qed.

Lemma unpack_entries_slots d st e :
  1 <= open_buckets st < 2 ^ 32 - 1 -> open_buckets st < total_buckets st ->
  e ∈ unpack_entries d st -> 0 <= fst e < total_buckets (emptied_overflow st).
Proof.
  intros HO HT He. pose proof (emptied_overflow_frame st) as (_ & F2 & F3 & _).
  apply list_elem_of_omap in He as (v & _ & Hv).
  apply reclass_slot in Hv; [|rewrite F2; lia]. rewrite F2, F3 in *. lia.
Qed.

Lemma wf_unpack_result d st :
  wf_st st -> size (slot st (open_buckets st)) = num_elms st ->
  wf_st (unpack_result d st)
  /\ total_size (unpack_result d st) = Z.of_nat (length (unpack_entries d st)).
Proof.
  intros [HT Hob Hlen Hwf Hne Hcap Hr] Hm.
  pose proof (total_size_nonneg st Hwf) as H0.
  pose proof (emptied_overflow_frame st) as (F1 & F2 & F3 & F4 & F5 & F6 & F7 & F8).
  assert (Hwo : wf_arr (slot st (open_buckets st))) by (apply wf_slot; exact Hwf).
  assert (Ht2 : total_size (emptied_overflow st) = 0).
  { rewrite total_size_emptied_overflow by lia. lia. }
  pose proof (length_omap_le (reclass d (emptied_overflow st))
                (items (slot st (open_buckets st)))) as Hle.
  fold (unpack_entries d st) in Hle.
  pose proof (length_items _ Hwo) as Hli.
  assert (Hsl : forall e, e ∈ unpack_entries d st ->
                 0 <= fst e < total_buckets (emptied_overflow st)).
  { intros e. apply unpack_entries_slots; lia. }
  assert (Hts : total_size (unpack_result d st)
                = Z.of_nat (length (unpack_entries d st))).
  { unfold unpack_result.
    change (total_size (set_num_elms ?x ?s)) with (total_size s).
    rewrite total_size_apply_entries; [lia| |exact Hsl].
    rewrite F8, F3. exact Hlen. }
  split; [|exact Hts]. constructor.
  - unfold unpack_result, apply_entries. simpl_st. rewrite F3. exact HT.
  - unfold unpack_result, apply_entries. simpl_st. rewrite F2, F3. exact Hob.
  - unfold unpack_result, apply_entries. simpl_st. rewrite length_imap, F8, F3. exact Hlen.
  - unfold unpack_result. change (bkts (set_num_elms ?x ?s)) with (bkts s).
    apply Forall_forall. intros a Ha. unfold apply_entries in Ha. simpl_st.
    apply list_elem_of_lookup in Ha as [i Hi]. rewrite list_lookup_imap in Hi.
    destruct (bkts (emptied_overflow st) !! i) as [a0|] eqn:E; [|discriminate].
    cbn in Hi. injection Hi as <-. apply wf_append_items.
    eapply Forall_lookup_1; [apply wf_emptied_overflow; exact Hwf|exact E].
  - rewrite Hts. reflexivity.
  - rewrite Hts. lia.
  - unfold unpack_result, apply_entries. simpl_st. rewrite F7.
    unfold advance. destruct (order st); simpl_st; apply wrap64_range.
Qed.

(** ** The steps on a well-formed structure *)

Lemma _next_bucket_eq rt d st :
  0 <= cur_bkt st < open_buckets st -> open_buckets st < 2 ^ 32 ->
  _next_bucket rt d st
  = if cur_bkt st + 1 =? open_buckets st then
      match unpack rt d (set_cur_bkt (cur_bkt st + 1) st) with
      | Done st2 => Done (set_cur_bkt 0 st2)
      | Abort m ne c => Abort m ne c
      | NoFuel => NoFuel
      end
    else Done (set_cur_bkt (cur_bkt st + 1) st).
Proof.
  intros Hc HO. unfold _next_bucket. cbv zeta. simpl_st.
  unfold add64. rewrite wrap64_small by lia. reflexivity.
Qed.

Lemma scan_cond_true st :
  Forall wf_arr (bkts st) -> scan_cond st = true ->
  size (slot st (cur_bkt st)) = 0 /\ 0 < num_elms st.
Proof.
  intros Hwf H. unfold scan_cond, curBucketNonEmpty in H.
  apply andb_true_iff in H as [H1 H2]. apply negb_true_iff in H1.
  apply Z.ltb_ge in H1. apply Z.ltb_lt in H2.
  pose proof (wf_slot st (cur_bkt st) Hwf) as [? _]. lia.
Qed.

Lemma scan_cond_false st :
  scan_cond st = false -> num_elms st <> 0 -> 0 <= num_elms st ->
  0 < size (slot st (cur_bkt st)).
Proof.
  intros H Hne H0. unfold scan_cond, curBucketNonEmpty in H.
  apply andb_false_iff in H as [H|H].
  - apply negb_false_iff, Z.ltb_lt in H. exact H.
  - apply Z.ltb_ge in H. lia.
Qed.

Lemma wf_st_set_cur_bkt c st : wf_st st -> wf_st (set_cur_bkt c st).
Proof. intros [? ? ? ? ? ? ?]. constructor; assumption. Qed.

Lemma slot_drain_cur st s :
  0 <= cur_bkt st < Z.of_nat (length (bkts st)) -> 0 <= s ->
  slot (drain_cur st) s
  = if s =? cur_bkt st
    then {| A := A (slot st (cur_bkt st)); size := 0 |}
    else slot st s.
Proof.
  intros Hc Hs. unfold drain_cur.
  destruct (Z.eqb_spec s (cur_bkt st)) as [->|Hne].
  - apply slot_set_slot_eq. simpl_st. lia.
  - rewrite slot_set_slot_ne by (simpl_st; lia). reflexivity.
Qed.

Lemma good_drain_cur st :
  good st ->
  good (drain_cur st)
  /\ total_size (drain_cur st) = total_size st - size (slot st (cur_bkt st)).
Proof.
  intros [[HT Hob Hlen Hwf Hne Hcap Hr] Hc].
  pose proof (total_size_nonneg st Hwf) as H0.
  pose proof (size_le_total st (cur_bkt st) Hwf ltac:(lia)) as Hsz.
  assert (Hts : total_size (drain_cur st)
                = total_size st - size (slot st (cur_bkt st))).
  { unfold drain_cur. rewrite total_size_set_slot; simpl_st; try lia.
    change (total_size (set_num_elms ?x ?s)) with (total_size s).
    change (slot (set_num_elms ?x ?s) ?b) with (slot s b). lia. }
  split; [|exact Hts]. split; [|exact Hc]. constructor.
  - exact HT.
  - exact Hob.
  - unfold drain_cur. simpl_st. rewrite length_insert. exact Hlen.
  - unfold drain_cur. apply wf_set_slot; [exact Hwf|]. unfold wf_arr. simpl_st. lia.
  - rewrite Hts. unfold drain_cur. simpl_st. rewrite Hne.
    unfold sub64. apply wrap64_small. lia.
  - rewrite Hts. lia.
  - exact Hr.
Qed.

Lemma below_drain_cur st : good st -> below st -> below (drain_cur st).
Proof.
  intros [[HT Hob Hlen Hwf Hne Hcap Hr] Hc] Hb s Hs.
  change (cur_bkt (drain_cur st)) with (cur_bkt st) in Hs.
  rewrite slot_drain_cur by lia.
  destruct (Z.eqb_spec s (cur_bkt st)); [reflexivity|]. apply Hb. lia.
Qed.

Lemma total_size_only_overflow st :
  wf_st st -> (forall s, 0 <= s < open_buckets st -> size (slot st s) = 0) ->
  total_size st = size (slot st (open_buckets st)).
Proof.
  intros [HT Hob Hlen Hwf Hne Hcap Hr] H. unfold total_size.
  replace (total_buckets st) with (open_buckets st + 1) by lia.
  rewrite seqZ_app by lia. rewrite fmap_app, sumZ_app.
  rewrite sumZ_fmap_zero.
  - change (seqZ (0 + open_buckets st) 1) with [0 + open_buckets st].
    rewrite fmap_cons, sumZ_cons. cbn [fmap list_fmap sumZ foldr].
    rewrite !Z.add_0_l, Z.add_0_r. reflexivity.
  - intros s Hs. apply elem_of_seqZ in Hs. apply H. lia.
Qed.

(** A turn of the loop of [next_bucket] on a structure whose slots
    before the cursor are empty: the assertion of [unpack] holds. *)
Lemma skip_step rt d st :
  good st -> below st -> scan_cond st = true ->
  exists st1,
    _next_bucket rt d st = Done st1 /\ good st1 /\ below st1
    /\ ((cur_bkt st + 1 < open_buckets st /\ st1 = set_cur_bkt (cur_bkt st + 1) st)
        \/ (cur_bkt st + 1 = open_buckets st
            /\ size (slot st (open_buckets st)) = num_elms st
            /\ st1 = set_cur_bkt 0 (unpack_result d (set_cur_bkt (open_buckets st) st)))).
Proof.
  intros Hg Hb Hs. pose proof Hg as [Hwf Hc].
  pose proof Hwf as [HT Hob Hlen Hwfs Hne Hcap Hr].
  destruct (scan_cond_true st Hwfs Hs) as [Hz Hpos].
  rewrite _next_bucket_eq by lia.
  destruct (Z.eqb_spec (cur_bkt st + 1) (open_buckets st)) as [E|E].
  - assert (Hall : forall s, 0 <= s < open_buckets st -> size (slot st s) = 0).
    { intros s Hs'. destruct (decide (s = cur_bkt st)) as [->|Hn]; [exact Hz|].
      apply Hb. lia. }
    assert (Hm : size (slot st (open_buckets st)) = num_elms st).
    { rewrite Hne. symmetry. apply total_size_only_overflow; assumption. }
    rewrite E. rewrite unpack_done; [|apply wf_st_set_cur_bkt; exact Hwf|exact Hm].
    eexists. split; [reflexivity|].
    destruct (wf_unpack_result d (set_cur_bkt (open_buckets st) st)) as [Hw' _];
      [apply wf_st_set_cur_bkt; exact Hwf|exact Hm|].
    split; [|split].
    + split; [apply wf_st_set_cur_bkt; exact Hw'|].
      simpl_st. destruct Hw' as [_ Hob' _ _ _ _ _].
      unfold unpack_result, apply_entries in *. simpl_st.
      pose proof (emptied_overflow_frame (set_cur_bkt (open_buckets st) st))
        as (_ & F2 & _). rewrite F2. simpl_st. lia.
    + intros s Hs'. simpl_st. lia.
    + right. split; [lia|]. split; [exact Hm|reflexivity].
  - eexists. split; [reflexivity|]. split; [|split].
    + split; [apply wf_st_set_cur_bkt; exact Hwf|]. simpl_st. lia.
    + intros s Hs'. simpl_st.
      change (slot (set_cur_bkt ?c ?x) s) with (slot x s).
      destruct (decide (s = cur_bkt st)) as [->|Hn]; [exact Hz|]. apply Hb. lia.
    + left. split; [lia|reflexivity].
Qed.

(** ** Construction *)

Lemma make_buckets_eq rt n d o T :
  make_buckets rt n d o T
  = snd (update_buckets rt (init_batch d (init_state n d o T)) n (init_state n d o T)).
Proof. destruct o; reflexivity. Qed.

Lemma foldl_min_le x l : foldl Z.min x l <= x /\ forall y, y ∈ l -> foldl Z.min x l <= y.
Proof.
  revert x. induction l as [|z l IH]; intros x; cbn [foldl].
  - split; [lia|]. intros y Hy. inversion Hy.
  - destruct (IH (Z.min x z)) as [H1 H2]. split; [lia|].
    intros y Hy. apply elem_of_cons in Hy as [->|Hy]; [lia|]. apply H2, Hy.
Qed.

Lemma foldl_min_elem x l : foldl Z.min x l ∈ x :: l.
Proof.
  revert x. induction l as [|z l IH]; intros x; cbn [foldl]; [left|].
  specialize (IH (Z.min x z)). apply elem_of_cons in IH as [E|IH].
  - rewrite E. destruct (Z.min_spec x z) as [[_ ->]|[_ ->]]; [left|right; left].
  - right. right. exact IH.
Qed.

Lemma foldl_max_ge x l : x <= foldl Z.max x l /\ forall y, y ∈ l -> y <= foldl Z.max x l.
Proof.
  revert x. induction l as [|z l IH]; intros x; cbn [foldl].
  - split; [lia|]. intros y Hy. inversion Hy.
  - destruct (IH (Z.max x z)) as [H1 H2]. split; [lia|].
    intros y Hy. apply elem_of_cons in Hy as [->|Hy]; [lia|]. apply H2, Hy.
Qed.

Lemma foldl_max_elem x l : foldl Z.max x l ∈ x :: l.
Proof.
  revert x. induction l as [|z l IH]; intros x; cbn [foldl]; [left|].
  specialize (IH (Z.max x z)). apply elem_of_cons in IH as [E|IH].
  - rewrite E. destruct (Z.max_spec x z) as [[_ ->]|[_ ->]]; [right; left|left].
  - right. right. exact IH.
Qed.

Lemma reduce_min_spec (l : list Z) (hi : Z) :
  0 <= hi -> (forall y, y ∈ l -> 0 <= y <= hi) ->
  0 <= reduce Z.min l <= hi /\ forall y, y ∈ l -> reduce Z.min l <= y.
Proof.
  intros Hhi H. destruct l as [|x l]; cbn [reduce].
  - split; [lia|]. intros y Hy. inversion Hy.
  - split; [apply H, foldl_min_elem|].
    intros y Hy. destruct (foldl_min_le x l) as [H1 H2].
    apply elem_of_cons in Hy as [->|Hy]; [exact H1|apply H2, Hy].
Qed.

Lemma reduce_max_spec (l : list Z) (hi : Z) :
  0 <= hi -> (forall y, y ∈ l -> 0 <= y <= hi) ->
  0 <= reduce Z.max l <= hi /\ forall y, y ∈ l -> y <= reduce Z.max l.
Proof.
  intros Hhi H. destruct l as [|x l]; cbn [reduce].
  - split; [lia|]. intros y Hy. inversion Hy.
  - split; [apply H, foldl_max_elem|].
    intros y Hy. destruct (foldl_max_ge x l) as [H1 H2].
    apply elem_of_cons in Hy as [->|Hy]; [exact H1|apply H2, Hy].
Qed.

(** The first window lies at or before every bucket that is mapped. *)
Lemma init_range_spec n d o T :
  2 <= T < 2 ^ 32 ->
  let r := init_range n d o T in
  let ob := T - 1 in
  match o with
  | increasing =>
      0 <= r /\ r * ob <= null_bkt
      /\ forall i, 0 <= i < n -> r * ob <= ask d i
  | decreasing =>
      1 <= r <= 2 ^ 32
      /\ forall i, 0 <= i < n -> ask d i <> null_bkt -> ask d i < r * ob
  end.
Proof.
  intros HT. cbn zeta. unfold init_range, sub64. rewrite !(wrap64_small (T - 1)) by lia.
  assert (Hn : null_bkt = 2 ^ 32 - 1) by reflexivity.
  destruct o.
  - set (l := (fun i => if ask d i =? null_bkt then 0 else ask d i) <$> seqZ 0 n).
    destruct (reduce_max_spec l (null_bkt - 1)) as [Hb Hle]; [lia| |].
    { intros y Hy. unfold l in Hy. apply list_elem_of_fmap in Hy as (i & -> & _).
      pose proof (ask_range d i).
      destruct (Z.eqb_spec (ask d i) null_bkt); lia. }
    unfold add64. rewrite wrap64_small by lia.
    set (m := reduce Z.max l) in *.
    pose proof (Z.div_mod (m + (T - 1)) (T - 1) ltac:(lia)) as Hdm.
    pose proof (Z.mod_pos_bound (m + (T - 1)) (T - 1) ltac:(lia)) as Hmb.
    assert (Hq : 1 <= (m + (T - 1)) / (T - 1)) by (apply Z.div_le_lower_bound; lia).
    split; [split; [exact Hq|]|].
    + apply Z.div_le_upper_bound; [lia|]. nia.
    + intros i Hi Hnn.
      assert (Hi' : ask d i <= m).
      { apply Hle. unfold l.
        apply (list_elem_of_fmap_2' _ _ i); [apply elem_of_seqZ; lia|].
        destruct (Z.eqb_spec (ask d i) null_bkt); [contradiction|reflexivity]. }
      nia.
  - set (l := (fun i => ask d i) <$> seqZ 0 n).
    destruct (reduce_min_spec l null_bkt) as [Hb Hle]; [lia| |].
    { intros y Hy. unfold l in Hy. apply list_elem_of_fmap in Hy as (i & -> & _).
      apply ask_range. }
    set (m := reduce Z.min l) in *.
    pose proof (Z.div_mod m (T - 1) ltac:(lia)) as Hdm.
    pose proof (Z.mod_pos_bound m (T - 1) ltac:(lia)) as Hmb.
    assert (Hq : 0 <= m / (T - 1)) by (apply Z.div_pos; lia).
    split; [exact Hq|]. split; [nia|].
    intros i Hi.
    assert (Hi' : m <= ask d i).
    { apply Hle. unfold l. apply (list_elem_of_fmap_2' _ _ i); [apply elem_of_seqZ; lia|].
      reflexivity. }
    nia.
Qed.

(** ** The range stays within the bucket numbers *)

(** A bucket number that [to_range] does not send to the sentinel has
    not been passed by the window. *)
Lemma to_range_live st b :
  1 <= open_buckets st < 2 ^ 32 - 1 -> 0 <= cur_range st -> bounds st ->
  0 <= b <= null_bkt -> to_range st b <> null_bkt ->
  tight st
  /\ match order st with
     | increasing => cur_range st * open_buckets st <= b
     | decreasing => b < cur_range st * open_buckets st
     end.
Proof.
  intros HO Hr Hb Hbn Hne. unfold bounds, tight in *.
  destruct (order st) eqn:Eo.
  - destruct (Z.eq_dec (cur_range st) 0) as [E0|E0].
    + exfalso. apply Hne. apply to_range_decreasing_zero; [exact Eo|exact E0|lia].
    + rewrite to_range_decreasing in Hne by (auto; lia).
      destruct (Z.geb_spec b (cur_range st * open_buckets st)); [contradiction|]. lia.
  - rewrite to_range_increasing in Hne by (auto; lia).
    destruct (Z.ltb_spec b (cur_range st * open_buckets st)); [contradiction|]. lia.
Qed.

(** The slot of a bucket number tells the bucket number, for an open
    slot. *)
Lemma to_range_open st b s :
  1 <= open_buckets st < 2 ^ 32 - 1 -> 0 <= cur_range st -> bounds st ->
  0 <= b <= null_bkt -> to_range st b = s -> 0 <= s < open_buckets st ->
  b = num_at st s.
Proof.
  intros HO Hr Hb Hbn Hs Hso.
  assert (Hne : to_range st b <> null_bkt) by (unfold null_bkt; lia).
  destruct (to_range_live st b HO Hr Hb Hbn Hne) as [Ht Hw].
  unfold bounds, tight, num_at in *.
  pose proof (Z.mod_pos_bound b (open_buckets st) ltac:(lia)) as Hm.
  destruct (order st) eqn:Eo.
  - rewrite to_range_decreasing in Hs by (auto; lia).
    destruct (Z.geb_spec b (cur_range st * open_buckets st)); [lia|].
    destruct (Z.geb_spec b ((cur_range st - 1) * open_buckets st)); [|lia].
    rewrite (div_mod_window b (cur_range st - 1) (open_buckets st)
               (open_buckets st - s - 1)); lia.
  - rewrite to_range_increasing in Hs by (auto; lia).
    destruct (Z.ltb_spec b (cur_range st * open_buckets st)); [lia|].
    destruct (Z.ltb_spec b ((cur_range st + 1) * open_buckets st)); [|lia].
    apply div_mod_window; lia.
Qed.

(** A bucket number beyond the window is not lost when the window
    advances. *)
Lemma to_range_advance st b :
  1 <= open_buckets st < 2 ^ 32 - 1 -> 0 <= cur_range st -> bounds st ->
  0 <= b <= null_bkt -> to_range st b = open_buckets st ->
  to_range (advance st) b <> null_bkt.
Proof.
  intros HO Hr Hb Hbn Hs.
  assert (Hne : to_range st b <> null_bkt) by (unfold null_bkt; lia).
  destruct (to_range_live st b HO Hr Hb Hbn Hne) as [Ht Hw].
  pose proof (advance_frame st) as (_ & F2 & F3 & _).
  pose proof (Z.mod_pos_bound b (open_buckets st) ltac:(lia)) as Hm.
  unfold bounds, tight in *. unfold advance in *.
  destruct (order st) eqn:Eo.
  - rewrite to_range_decreasing in Hs by (auto; lia).
    destruct (Z.geb_spec b (cur_range st * open_buckets st)); [lia|].
    destruct (Z.geb_spec b ((cur_range st - 1) * open_buckets st)); [lia|].
    assert (H2 : 2 <= cur_range st) by nia.
    rewrite to_range_decreasing; simpl_st; unfold sub64;
      rewrite ?(wrap64_small (cur_range st - 1)) by lia; auto; try lia.
    destruct (Z.geb_spec b ((cur_range st - 1) * open_buckets st)); [lia|].
    destruct (Z.geb_spec b ((cur_range st - 1 - 1) * open_buckets st));
      unfold null_bkt; lia.
  - rewrite to_range_increasing in Hs by (auto; lia).
    destruct (Z.ltb_spec b (cur_range st * open_buckets st)); [lia|].
    destruct (Z.ltb_spec b ((cur_range st + 1) * open_buckets st)); [lia|].
    assert (H1 : cur_range st <= cur_range st * open_buckets st) by nia.
    assert (H2 : cur_range st + 1 < 2 ^ 33) by (unfold null_bkt in *; lia).
    rewrite to_range_increasing; simpl_st; unfold add64;
      rewrite ?(wrap64_small (cur_range st + 1)) by lia; auto; try lia.
    destruct (Z.ltb_spec b ((cur_range st + 1) * open_buckets st)); [lia|].
    destruct (Z.ltb_spec b ((cur_range st + 1 + 1) * open_buckets st));
      unfold null_bkt; lia.
Qed.

(** [get_cur_bucket_num] does not wrap while entries remain. *)
Lemma get_cur_bucket_num_at st :
  1 <= open_buckets st < 2 ^ 32 - 1 -> 0 <= cur_range st ->
  0 <= cur_bkt st < open_buckets st -> bounds st -> tight st ->
  get_cur_bucket_num st = num_at st (cur_bkt st) /\ 0 <= num_at st (cur_bkt st).
Proof.
  intros HO Hr Hc Hb Ht. unfold get_cur_bucket_num, num_at, bounds, tight in *.
  assert (Hn : null_bkt = 2 ^ 32 - 1) by reflexivity.
  destruct (order st).
  - unfold mul64, sub64. rewrite (wrap64_small (cur_range st * _)) by nia.
    rewrite (wrap64_small (_ - cur_bkt st)) by nia. rewrite wrap64_small by nia.
    split; [reflexivity|nia].
  - unfold mul64, add64. rewrite (wrap64_small (cur_range st * _)) by nia.
    rewrite wrap64_small by nia. split; [reflexivity|nia].
Qed.

(** Entries put where [to_range] sends some bucket number keep the range
    within the bucket numbers. *)
Lemma rng_entries (es : list (Z * Z)) st :
  1 <= open_buckets st < 2 ^ 32 - 1 -> 0 <= cur_range st -> bounds st ->
  (0 < total_size st -> tight st) ->
  (forall e, e ∈ es -> exists b, 0 <= b <= null_bkt /\ to_range st b = fst e
                                 /\ fst e <> null_bkt) ->
  0 < total_size st + Z.of_nat (length es) -> tight st.
Proof.
  intros HO Hr Hb Ht Hes Hpos.
  destruct es as [|e es].
  - apply Ht. cbn [length] in Hpos. lia.
  - destruct (Hes e ltac:(left)) as (b & Hbn & Hs & Hne).
    rewrite <- Hs in Hne. apply (to_range_live st b HO Hr Hb Hbn Hne).
Qed.

(** ** Soundness of the steps *)

(** A turn of the loop of [next_bucket] that does not stop on the
    assertion. *)
Lemma skip_cases rt d st st1 :
  good st -> scan_cond st = true -> _next_bucket rt d st = Done st1 ->
  (cur_bkt st + 1 < open_buckets st /\ st1 = set_cur_bkt (cur_bkt st + 1) st)
  \/ (cur_bkt st + 1 = open_buckets st
      /\ size (slot st (open_buckets st)) = num_elms st
      /\ st1 = set_cur_bkt 0 (unpack_result d (set_cur_bkt (open_buckets st) st))).
Proof.
  intros [Hwf Hc] Hs H. pose proof Hwf as [HT Hob Hlen Hwfs Hne Hcap Hr].
  rewrite _next_bucket_eq in H by lia.
  destruct (Z.eqb_spec (cur_bkt st + 1) (open_buckets st)) as [E|E].
  - right. rewrite E in H.
    destruct (Z.eq_dec (size (slot st (open_buckets st))) (num_elms st)) as [Hm|Hm].
    + rewrite unpack_done in H; [|apply wf_st_set_cur_bkt; exact Hwf|exact Hm].
      injection H as <-. tauto.
    + rewrite unpack_eq in H. simpl_st.
      change (slot (set_cur_bkt ?c ?x) ?s) with (slot x s) in H.
      destruct (Z.eqb_spec (size (slot st (open_buckets st))) (num_elms st));
        [contradiction|discriminate].
  - left. injection H as <-. split; [lia|reflexivity].
Qed.

Lemma unpack_result_frame d st :
  order (unpack_result d st) = order st
  /\ open_buckets (unpack_result d st) = open_buckets st
  /\ total_buckets (unpack_result d st) = total_buckets st
  /\ cur_bkt (unpack_result d st) = cur_bkt st
  /\ n (unpack_result d st) = n st
  /\ cur_range (unpack_result d st) = cur_range (advance st).
Proof.
  pose proof (emptied_overflow_frame st) as (F1 & F2 & F3 & F4 & F5 & F6 & F7 & F8).
  unfold unpack_result, apply_entries. simpl_st. tauto.
Qed.

Lemma to_range_congr st st' b :
  order st' = order st -> cur_range st' = cur_range st ->
  open_buckets st' = open_buckets st -> to_range st' b = to_range st b.
Proof. intros H1 H2 H3. unfold to_range. rewrite H1, H2, H3. reflexivity. Qed.

Lemma good_skip rt d st st1 :
  good st -> scan_cond st = true -> _next_bucket rt d st = Done st1 -> good st1.
Proof.
  intros Hg Hs H. pose proof Hg as [Hwf Hc].
  pose proof Hwf as [HT Hob Hlen Hwfs Hne Hcap Hr].
  destruct (skip_cases rt d st st1 Hg Hs H) as [(Hlt & ->)|(E & Hm & ->)].
  - split; [apply wf_st_set_cur_bkt; exact Hwf|]. simpl_st. lia.
  - destruct (wf_unpack_result d (set_cur_bkt (open_buckets st) st)) as [Hw' _];
      [apply wf_st_set_cur_bkt; exact Hwf|exact Hm|].
    split; [apply wf_st_set_cur_bkt; exact Hw'|]. simpl_st.
    pose proof (unpack_result_frame d (set_cur_bkt (open_buckets st) st)) as (_ & F2 & _).
    rewrite F2. simpl_st. lia.
Qed.

(** The advanced range of a structure that still held entries. *)
Lemma advance_range st :
  1 <= open_buckets st < 2 ^ 32 - 1 -> 0 <= cur_range st -> bounds st -> tight st ->
  cur_range (advance st) = cur_range st + dir st /\ bounds (advance st)
  /\ 0 <= cur_range (advance st).
Proof.
  intros HO Hr Hb Ht. unfold advance, bounds, tight, dir in *.
  assert (Hn : null_bkt = 2 ^ 32 - 1) by reflexivity.
  destruct (order st) eqn:Eo; simpl_st; rewrite Eo.
  - unfold sub64. rewrite wrap64_small by lia. split; [lia|]. split; lia.
  - assert (H1 : cur_range st <= cur_range st * open_buckets st) by nia.
    unfold add64. rewrite wrap64_small by lia. split; [lia|]. split; [nia|lia].
Qed.

Lemma unpack_entries_ranged d st e :
  1 <= open_buckets st < 2 ^ 32 - 1 ->
  e ∈ unpack_entries d st ->
  exists b, 0 <= b <= null_bkt /\ to_range (emptied_overflow st) b = fst e
            /\ fst e <> null_bkt.
Proof.
  intros HO He. pose proof (emptied_overflow_frame st) as (_ & F2 & _).
  apply list_elem_of_omap in He as (v & _ & Hv).
  pose proof Hv as Hv'. apply reclass_slot in Hv' as (Hs & Hf & _); [|rewrite F2; lia].
  exists (ask d v). split; [apply ask_range|]. split; [symmetry; exact Hf|].
  rewrite F2 in Hs. unfold null_bkt. lia.
Qed.

Lemma rng_skip rt d st st1 :
  good st -> rng st -> scan_cond st = true -> _next_bucket rt d st = Done st1 ->
  rng st1 /\ pos st1 = pos st + dir st /\ dir st1 = dir st.
Proof.
  intros Hg [Hb Ht] Hs H. pose proof Hg as [Hwf Hc].
  pose proof Hwf as [HT Hob Hlen Hwfs Hne Hcap Hr].
  destruct (scan_cond_true st Hwfs Hs) as [Hz Hpos].
  specialize (Ht ltac:(lia)).
  destruct (skip_cases rt d st st1 Hg Hs H) as [(Hlt & ->)|(E & Hm & ->)].
  - split; [split; [exact Hb|intros _; exact Ht]|].
    split; [|reflexivity]. unfold pos, num_at, dir. simpl_st.
    destruct (order st); lia.
  - set (sO := set_cur_bkt (open_buckets st) st) in *.
    assert (HwO : wf_st sO) by (apply wf_st_set_cur_bkt; exact Hwf).
    destruct (wf_unpack_result d sO HwO Hm) as [Hw' Hts].
    pose proof (unpack_result_frame d sO) as (F1 & F2 & F3 & F4 & F5 & F6).
    pose proof (emptied_overflow_frame sO) as (G1 & G2 & G3 & G4 & G5 & G6 & G7 & G8).
    destruct (advance_range sO) as (Ar & Ab & A0);
      [unfold sO; simpl_st; lia|unfold sO; simpl_st; lia|exact Hb|exact Ht|].
    assert (Hb' : bounds (set_cur_bkt 0 (unpack_result d sO))).
    { unfold bounds in *. simpl_st. rewrite F1, F2, F6.
      pose proof (advance_frame sO) as (_ & Q2 & Q3 & _). rewrite Q2, Q3 in Ab. exact Ab. }
    split; [split; [exact Hb'|]|].
    + change (total_size (set_cur_bkt 0 ?x)) with (total_size x). rewrite Hts.
      intros Hp.
      assert (Htt : tight (emptied_overflow sO)).
      { apply (rng_entries (unpack_entries d sO)).
        - rewrite G2. unfold sO. simpl_st. lia.
        - rewrite G7. exact A0.
        - unfold bounds in *. rewrite G1, G2, G7.
          pose proof (advance_frame sO) as (_ & Q2 & Q3 & _). rewrite Q2, Q3 in Ab. exact Ab.
        - rewrite total_size_emptied_overflow by (unfold sO; simpl_st; lia).
          change (total_size sO) with (total_size st).
          change (slot sO (open_buckets sO)) with (slot st (open_buckets st)). lia.
        - intros e He. apply (unpack_entries_ranged d sO); [unfold sO; simpl_st; lia|exact He].
        - rewrite total_size_emptied_overflow by (unfold sO; simpl_st; lia).
          change (total_size sO) with (total_size st).
          change (slot sO (open_buckets sO)) with (slot st (open_buckets st)). lia. }
      unfold tight in *. simpl_st. rewrite F1, F2, F6, <- G1, <- G2, <- G7. exact Htt.
    + split.
      * unfold pos, num_at, dir. simpl_st. rewrite F1, F2, F6, Ar.
        change (order sO) with (order st). change (cur_range sO) with (cur_range st).
        change (open_buckets sO) with (open_buckets st). unfold dir.
        change (order sO) with (order st).
        destruct (order st); lia.
      * unfold dir. simpl_st. rewrite F1. reflexivity.
Qed.

Lemma rng_drain_cur st : good st -> rng st -> rng (drain_cur st).
Proof.
  intros Hg [Hb Ht]. destruct (good_drain_cur st Hg) as [_ Hts].
  destruct Hg as [[HT Hob Hlen Hwf Hne Hcap Hr] Hc].
  pose proof (size_le_total st (cur_bkt st) Hwf ltac:(lia)) as Hsz.
  split; [exact Hb|]. intros Hp. apply Ht. lia.
Qed.

(** A call that returns from a sound structure leaves a sound
    structure, with the cursor moved in the direction of the order, on a
    slot that is empty; the bucket it returns, unless the sentinel, is
    the one under the cursor. *)
Lemma returns_sound rt d st b st' :
  returns rt d st b st' -> good st -> rng st ->
  good st' /\ rng st' /\ dir st' = dir st
  /\ 0 <= dir st * (pos st' - pos st)
  /\ size (slot st' (cur_bkt st')) = 0
  /\ (id b <> null_bkt ->
      id b = pos st'
      /\ (size (slot st (cur_bkt st)) = 0 -> 0 < dir st * (pos st' - pos st))).
Proof.
  induction 1 as [st st1 b st' Ec En _ IH | st Ec E0
                 | st b st' Ec E0 Ef _ IH | st Ec E0 Ef]; intros Hg Hr.
  - destruct (rng_skip rt d st st1 Hg Hr Ec En) as (Hr1 & Hp & Hd).
    destruct (IH (good_skip rt d st st1 Hg Ec En) Hr1) as (G & R & D & Hm & Hz & Hid).
    rewrite Hd in *. split; [exact G|]. split; [exact R|]. split; [exact D|].
    assert (Hdir : dir st = 1 \/ dir st = -1) by (unfold dir; destruct (order st); auto).
    split; [nia|]. split; [exact Hz|].
    intros Hn. destruct (Hid Hn) as [Hi _]. split; [exact Hi|]. intros _. nia.
  - split; [exact Hg|]. split; [exact Hr|]. split; [reflexivity|].
    split; [lia|]. split; [|intros Hn; cbn in Hn; contradiction].
    destruct Hg as [[HT Hob Hlen Hwf Hne Hcap Hrr] Hc].
    apply total_size_zero; [exact Hwf|lia|lia].
  - destruct (good_drain_cur st Hg) as [Hg' Hts].
    destruct (IH Hg' (rng_drain_cur st Hg Hr)) as (G & R & D & Hm & Hz & Hid).
    change (dir (drain_cur st)) with (dir st) in *.
    change (pos (drain_cur st)) with (pos st) in *.
    split; [exact G|]. split; [exact R|]. split; [exact D|].
    split; [exact Hm|]. split; [exact Hz|].
    intros Hn. destruct (Hid Hn) as [Hi Hs]. split; [exact Hi|]. intros _.
    apply Hs. destruct Hg as [[HT Hob Hlen Hwf Hne Hcap Hrr] Hc].
    change (cur_bkt (drain_cur st)) with (cur_bkt st). rewrite slot_drain_cur by lia.
    rewrite Z.eqb_refl. reflexivity.
  - destruct (good_drain_cur st Hg) as [Hg' Hts].
    change (dir (drain_cur st)) with (dir st) in *.
    change (pos (drain_cur st)) with (pos st) in *.
    split; [exact Hg'|]. split; [apply rng_drain_cur; assumption|].
    split; [reflexivity|]. split; [lia|].
    destruct Hg as [[HT Hob Hlen Hwf Hne Hcap Hrr] Hc]. destruct Hr as [Hb Ht].
    pose proof (total_size_nonneg st Hwf) as H0.
    split.
    + change (cur_bkt (drain_cur st)) with (cur_bkt st). rewrite slot_drain_cur by lia.
      rewrite Z.eqb_refl. reflexivity.
    + intros _. split.
      * cbn [id cur_emit]. apply get_cur_bucket_num_at; auto; try lia. apply Ht. lia.
      * intros Hz. pose proof (scan_cond_false st Ec E0 ltac:(lia)). lia.
Qed.

(** ** The structure that the constructor builds *)

Lemma slot_init_state n d o T s : slot (init_state n d o T) s = empty_arr.
Proof.
  unfold slot, init_state. simpl_st.
  destruct (replicate (Z.to_nat T) empty_arr !! Z.to_nat s) as [a|] eqn:E; [|reflexivity].
  apply lookup_replicate in E as [-> _]. reflexivity.
Qed.

Lemma total_size_init_state n d o T : total_size (init_state n d o T) = 0.
Proof.
  unfold total_size. apply sumZ_fmap_zero. intros s _.
  rewrite slot_init_state. reflexivity.
Qed.

Lemma init_state_range n d o T :
  2 <= T < 2 ^ 32 ->
  open_buckets (init_state n d o T) = T - 1
  /\ 0 <= cur_range (init_state n d o T) < 2 ^ 64
  /\ bounds (init_state n d o T) /\ tight (init_state n d o T).
Proof.
  intros HT. pose proof (init_range_spec n d o T HT) as H. cbn zeta in H.
  assert (Hn : null_bkt = 2 ^ 32 - 1) by reflexivity.
  unfold bounds, tight, init_state. simpl_st. unfold sub64.
  rewrite !(wrap64_small (T - 1)) by lia.
  split; [reflexivity|]. destruct o.
  - destruct H as (Hr & _). repeat split; lia.
  - destruct H as (H0 & Hr & _).
    assert (init_range n d increasing T <= init_range n d increasing T * (T - 1)) by nia.
    repeat split; lia.
Qed.

Lemma wf_init_state n d o T : 2 <= T < 2 ^ 32 -> wf_st (init_state n d o T).
Proof.
  intros HT. destruct (init_state_range n d o T HT) as (Ho & Hr & _).
  constructor.
  - exact HT.
  - exact Ho.
  - unfold init_state. simpl_st. rewrite length_replicate. lia.
  - unfold init_state. simpl_st. apply Forall_replicate. unfold wf_arr. cbn. lia.
  - rewrite total_size_init_state. reflexivity.
  - rewrite total_size_init_state. lia.
  - exact Hr.
Qed.

(** The first window loses no identifier that is mapped to a bucket. *)
Lemma init_covers n d o T i :
  2 <= T < 2 ^ 32 -> 0 <= i < n -> ask d i <> null_bkt ->
  to_range (init_state n d o T) (ask d i) <> null_bkt.
Proof.
  intros HT Hi Hne. pose proof (init_range_spec n d o T HT) as H. cbn zeta in H.
  destruct (init_state_range n d o T HT) as (Ho & Hr & Hb & Ht).
  pose proof (ask_range d i) as Ha.
  assert (Hn : null_bkt = 2 ^ 32 - 1) by reflexivity.
  pose proof (Z.mod_pos_bound (ask d i) (T - 1) ltac:(lia)) as Hm.
  destruct o.
  - destruct H as (Hr1 & Hlt). specialize (Hlt i Hi Hne).
    rewrite to_range_decreasing; try reflexivity; rewrite ?Ho; try lia;
      [|exact Hr1].
    change (cur_range (init_state n d decreasing T)) with (init_range n d decreasing T).
    destruct (Z.geb_spec (ask d i) (init_range n d decreasing T * (T - 1))); [lia|].
    destruct (_ >=? _); lia.
  - destruct H as (Hr1 & Hr2 & Hle). specialize (Hle i Hi).
    unfold bounds in Hb. change (order (init_state n d increasing T)) with increasing in Hb.
    lazy iota beta in Hb. rewrite Ho in Hb.
    rewrite to_range_increasing; try reflexivity; rewrite ?Ho; try lia.
    change (cur_range (init_state n d increasing T)) with (init_range n d increasing T).
    destruct (Z.ltb_spec (ask d i) (init_range n d increasing T * (T - 1))); [lia|].
    destruct (_ <? _); lia.
Qed.

Lemma entries_init_batch n d o T :
  0 <= n <= 2 ^ 32 -> 2 <= T < 2 ^ 32 ->
  entries (init_batch d (init_state n d o T)) (seqZ 0 n) = init_entries n d o T.
Proof.
  intros Hn HT. unfold entries, init_entries. apply omap_seqZ_ext. intros j Hj.
  unfold live, init_batch, init_entry. cbv zeta. unfold get0, get1. cbn [fst snd].
  rewrite !(wrap32_small j) by lia.
  destruct (Z.eqb_spec (ask d j) null_bkt) as [E|E]; cbn [negb].
  - rewrite E. rewrite (wrap32_small null_bkt) by (unfold null_bkt; lia).
    rewrite Z.eqb_refl. reflexivity.
  - rewrite (wrap32_small (to_range _ _)) by apply to_range_range.
    destruct (Z.eqb_spec (to_range (init_state n d o T) (ask d j)) null_bkt) as [E'|E'];
      [|reflexivity].
    exfalso. revert E'. apply init_covers; [exact HT|lia|exact E].
Qed.

Lemma init_entries_slots n d o T e :
  2 <= T < 2 ^ 32 -> e ∈ init_entries n d o T ->
  0 <= snd e < n /\ ask d (snd e) <> null_bkt
  /\ fst e = to_range (init_state n d o T) (ask d (snd e))
  /\ 0 <= fst e < T.
Proof.
  intros HT He. destruct (init_state_range n d o T HT) as (Ho & Hr & Hb & Ht).
  apply list_elem_of_omap in He as (i & Hi & E). apply elem_of_seqZ in Hi.
  unfold init_entry in E. destruct (Z.eqb_spec (ask d i) null_bkt) as [|Hne]; [discriminate|].
  injection E as <-. cbn [fst snd]. split; [lia|]. split; [exact Hne|]. split; [reflexivity|].
  pose proof (init_covers n d o T i HT ltac:(lia) Hne) as Hc.
  destruct (to_range_slot (init_state n d o T) (ask d i)) as [?|?];
    [rewrite Ho; lia|apply ask_range|contradiction|]. rewrite Ho in *. lia.
Qed.

(** Whatever the runtime, the constructor puts every mapped identifier
    where [to_range] sends its bucket. *)
Lemma make_buckets_closed rt n d o T :
  0 <= n < 2 ^ 31 -> 2 <= T < 2 ^ 32 ->
  make_buckets rt n d o T = apply_entries (init_entries n d o T) (init_state n d o T).
Proof.
  intros Hn HT. rewrite make_buckets_eq.
  rewrite update_buckets_fits.
  - cbn [snd]. rewrite entries_init_batch by lia. reflexivity.
  - apply wf_init_state. exact HT.
  - split; [lia|]. split.
    + intros j b v Hj E.
      assert (He : (b, v) ∈ entries (init_batch d (init_state n d o T)) (seqZ 0 n)).
      { apply list_elem_of_omap. exists j. split; [apply elem_of_seqZ; lia|exact E]. }
      rewrite entries_init_batch in He by lia.
      apply init_entries_slots in He; [|exact HT]. cbn [fst] in He.
      change (total_buckets (init_state n d o T)) with T. lia.
    + rewrite total_size_init_state. rewrite entries_init_batch by lia.
      pose proof (length_omap_le (init_entry d (init_state n d o T)) (seqZ 0 n)) as Hl.
      rewrite length_seqZ in Hl. unfold init_entries. lia.
Qed.

Lemma length_omap_filter {X Y} (g : X -> option Y) (p : X -> bool) (l : list X) :
  (forall x, x ∈ l -> (exists y, g x = Some y) <-> p x = true) ->
  length (omap g l) = length (List.filter p l).
Proof.
  induction l as [|x l IH]; intros H; [reflexivity|].
  assert (Hx := H x ltac:(left)).
  assert (IH' := IH ltac:(intros y Hy; apply H; right; exact Hy)).
  change (omap g (x :: l))
    with (match g x with Some y => y :: omap g l | None => omap g l end).
  cbn [List.filter].
  destruct (g x) as [y|], (p x); cbn [length]; rewrite ?IH'; try reflexivity.
  - destruct Hx as [Hx _]. specialize (Hx ltac:(eauto)). discriminate.
  - destruct Hx as [_ Hx]. destruct (Hx eq_refl). discriminate.
Qed.

Lemma length_init_entries n d o T :
  length (init_entries n d o T)
  = length (List.filter (fun i => negb (ask d i =? null_bkt)) (seqZ 0 n)).
Proof.
  unfold init_entries. apply length_omap_filter. intros i _. unfold init_entry.
  destruct (ask d i =? null_bkt); cbn; split; intros H; try discriminate; eauto.
  destruct H. discriminate.
Qed.

(** The structure that the constructor builds is well formed, its cursor
    on the first slot, its range within the bucket numbers. *)
Lemma make_buckets_sound rt n d o T :
  0 <= n < 2 ^ 31 -> 2 <= T < 2 ^ 32 ->
  good (make_buckets rt n d o T) /\ below (make_buckets rt n d o T)
  /\ rng (make_buckets rt n d o T) /\ order (make_buckets rt n d o T) = o.
Proof.
  intros Hn HT. rewrite make_buckets_closed by assumption.
  destruct (init_state_range n d o T HT) as (Ho & Hr & Hb & Ht).
  split; [split|split; [|split]].
  - apply wf_st_apply_entries.
    + apply wf_init_state. exact HT.
    + intros e He. apply init_entries_slots in He; [|exact HT].
      change (total_buckets (init_state n d o T)) with T. lia.
    + rewrite total_size_init_state.
      pose proof (length_omap_le (init_entry d (init_state n d o T)) (seqZ 0 n)) as Hl.
      rewrite length_seqZ in Hl. unfold init_entries. lia.
  - unfold apply_entries. simpl_st. rewrite Ho. unfold init_state. simpl_st. lia.
  - intros s Hs. unfold apply_entries in Hs. simpl_st. unfold init_state in Hs.
    simpl_st. lia.
  - split; [exact Hb|]. intros _. exact Ht.
  - reflexivity.
Qed.

(** ** Runs of a consumer *)

Lemma sel_none s (es : list (Z * Z)) : (forall e, e ∈ es -> fst e <> s) -> sel s es = [].
Proof.
  induction es as [|[b v] es IH]; intros H; [reflexivity|].
  rewrite sel_cons_ne.
  - apply IH. intros e He. apply H. right. exact He.
  - apply (H (b, v)). left.
Qed.

Lemma update_good rt f k st :
  good st -> batch_fits f k st ->
  update_buckets rt f k st
  = (Z.of_nat (length (entries f (seqZ 0 k))), apply_entries (entries f (seqZ 0 k)) st)
  /\ good (apply_entries (entries f (seqZ 0 k)) st)
  /\ total_size (apply_entries (entries f (seqZ 0 k)) st)
     = total_size st + Z.of_nat (length (entries f (seqZ 0 k))).
Proof.
  intros [Hwf Hc] Hfit. split; [apply update_buckets_fits; assumption|].
  pose proof Hfit as (Hk & Hv & Hroom).
  assert (Hes : forall e, e ∈ entries f (seqZ 0 k) -> 0 <= fst e < total_buckets st).
  { intros e. apply batch_fits_entries. exact Hfit. }
  split.
  - split; [apply wf_st_apply_entries; assumption|exact Hc].
  - apply total_size_apply_entries; [apply Hwf|exact Hes].
Qed.

Lemma update_forward rt f k st :
  good st -> below st -> forward st f k ->
  good (snd (update_buckets rt f k st)) /\ below (snd (update_buckets rt f k st)).
Proof.
  intros Hg Hb [Hfit Hfw]. destruct (update_good rt f k st Hg Hfit) as (E & Hg' & _).
  rewrite E. cbn [snd]. split; [exact Hg'|].
  destruct Hg as [[HT Hob Hlen Hwf Hne Hcap Hr] Hc].
  intros s Hs. change (cur_bkt (apply_entries ?es ?x)) with (cur_bkt x) in Hs.
  rewrite slot_apply_entries by lia.
  rewrite sel_none.
  - rewrite append_items_nil. apply Hb. exact Hs.
  - intros [b v] He. apply elem_of_entries in He as (j & Hj & El).
    apply elem_of_seqZ in Hj. cbn [fst]. specialize (Hfw j b v ltac:(lia) El). lia.
Qed.

Lemma update_ranged rt f k st :
  good st -> rng st -> ranged st f k ->
  good (snd (update_buckets rt f k st)) /\ rng (snd (update_buckets rt f k st))
  /\ order (snd (update_buckets rt f k st)) = order st
  /\ pos (snd (update_buckets rt f k st)) = pos st.
Proof.
  intros Hg [Hb Ht] [Hfit Hrg]. destruct (update_good rt f k st Hg Hfit) as (E & Hg' & Hts).
  rewrite E. cbn [snd]. split; [exact Hg'|].
  destruct Hg as [[HT Hob Hlen Hwf Hne Hcap Hr] Hc].
  split; [|split; reflexivity]. split; [exact Hb|].
  rewrite Hts. intros Hp.
  change (tight st).
  apply (rng_entries (entries f (seqZ 0 k))); auto; try lia.
  intros [b v] He. apply elem_of_entries in He as (j & Hj & El).
  apply elem_of_seqZ in Hj. cbn [fst].
  destruct (Hrg j b v ltac:(lia) El) as (bn & Hbn & ->).
  exists bn. split; [exact Hbn|]. split; [reflexivity|].
  apply (live_range _ _ _ _ El).
Qed.

(** *** The assertion of [unpack] *)

Lemma next_bucket_tidy rt d fuel st :
  good st -> below st ->
  next_bucket rt d fuel st = NoFuel
  \/ exists b st', next_bucket rt d fuel st = Done (b, st') /\ good st' /\ below st'.
Proof.
  intros Hg Hb.
  apply (next_bucket_invariant rt d (fun s => good s /\ below s)); [| |tauto].
  - intros s [Hgs Hbs] Hs.
    destruct (skip_step rt d s Hgs Hbs Hs) as (s1 & E & G1 & B1 & _). eauto.
  - intros s [Hgs Hbs] _ _. split; [apply good_drain_cur; exact Hgs|].
    apply below_drain_cur; assumption.
Qed.

Lemma run_no_abort rt fuel evs st :
  good st -> below st -> follows forward rt fuel evs st ->
  forall m ne c, run rt fuel evs st <> Abort m ne c.
Proof.
  revert st. induction evs as [|[f k|d] evs IH]; intros st Hg Hb Hf m ne c.
  - discriminate.
  - cbn [run]. destruct Hf as [Hfw Hf].
    destruct (update_forward rt f k st Hg Hb Hfw) as [Hg' Hb'].
    apply IH; assumption.
  - cbn [run follows] in *.
    destruct (next_bucket_tidy rt d fuel st Hg Hb) as [E|(b & st' & E & Hg' & Hb')];
      rewrite E in *; [discriminate|].
    specialize (IH st' Hg' Hb' Hf).
    destruct (run rt fuel evs st') as [[bs st'']| |]; try discriminate.
    intros [= -> -> ->]. eapply IH. reflexivity.
Qed.

(** C6. The assertion of [unpack] does not fail in a run that starts at
    the constructor and whose every update batch fits the structure and
    inserts at or after the cursor: no call of the run stops on it. And
    [unpack] stops exactly when the size [m] of the overflow slot
    differs from [num_elms], with [m], [num_elms] and the bucket number
    of the first slot of the next range as its diagnostic. *)
Theorem unpack_assertion_holds rt n d0 o T fuel evs :
  0 <= n < 2 ^ 31 -> 2 <= T < 2 ^ 32 ->
  follows forward rt fuel evs (make_buckets rt n d0 o T) ->
  (forall m ne c, run rt fuel evs (make_buckets rt n d0 o T) <> Abort m ne c)
  /\ (forall d st,
        size (slot st (open_buckets st)) <> num_elms st ->
        unpack rt d st
        = Abort (size (slot st (open_buckets st))) (num_elms st)
            (get_cur_bucket_num (set_cur_bkt 0 (emptied_overflow st))))
  /\ (forall d st m ne c,
        unpack rt d st = Abort m ne c ->
        m = size (slot st (open_buckets st)) /\ ne = num_elms st /\ m <> ne).
Proof.
  intros Hn HT Hf.
  destruct (make_buckets_sound rt n d0 o T Hn HT) as (Hg & Hb & _).
  split; [apply run_no_abort; assumption|]. split.
  - intros d st Hne. rewrite unpack_eq.
    destruct (Z.eqb_spec (size (slot st (open_buckets st))) (num_elms st));
      [contradiction|reflexivity].
  - intros d st m ne c. rewrite unpack_eq.
    destruct (Z.eqb_spec (size (slot st (open_buckets st))) (num_elms st)) as [E|E];
      cbn [negb]; [discriminate|].
    intros [= <- <- _]. auto.
Qed.

Lemma unpack_assertion_holds_witness :
  let rt := mk_runtime 1 2048 in
  let d0 := oracle_of_list [0; 2; 5] in
  let d1 := oracle_of_list [0; 7; 5] in
  let evs := [Next d0; Update (fun _ => Some (1, 3)) 1; Next d1; Next d1; Next d1] in
  let st0 := make_buckets rt 3 d0 increasing 4 in
  follows forward rt 12 evs st0
  /\ (forall m ne c, run rt 12 evs st0 <> Abort m ne c)
  /\ exists bs st,
       run rt 12 evs st0 = Done (bs, st)
       /\ (fun b => (id b, vs_s (identifiers b))) <$> bs
          = [(0, [0]); (5, [2]); (7, [1]); (null_bkt, [])]
       /\ cur_range st0 = 0 /\ cur_range st = 2.
Proof.
  cbv zeta.
  assert (Hf : follows forward (mk_runtime 1 2048) 12
                 [Next (oracle_of_list [0; 2; 5]); Update (fun _ => Some (1, 3)) 1;
                  Next (oracle_of_list [0; 7; 5]); Next (oracle_of_list [0; 7; 5]);
                  Next (oracle_of_list [0; 7; 5])]
                 (make_buckets (mk_runtime 1 2048) 3 (oracle_of_list [0; 2; 5]) increasing 4)).
  { cbn [follows].
    destruct (next_bucket _ (oracle_of_list [0; 2; 5]) 12 _) as [[b1 st1]| |] eqn:E1;
      [|exact I|exact I].
    vm_compute in E1. injection E1 as <- <-.
    split.
    - split; [split; [lia|split]|].
      + intros j b v Hj Hl. assert (j = 0) by lia. subst j.
        vm_compute in Hl. injection Hl as <- <-. vm_compute. reflexivity.
      + vm_compute. reflexivity.
      + intros j b v Hj Hl. assert (j = 0) by lia. subst j.
        vm_compute in Hl. injection Hl as <- <-. vm_compute. discriminate.
    - repeat (destruct (next_bucket _ _ _ _) as [[? ?]| |]; [|exact I|exact I]).
      exact I. }
  split; [exact Hf|]. split.
  - apply (unpack_assertion_holds (mk_runtime 1 2048) 3 (oracle_of_list [0; 2; 5])
             increasing 4 12); [lia|lia|exact Hf].
  - destruct (run (mk_runtime 1 2048) 12
                [Next (oracle_of_list [0; 2; 5]); Update (fun _ => Some (1, 3)) 1;
                 Next (oracle_of_list [0; 7; 5]); Next (oracle_of_list [0; 7; 5]);
                 Next (oracle_of_list [0; 7; 5])]
                (make_buckets (mk_runtime 1 2048) 3 (oracle_of_list [0; 2; 5]) increasing 4))
      as [[bs st]| |] eqn:E.
    + exists bs, st. split; [reflexivity|].
      vm_compute in E. injection E as <- <-. repeat split; reflexivity.
    + exfalso.
      exact (proj1 (unpack_assertion_holds (mk_runtime 1 2048) 3 (oracle_of_list [0; 2; 5])
                      increasing 4 12 _ ltac:(lia) ltac:(lia) Hf) _ _ _ E).
    + vm_compute in E. discriminate.
Defined.

(** The consumer has two buckets emitted, then lowers the priority of
    identifier 2 from 5 to 1 and routes the change through
    [update_buckets] with the slot that [get_bucket] gives, which lies
    before the cursor: the next call stops on the assertion of [unpack],
    with [m = 1] and [num_elms = 2]. *)
Lemma unpack_assertion_counterexample :
  let rt := mk_runtime 1 2048 in
  let d0 := oracle_of_list [0; 2; 5] in
  let d1 := oracle_of_list [0; 2; 1] in
  let st0 := make_buckets rt 3 d0 increasing 4 in
  exists bs st2,
    run rt 9 [Next d0; Next d0] st0 = Done (bs, st2)
    /\ id <$> bs = [0; 2]
    /\ get_bucket st2 5 1 = 1
    /\ run rt 9 [Update (fun _ => Some (2, get_bucket st2 5 1)) 1; Next d1] st2
       = Abort 1 2 3
    /\ run rt 9 [Next d0; Next d0; Update (fun _ => Some (2, 1)) 1; Next d1] st0
       = Abort 1 2 3.
Proof.
  cbv zeta.
  destruct (run (mk_runtime 1 2048) 9
              [Next (oracle_of_list [0; 2; 5]); Next (oracle_of_list [0; 2; 5])]
              (make_buckets (mk_runtime 1 2048) 3 (oracle_of_list [0; 2; 5]) increasing 4))
    as [[bs st2]| |] eqn:E; try (vm_compute in E; discriminate).
  exists bs, st2. vm_compute in E. injection E as <- <-.
  split; [reflexivity|]. split; [reflexivity|]. split; [reflexivity|].
  split; vm_compute; reflexivity.
Qed.

(** *** The order of the emitted bucket numbers *)

Lemma dir_precedes_eq st x y :
  0 <= dir st * (y - x) <-> precedes_eq (order st) x y.
Proof. unfold dir, precedes_eq. destruct (order st); lia. Qed.

Lemma dir_precedes st x y :
  0 < dir st * (y - x) <-> precedes (order st) x y.
Proof. unfold dir, precedes. destruct (order st); lia. Qed.

Lemma dir_order st st' : dir st' = dir st -> order st' = order st.
Proof. unfold dir. destruct (order st), (order st'); intros; (reflexivity || lia). Qed.

Lemma precedes_weaken o x y : precedes o x y -> precedes_eq o x y.
Proof. destruct o; cbn; lia. Qed.

Lemma precedes_eq_trans o x y z : precedes_eq o x y -> precedes_eq o y z -> precedes_eq o x z.
Proof. destruct o; cbn; lia. Qed.

Lemma precedes_eq_lt o x y z : precedes_eq o x y -> precedes o y z -> precedes o x z.
Proof. destruct o; cbn; lia. Qed.

Lemma precedes_eq_refl o x : precedes_eq o x x.
Proof. destruct o; cbn; lia. Qed.

Lemma emitted_ids_cons b bs :
  emitted_ids (b :: bs)
  = if id b =? null_bkt then emitted_ids bs else id b :: emitted_ids bs.
Proof. unfold emitted_ids. cbn. destruct (id b =? null_bkt); reflexivity. Qed.

(** A call of [next_bucket] in terms of the order. *)
Lemma next_bucket_sound rt d fuel st b st' :
  good st -> rng st -> next_bucket rt d fuel st = Done (b, st') ->
  good st' /\ rng st' /\ order st' = order st
  /\ precedes_eq (order st) (pos st) (pos st')
  /\ size (slot st' (cur_bkt st')) = 0
  /\ (id b <> null_bkt ->
      id b = pos st'
      /\ (size (slot st (cur_bkt st)) = 0 -> precedes (order st) (pos st) (pos st'))).
Proof.
  intros Hg Hr E. apply next_bucket_returns in E.
  destruct (returns_sound rt d st b st' E Hg Hr) as (G & R & D & Hm & Hz & Hid).
  split; [exact G|]. split; [exact R|]. split; [apply dir_order; exact D|].
  split; [apply dir_precedes_eq; exact Hm|]. split; [exact Hz|].
  intros Hn. destruct (Hid Hn) as [Hi Hs]. split; [exact Hi|].
  intros H0. apply dir_precedes. auto.
Qed.

(** Over a run whose batches take their slots from [to_range], the
    emitted bucket numbers do not go back. *)
Lemma run_sorted rt fuel evs : forall st bs st',
  good st -> rng st -> follows ranged rt fuel evs st ->
  run rt fuel evs st = Done (bs, st') ->
  good st' /\ rng st' /\ order st' = order st
  /\ precedes_eq (order st) (pos st) (pos st')
  /\ Forall (fun x => precedes_eq (order st) (pos st) x
                      /\ precedes_eq (order st) x (pos st')) (emitted_ids bs)
  /\ StronglySorted (precedes_eq (order st)) (emitted_ids bs).
Proof.
  induction evs as [|[f k|d] evs IH]; intros st bs st' Hg Hr Hf E.
  - injection E as <- <-. split; [exact Hg|]. split; [exact Hr|]. split; [reflexivity|].
    split; [apply precedes_eq_refl|]. split; constructor.
  - cbn [run follows] in *. destruct Hf as [Hrg Hf].
    destruct (update_ranged rt f k st Hg Hr Hrg) as (G1 & R1 & O1 & P1).
    destruct (IH _ _ _ G1 R1 Hf E) as (G & R & Ho & Hp & Hall & Hs).
    rewrite O1, P1 in *. auto 10.
  - cbn [run follows] in *.
    destruct (next_bucket rt d fuel st) as [[b st1]| |] eqn:En; try discriminate.
    destruct (run rt fuel evs st1) as [[bs1 st2]| |] eqn:Er; try discriminate.
    injection E as <- <-.
    destruct (next_bucket_sound rt d fuel st b st1 Hg Hr En) as (G1 & R1 & O1 & P1 & _ & Hid).
    destruct (IH _ _ _ G1 R1 Hf Er) as (G & R & Ho & Hp & Hall & Hs).
    rewrite O1 in *.
    assert (Hall' : Forall (fun x => precedes_eq (order st) (pos st) x
                                     /\ precedes_eq (order st) x (pos st2)) (emitted_ids bs1)).
    { eapply Forall_impl; [exact Hall|]. cbn. intros x [Hx1 Hx2].
      split; [|exact Hx2]. eapply precedes_eq_trans; eauto. }
    split; [exact G|]. split; [exact R|]. split; [congruence|].
    split; [eapply precedes_eq_trans; eauto|].
    rewrite emitted_ids_cons. destruct (Z.eqb_spec (id b) null_bkt) as [Eb|Eb].
    + split; assumption.
    + destruct (Hid Eb) as [Hi _]. split.
      * constructor; [|exact Hall']. rewrite Hi. split; assumption.
      * constructor; [exact Hs|]. eapply Forall_impl; [exact Hall|].
        cbn. intros x [Hx _]. rewrite Hi. exact Hx.
Qed.

(** Over a run in which no batch inserts into the slot under the cursor,
    each emitted bucket number is past the one before. *)
Lemma run_strict rt fuel evs : forall st bs st',
  good st -> rng st -> follows quiet rt fuel evs st ->
  run rt fuel evs st = Done (bs, st') ->
  Forall (precedes_eq (order st) (pos st)) (emitted_ids bs)
  /\ (size (slot st (cur_bkt st)) = 0 -> Forall (precedes (order st) (pos st)) (emitted_ids bs))
  /\ StronglySorted (precedes (order st)) (emitted_ids bs).
Proof.
  induction evs as [|[f k|d] evs IH]; intros st bs st' Hg Hr Hf E.
  - injection E as <- <-. repeat split; constructor.
  - cbn [run follows] in *. destruct Hf as [[Hrg Hq] Hf].
    destruct (update_ranged rt f k st Hg Hr Hrg) as (G1 & R1 & O1 & P1).
    destruct (IH _ _ _ G1 R1 Hf E) as (Hall & Hz & Hs).
    rewrite O1, P1 in *. split; [exact Hall|]. split; [|exact Hs].
    intros H0. apply Hz.
    destruct Hrg as [Hfit _].
    destruct (update_good rt f k st Hg Hfit) as (Eu & _ & _). rewrite Eu. cbn [snd].
    change (cur_bkt (apply_entries ?es ?x)) with (cur_bkt x).
    destruct Hg as [[HT Hob Hlen Hwf Hne Hcap Hrr] Hc].
    rewrite slot_apply_entries by lia.
    rewrite sel_none; [rewrite append_items_nil; exact H0|].
    intros [b v] He. apply elem_of_entries in He as (j & Hj & El).
    apply elem_of_seqZ in Hj. cbn [fst]. apply (Hq j b v); [lia|exact El].
  - cbn [run follows] in *.
    destruct (next_bucket rt d fuel st) as [[b st1]| |] eqn:En; try discriminate.
    destruct (run rt fuel evs st1) as [[bs1 st2]| |] eqn:Er; try discriminate.
    injection E as <- <-.
    destruct (next_bucket_sound rt d fuel st b st1 Hg Hr En) as (G1 & R1 & O1 & P1 & Z1 & Hid).
    destruct (IH _ _ _ G1 R1 Hf Er) as (_ & Hz & Hs). specialize (Hz Z1).
    rewrite O1 in *.
    assert (Hlt : Forall (precedes (order st) (pos st)) (emitted_ids bs1)).
    { eapply Forall_impl; [exact Hz|]. cbn. intros x Hx.
      eapply precedes_eq_lt; eauto. }
    rewrite emitted_ids_cons. destruct (Z.eqb_spec (id b) null_bkt) as [Eb|Eb].
    + split; [|split; [intros _; exact Hlt|exact Hs]].
      eapply Forall_impl; [exact Hlt|]. apply precedes_weaken.
    + destruct (Hid Eb) as [Hi Hst]. rewrite Hi. split; [|split].
      * constructor; [exact P1|]. eapply Forall_impl; [exact Hlt|]. apply precedes_weaken.
      * intros H0. constructor; [auto|exact Hlt].
      * constructor; [exact Hs|exact Hz].
Qed.

Lemma follows_next P rt fuel evs st : Forall is_next evs -> follows P rt fuel evs st.
Proof.
  intros H. revert st. induction H as [|[f k|d] evs Hn _ IH]; intros st; cbn [follows].
  - exact I.
  - destruct Hn.
  - destruct (next_bucket rt d fuel st) as [[b st1]| |]; auto.
Qed.

Lemma StronglySorted_app_Z (R : Z -> Z -> Prop) (l1 l2 : list Z) :
  StronglySorted R l1 -> StronglySorted R l2 ->
  (forall x y, x ∈ l1 -> y ∈ l2 -> R x y) ->
  StronglySorted R (l1 ++ l2).
Proof.
  intros H1 H2 H. induction H1 as [|x l1 Hs IH Hx]; [exact H2|].
  cbn [app]. constructor.
  - apply IH. intros a b Ha Hb. apply H; [right; exact Ha|exact Hb].
  - apply Forall_app. split; [exact Hx|].
    apply Forall_forall. intros y Hy. apply H; [left|exact Hy].
Qed.

Lemma StronglySorted_weaken (R S : Z -> Z -> Prop) (l : list Z) :
  (forall x y, R x y -> S x y) -> StronglySorted R l -> StronglySorted S l.
Proof.
  intros H Hs. induction Hs as [|x l _ IH Hx]; constructor; [exact IH|].
  eapply Forall_impl; [exact Hx|]. intros y. apply H.
Qed.

(** C2. In a run that starts at the constructor and whose update batches
    fit and take their slots from [to_range] (as [get_bucket] gives
    them), the emitted bucket numbers never go back in the configured
    order; and over any further stretch of the run in which no batch
    inserts into the slot under the cursor, in particular over calls of
    [next_bucket] with no update between them, each emitted bucket
    number is strictly past the one before, so none is emitted twice. *)
Theorem emitted_order rt n d0 o T fuel evs bs st :
  0 <= n < 2 ^ 31 -> 2 <= T < 2 ^ 32 ->
  follows ranged rt fuel evs (make_buckets rt n d0 o T) ->
  run rt fuel evs (make_buckets rt n d0 o T) = Done (bs, st) ->
  StronglySorted (precedes_eq o) (emitted_ids bs)
  /\ forall evs2 bs2 st2,
       follows quiet rt fuel evs2 st ->
       run rt fuel evs2 st = Done (bs2, st2) ->
       StronglySorted (precedes o) (emitted_ids bs2)
       /\ NoDup (emitted_ids bs2)
       /\ StronglySorted (precedes_eq o) (emitted_ids bs ++ emitted_ids bs2).
Proof.
  intros Hn HT Hf E.
  destruct (make_buckets_sound rt n d0 o T Hn HT) as (Hg & _ & Hr & Ho).
  destruct (run_sorted rt fuel evs _ _ _ Hg Hr Hf E) as (G & R & O1 & _ & Hall & Hs).
  rewrite Ho in *. split; [exact Hs|].
  intros evs2 bs2 st2 Hq E2.
  destruct (run_strict rt fuel evs2 _ _ _ G R Hq E2) as (Hall2 & _ & Hs2).
  rewrite O1 in *. split; [exact Hs2|]. split.
  - clear -Hs2. induction Hs2 as [|x l _ IH Hx]; constructor; [|exact IH].
    intros Hin. rewrite Forall_forall in Hx. specialize (Hx x Hin).
    destruct o; cbn in Hx; lia.
  - apply StronglySorted_app_Z.
    + exact Hs.
    + eapply StronglySorted_weaken; [|exact Hs2]. apply precedes_weaken.
    + intros x y Hx Hy. rewrite Forall_forall in Hall, Hall2.
      destruct (Hall x Hx) as [_ H1]. specialize (Hall2 y Hy).
      eapply precedes_eq_trans; eauto.
Qed.

Lemma emitted_order_witness :
  let rt := mk_runtime 1 2048 in
  let d0 := oracle_of_list [0; 1; 2] in
  let d1 := oracle_of_list [0; 0; 2] in
  let evs := [Next d0; Update (fun _ => Some (1, 0)) 1; Next d1] in
  exists bs st,
    run rt 9 evs (make_buckets rt 3 d0 increasing 4) = Done (bs, st)
    /\ emitted_ids bs = [0; 0]
    /\ StronglySorted (precedes_eq increasing) (emitted_ids bs)
    /\ exists bs2 st2,
         run rt 9 [Next d1; Next d1] st = Done (bs2, st2)
         /\ emitted_ids bs2 = [2]
         /\ StronglySorted (precedes increasing) (emitted_ids bs2)
         /\ StronglySorted (precedes_eq increasing) (emitted_ids bs ++ emitted_ids bs2).
Proof.
  cbv zeta.
  assert (Hf : follows ranged (mk_runtime 1 2048) 9
                 [Next (oracle_of_list [0; 1; 2]); Update (fun _ => Some (1, 0)) 1;
                  Next (oracle_of_list [0; 0; 2])]
                 (make_buckets (mk_runtime 1 2048) 3 (oracle_of_list [0; 1; 2]) increasing 4)).
  { cbn [follows].
    destruct (next_bucket _ (oracle_of_list [0; 1; 2]) 9 _) as [[b1 st1]| |] eqn:E1;
      [|exact I|exact I].
    vm_compute in E1. injection E1 as <- <-.
    split.
    - split; [split; [lia|split]|].
      + intros j b v Hj Hl. assert (j = 0) by lia. subst j.
        vm_compute in Hl. injection Hl as <- <-. vm_compute. reflexivity.
      + vm_compute. reflexivity.
      + intros j b v Hj Hl. assert (j = 0) by lia. subst j.
        vm_compute in Hl. injection Hl as <- <-.
        exists 0. split; [unfold null_bkt; lia|]. vm_compute. reflexivity.
    - destruct (next_bucket _ _ _ _) as [[? ?]| |]; exact I. }
  destruct (run (mk_runtime 1 2048) 9
              [Next (oracle_of_list [0; 1; 2]); Update (fun _ => Some (1, 0)) 1;
               Next (oracle_of_list [0; 0; 2])]
              (make_buckets (mk_runtime 1 2048) 3 (oracle_of_list [0; 1; 2]) increasing 4))
    as [[bs st]| |] eqn:E; try (vm_compute in E; discriminate).
  destruct (emitted_order (mk_runtime 1 2048) 3 (oracle_of_list [0; 1; 2]) increasing 4 9
              _ bs st ltac:(lia) ltac:(lia) Hf E) as [Hs Hnext].
  exists bs, st. split; [reflexivity|].
  split; [vm_compute in E; injection E as <- _; reflexivity|].
  split; [exact Hs|].
  destruct (run (mk_runtime 1 2048) 9
              [Next (oracle_of_list [0; 0; 2]); Next (oracle_of_list [0; 0; 2])] st)
    as [[bs2 st2]| |] eqn:E2;
    try (vm_compute in E; injection E as _ <-; vm_compute in E2; discriminate).
  assert (Hq : follows quiet (mk_runtime 1 2048) 9
                 [Next (oracle_of_list [0; 0; 2]); Next (oracle_of_list [0; 0; 2])] st).
  { apply follows_next. repeat constructor. }
  destruct (Hnext _ bs2 st2 Hq E2) as (Hs2 & _ & Hs12).
  exists bs2, st2. split; [reflexivity|].
  split; [vm_compute in E; injection E as _ <-; vm_compute in E2;
          injection E2 as <- _; reflexivity|].
  split; [exact Hs2|exact Hs12].
Defined.

(** The consumer has bucket 0 emitted with identifier 0, then moves
    identifier 1 to bucket 0 through [update_buckets], with the slot
    that [get_bucket] gives: bucket 0 is emitted a second time. *)
Lemma emitted_order_counterexample :
  let rt := mk_runtime 1 2048 in
  let d0 := oracle_of_list [0; 1; 2] in
  let d1 := oracle_of_list [0; 0; 2] in
  let st0 := make_buckets rt 3 d0 increasing 4 in
  exists b1 st1 bs st,
    next_bucket rt d0 9 st0 = Done (b1, st1)
    /\ get_bucket st1 1 0 = 0
    /\ run rt 9 [Next d0; Update (fun _ => Some (1, get_bucket st1 1 0)) 1; Next d1; Next d1] st0
       = Done (bs, st)
    /\ (fun b => (id b, vs_s (identifiers b))) <$> bs = [(0, [0]); (0, [1]); (2, [2])]
    /\ emitted_ids bs = [0; 0; 2].
Proof.
  cbv zeta.
  destruct (next_bucket (mk_runtime 1 2048) (oracle_of_list [0; 1; 2]) 9
              (make_buckets (mk_runtime 1 2048) 3 (oracle_of_list [0; 1; 2]) increasing 4))
    as [[b1 st1]| |] eqn:E1; try (vm_compute in E1; discriminate).
  vm_compute in E1. injection E1 as <- <-.
  do 4 eexists. split; [reflexivity|]. split; [reflexivity|].
  split; [vm_compute; reflexivity|]. split; reflexivity.
Qed.

(** ** Fuel and the runtime *)

(** More fuel does not change what a call returns. *)
Lemma next_bucket_mono rt d fuel : forall fuel' st r,
  (fuel <= fuel')%nat -> next_bucket rt d fuel st = Done r ->
  next_bucket rt d fuel' st = Done r.
Proof.
  induction fuel as [fuel IH] using lt_wf_ind. intros fuel' st r Hle H.
  destruct fuel as [|fuel]; [discriminate|].
  destruct fuel' as [|fuel']; [lia|].
  rewrite next_bucket_S in *.
  destruct (scan_cond st).
  - destruct (_next_bucket rt d st) as [st1| |]; try discriminate.
    apply (IH fuel); [lia|lia|exact H].
  - destruct (num_elms st =? 0); [exact H|].
    destruct fuel as [|fuel]; [discriminate|].
    destruct fuel' as [|fuel']; [lia|].
    rewrite get_cur_bucket_S in *.
    destruct (Z.of_nat (length (cur_filtered d st)) =? 0); [|exact H].
    apply (IH fuel); [lia|lia|exact H].
Qed.

Lemma drain_mono rt d fuel fuel' calls : forall calls' st l,
  (fuel <= fuel')%nat -> (calls <= calls')%nat ->
  drain rt d fuel calls st = Done l -> drain rt d fuel' calls' st = Done l.
Proof.
  induction calls as [|calls IH]; intros calls' st l Hf Hc H; [discriminate|].
  destruct calls' as [|calls']; [lia|]. cbn [drain] in *.
  destruct (next_bucket rt d fuel st) as [[b st1]| |] eqn:E; try discriminate.
  rewrite (next_bucket_mono rt d fuel fuel' st (b, st1) Hf E).
  destruct (id b =? null_bkt); [exact H|].
  destruct (drain rt d fuel calls st1) as [l1| |] eqn:E1; try discriminate.
  rewrite (IH calls' st1 l1 Hf ltac:(lia) E1). exact H.
Qed.

(** On a structure whose slots before the cursor are empty, what a call
    does is the same for every number of workers and every threshold. *)
Lemma _next_bucket_runtime rt rt' d st :
  good st -> below st -> scan_cond st = true ->
  _next_bucket rt d st = _next_bucket rt' d st.
Proof.
  intros Hg Hb Hs.
  destruct (skip_step rt d st Hg Hb Hs) as (s1 & E1 & _ & _ & C1).
  destruct (skip_step rt' d st Hg Hb Hs) as (s2 & E2 & _ & _ & C2).
  rewrite E1, E2. f_equal.
  destruct C1 as [(H1 & ->)|(H1 & _ & ->)], C2 as [(H2 & ->)|(H2 & _ & ->)];
    (reflexivity || lia).
Qed.

Lemma next_bucket_runtime rt rt' d fuel : forall st,
  good st -> below st -> next_bucket rt d fuel st = next_bucket rt' d fuel st.
Proof.
  induction fuel as [fuel IH] using lt_wf_ind. intros st Hg Hb.
  destruct fuel as [|fuel]; [reflexivity|].
  rewrite !next_bucket_S.
  destruct (scan_cond st) eqn:Ec.
  - rewrite (_next_bucket_runtime rt rt' d st Hg Hb Ec).
    destruct (skip_step rt' d st Hg Hb Ec) as (s1 & E1 & G1 & B1 & _).
    rewrite E1. apply IH; [lia|assumption|assumption].
  - destruct (Z.eqb_spec (num_elms st) 0) as [E0|E0]; [reflexivity|].
    destruct fuel as [|fuel]; [reflexivity|].
    rewrite !get_cur_bucket_S.
    destruct (Z.of_nat (length (cur_filtered d st)) =? 0); [|reflexivity].
    apply IH; [lia|apply good_drain_cur; exact Hg|apply below_drain_cur; assumption].
Qed.

Lemma drain_runtime rt rt' d fuel calls : forall st,
  good st -> below st -> drain rt d fuel calls st = drain rt' d fuel calls st.
Proof.
  induction calls as [|calls IH]; intros st Hg Hb; [reflexivity|].
  cbn [drain]. rewrite (next_bucket_runtime rt rt' d fuel st Hg Hb).
  destruct (next_bucket_tidy rt' d fuel st Hg Hb) as [E|(b & st1 & E & G1 & B1)];
    rewrite E; [reflexivity|].
  destruct (id b =? null_bkt); [reflexivity|].
  rewrite (IH st1 G1 B1). reflexivity.
Qed.

Lemma make_buckets_runtime rt rt' n d o T :
  0 <= n < 2 ^ 31 -> 2 <= T < 2 ^ 32 ->
  make_buckets rt n d o T = make_buckets rt' n d o T.
Proof. intros Hn HT. rewrite !make_buckets_closed by assumption. reflexivity. Qed.

(** C8. With [n = 5], [T = 3] (two open buckets), increasing order and
    the oracle [D = [0,1,2,3,4]], whatever the number of workers and the
    threshold: the constructor leaves range 0 with slots [{0}], [{1}]
    and overflow [{2,3,4}]; the calls of [next_bucket] return (0,{0}),
    (1,{1}), (2,{2}), (3,{3}), (4,{4}) in that order, the range being 1
    with overflow [{4}] from the third call and 2 with an empty overflow
    from the fifth; and the call after them returns the sentinel with an
    empty set. *)
Theorem overflow_scenario rt :
  let d := oracle_of_list [0; 1; 2; 3; 4] in
  let st0 := make_buckets rt 5 d increasing 3 in
  open_buckets st0 = 2
  /\ window st0 = (0, [[0]; [1]; [2; 3; 4]])
  /\ forall fuel calls, (10 <= fuel)%nat -> (6 <= calls)%nat ->
       exists l st5,
         drain rt d fuel calls st0 = Done l
         /\ emitted <$> l = [(0, [0]); (1, [1]); (2, [2]); (3, [3]); (4, [4])]
         /\ (fun r => window (snd r)) <$> l
            = [(0, [[]; [1]; [2; 3; 4]]); (0, [[]; []; [2; 3; 4]]);
               (1, [[]; [3]; [4]]); (1, [[]; []; [4]]); (2, [[]; []; []])]
         /\ last (snd <$> l) = Some st5
         /\ next_bucket rt d fuel st5 = Done (sentinel st5, st5)
         /\ id (sentinel st5) = null_bkt
         /\ vs_s (identifiers (sentinel st5)) = [].
Proof.
  cbv zeta. set (rt0 := mk_runtime 1 2048).
  set (d := oracle_of_list [0; 1; 2; 3; 4]).
  rewrite (make_buckets_runtime rt rt0 5 d increasing 3) by lia.
  destruct (make_buckets_sound rt0 5 d increasing 3 ltac:(lia) ltac:(lia))
    as (Hg & Hb & _).
  split; [reflexivity|]. split; [vm_compute; reflexivity|].
  intros fuel calls Hf Hc.
  rewrite (drain_runtime rt rt0 d fuel calls _ Hg Hb).
  destruct (drain rt0 d 10 6 (make_buckets rt0 5 d increasing 3)) as [l| |] eqn:E;
    try (vm_compute in E; discriminate).
  pose proof (drain_mono rt0 d 10 fuel 6 calls _ l Hf Hc E) as E'.
  vm_compute in E. injection E as <-.
  eexists. eexists. split; [exact E'|].
  split; [reflexivity|]. split; [reflexivity|]. split; [reflexivity|].
  split; [|split; reflexivity].
  destruct fuel as [|fuel]; [lia|]. reflexivity.
Qed.

(** ** The count of entries *)

Lemma scans_good rt d st st_e : scans rt d st st_e -> good st -> good st_e.
Proof.
  induction 1 as [st|st st1 st2 Ec En _ IH|st st2 Ec E0 Ef _ IH]; intros Hg.
  - exact Hg.
  - apply IH. eapply good_skip; eauto.
  - apply IH. apply good_drain_cur. exact Hg.
Qed.

Lemma length_filter_split {X} (p : X -> bool) (l : list X) :
  length l = (length (List.filter p l) + length (List.filter (fun x => negb (p x)) l))%nat.
Proof.
  induction l as [|x l IH]; [reflexivity|]. cbn [List.filter].
  destruct (p x); cbn [negb length]; lia.
Qed.

(** C7. The structure that the constructor builds counts in [num_elms]
    the identifiers of [0..n) that [D] does not map to the sentinel. And
    a call of [next_bucket] on a well-formed structure that returns a
    bucket returns it from the current slot of a state [st_e] it
    reached, leaving [num_elms] lower than in [st_e] by the size that
    this slot had before the filter, which is the size of the returned
    set plus the number of stale entries filtered out. *)
Theorem num_elms_conservation rt n d0 o T :
  0 <= n < 2 ^ 31 -> 2 <= T < 2 ^ 32 ->
  num_elms (make_buckets rt n d0 o T)
  = Z.of_nat (length (List.filter (fun i => negb (ask d0 i =? null_bkt)) (seqZ 0 n)))
  /\ good (make_buckets rt n d0 o T)
  /\ forall d fuel st b st',
       good st -> next_bucket rt d fuel st = Done (b, st') -> id b <> null_bkt ->
       exists st_e,
         scans rt d st st_e /\ b = cur_emit d st_e /\ st' = drain_cur st_e
         /\ num_elms st' = num_elms st_e - size (slot st_e (cur_bkt st_e))
         /\ num_filtered b = Some (size (slot st_e (cur_bkt st_e)))
         /\ size (slot st_e (cur_bkt st_e))
            = vs_m (identifiers b)
              + Z.of_nat (length (List.filter (fun i => negb (ask d i =? id b))
                                    (items (slot st_e (cur_bkt st_e)))))
         /\ vs_m (identifiers b) = Z.of_nat (length (vs_s (identifiers b))).
Proof.
  intros Hn HT.
  destruct (make_buckets_sound rt n d0 o T Hn HT) as (Hg0 & _).
  split; [|split; [exact Hg0|]].
  - rewrite make_buckets_closed by assumption.
    rewrite <- (length_init_entries n d0 o T). unfold apply_entries, init_state. simpl_st.
    apply wrap64_small.
    pose proof (length_omap_le (init_entry d0 (init_state n d0 o T)) (seqZ 0 n)) as Hl.
    rewrite length_seqZ in Hl. unfold init_entries. lia.
  - intros d fuel st b st' Hg H Hid.
    apply next_bucket_returns, returns_cases in H.
    destruct H as [(Hb & _)|(st_e & Hs & _ & _ & Hb & Hst)].
    { subst b. cbn in Hid. contradiction. }
    exists st_e. split; [exact Hs|]. split; [exact Hb|]. split; [exact Hst|].
    pose proof (scans_good rt d st st_e Hs Hg) as [[HT' Hob Hlen Hwf Hne Hcap Hr] Hc].
    pose proof (size_le_total st_e (cur_bkt st_e) Hwf ltac:(lia)) as Hsz.
    pose proof (total_size_nonneg st_e Hwf) as H0.
    subst b st'. cbn [cur_emit id num_filtered identifiers vs_m vs_s].
    split; [|split; [reflexivity|split; [|reflexivity]]].
    + unfold drain_cur. simpl_st. unfold sub64. apply wrap64_small. lia.
    + rewrite <- (length_items (slot st_e (cur_bkt st_e))) by (apply wf_slot; exact Hwf).
      unfold cur_filtered.
      rewrite (length_filter_split (fun i => ask d i =? get_cur_bucket_num st_e)
                 (items (slot st_e (cur_bkt st_e)))).
      lia.
Qed.

Lemma num_elms_conservation_witness :
  let rt := mk_runtime 1 2048 in
  let st := make_buckets rt 2 (oracle_of_list [1; 1]) increasing 128 in
  let d := oracle_of_list [2; 1] in
  num_elms st = 2
  /\ exists b st',
       next_bucket rt d 4 st = Done (b, st')
       /\ vs_s (identifiers b) = [1] /\ num_filtered b = Some 2 /\ num_elms st' = 0.
Proof.
  cbv zeta.
  destruct (num_elms_conservation (mk_runtime 1 2048) 2 (oracle_of_list [1; 1])
              increasing 128 ltac:(lia) ltac:(lia)) as (Hc & Hg & Hemit).
  split; [rewrite Hc; reflexivity|].
  destruct (next_bucket (mk_runtime 1 2048) (oracle_of_list [2; 1]) 4
              (make_buckets (mk_runtime 1 2048) 2 (oracle_of_list [1; 1]) increasing 128))
    as [[b st']| |] eqn:E; try (vm_compute in E; discriminate).
  exists b, st'. split; [reflexivity|].
  vm_compute in E. injection E as <- <-. repeat split; reflexivity.
Defined.

(** ** The two paths of [update_buckets] *)

Lemma length_entries_le f js : (length (entries f js) <= length js)%nat.
Proof. unfold entries. apply length_omap_le. Qed.

(** C5. For a batch that the structure can take, the blocked counting
    sort of [update_buckets] and the sequential path return the same
    count of inserted entries and leave the same [num_elms]; and each
    slot holds, after either, the identifiers it held before together
    with the identifiers that the batch sends to it, the two paths
    agreeing up to the order within the slot. Which path
    [update_buckets] takes is decided by the threshold and the number of
    workers, and its result is that of either. *)
Theorem update_buckets_paths_agree f k st :
  Forall wf_arr (bkts st) ->
  0 <= num_elms st < 2 ^ 64 ->
  Z.of_nat (length (bkts st)) = total_buckets st ->
  0 <= k < 2 ^ 32 ->
  batch_ok f k st ->
  fst (update_buckets_par f k st) = fst (update_buckets_seq f k st)
  /\ num_elms (snd (update_buckets_par f k st)) = num_elms (snd (update_buckets_seq f k st))
  /\ (forall s, 0 <= s < total_buckets st ->
        items (slot (snd (update_buckets_seq f k st)) s)
        = items (slot st s) ++ sel s (entries f (seqZ 0 k))
        /\ items (slot (snd (update_buckets_par f k st)) s)
           ≡ₚ items (slot (snd (update_buckets_seq f k st)) s))
  /\ (forall rt,
        update_buckets rt f k st
        = if (k <? kSequentialForThreshold rt) || (nworkers rt =? 1)
          then update_buckets_seq f k st else update_buckets_par f k st).
Proof.
  intros Hwf Hne Hlen Hk Hok.
  pose proof (update_buckets_par_closed f k st Hwf Hne Hlen Hk Hok) as Ep.
  pose proof (update_buckets_seq_closed f k st Hwf Hne Hok) as Es.
  split; [rewrite Ep, Es; reflexivity|]. split; [rewrite Ep, Es; reflexivity|].
  split; [|intros rt; reflexivity].
  intros s Hs. rewrite Ep, Es. cbn [snd]. rewrite slot_apply_entries by lia.
  rewrite items_append_items by (apply wf_slot; exact Hwf).
  split; reflexivity.
Qed.

Lemma update_buckets_paths_agree_witness :
  let st := make_buckets (mk_runtime 1 2048) 0 (oracle_of_list []) increasing 3 in
  let f : batch := fun j => if j mod 7 =? 0 then None else Some (wrap32 j, j mod 3) in
  let k := 8200 in
  fst (update_buckets_par f k st) = fst (update_buckets_seq f k st)
  /\ num_elms (snd (update_buckets_par f k st)) = num_elms (snd (update_buckets_seq f k st))
  /\ items (slot (snd (update_buckets_par f k st)) 2)
     ≡ₚ items (slot (snd (update_buckets_seq f k st)) 2).
Proof.
  cbv zeta.
  assert (Hst : make_buckets (mk_runtime 1 2048) 0 (oracle_of_list []) increasing 3
                = mk_buckets increasing [empty_arr; empty_arr; empty_arr] 0 3 0 0 0 2 3 true)
    by (vm_compute; reflexivity).
  rewrite Hst.
  destruct (update_buckets_paths_agree
              (fun j => if j mod 7 =? 0 then None else Some (wrap32 j, j mod 3)) 8200
              (mk_buckets increasing [empty_arr; empty_arr; empty_arr] 0 3 0 0 0 2 3 true))
    as (H1 & H2 & H3 & _).
  - repeat constructor; cbn; lia.
  - cbn. lia.
  - reflexivity.
  - lia.
  - split.
    + intros j b v Hj Hl. unfold live, get0, get1 in Hl.
      destruct (j mod 7 =? 0); cbv beta iota in Hl; [discriminate|]. cbn [fst snd] in Hl.
      destruct (_ =? null_bkt); [discriminate|]. injection Hl as <- _.
      cbn [length bkts].
      pose proof (Z.mod_pos_bound j 3 ltac:(lia)).
      rewrite wrap32_small by lia. lia.
    + intros s Hs. cbn [length bkts] in Hs.
      pose proof (length_sel_le s
                    (entries (fun j => if j mod 7 =? 0 then None else Some (wrap32 j, j mod 3))
                       (seqZ 0 8200))) as H1.
      pose proof (length_entries_le
                    (fun j => if j mod 7 =? 0 then None else Some (wrap32 j, j mod 3))
                    (seqZ 0 8200)) as H2.
      rewrite length_seqZ in H2.
      assert (Hz : size (slot (mk_buckets increasing [empty_arr; empty_arr; empty_arr]
                                 0 3 0 0 0 2 3 true) s) = 0).
      { assert (Hs3 : s = 0 \/ s = 1 \/ s = 2) by lia.
        destruct Hs3 as [->|[->| ->]]; reflexivity. }
      rewrite Hz. lia.
  - split; [exact H1|]. split; [exact H2|]. apply (H3 2). cbn. lia.
Defined.

(** ** Coverage with a fixed oracle *)

Lemma elem_of_sel s v (es : list (Z * Z)) : v ∈ sel s es <-> (s, v) ∈ es.
Proof.
  unfold sel. rewrite list_elem_of_fmap. split.
  - intros ([b w] & -> & H). apply list_elem_of_In, List.filter_In in H as [H E].
    cbn [fst snd] in *. apply Z.eqb_eq in E. subst b. apply list_elem_of_In. exact H.
  - intros H. exists (s, v). split; [reflexivity|].
    apply list_elem_of_In, List.filter_In. split; [apply list_elem_of_In; exact H|].
    cbn. apply Z.eqb_refl.
Qed.

Lemma filter_all {X} (p : X -> bool) (l : list X) :
  (forall x, x ∈ l -> p x = true) -> List.filter p l = l.
Proof.
  induction l as [|x l IH]; intros H; [reflexivity|]. cbn [List.filter].
  rewrite (H x) by left. f_equal. apply IH. intros y Hy. apply H. right. exact Hy.
Qed.

Lemma fmap_omap_id {X Y} (g : X -> option Y) (h : Y -> X) (l : list X) :
  (forall x, x ∈ l -> exists y, g x = Some y /\ h y = x) -> h <$> omap g l = l.
Proof.
  induction l as [|x l IH]; intros H; [reflexivity|].
  destruct (H x ltac:(left)) as (y & E & Hy).
  change (omap g (x :: l)) with (match g x with Some y => y :: omap g l | None => omap g l end).
  rewrite E, fmap_cons, Hy. f_equal. apply IH. intros z Hz. apply H. right. exact Hz.
Qed.

Lemma concat_indicator_list (b T : Z) (l : list Z) :
  0 <= b < T ->
  concat ((fun s => if b =? s then l else []) <$> seqZ 0 T) = l.
Proof.
  intros Hb. replace T with (b + (1 + (T - b - 1))) by lia.
  rewrite seqZ_app by lia. rewrite seqZ_app by lia.
  rewrite !fmap_app, !concat_app.
  rewrite (concat_fmap_nil _ (seqZ 0 b)).
  2:{ intros s Hs. apply elem_of_seqZ in Hs. destruct (Z.eqb_spec b s); [lia|reflexivity]. }
  rewrite (concat_fmap_nil _ (seqZ (0 + b + 1) (T - b - 1))).
  2:{ intros s Hs. apply elem_of_seqZ in Hs. destruct (Z.eqb_spec b s); [lia|reflexivity]. }
  change (seqZ (0 + b) 1) with [0 + b]. cbn [fmap list_fmap concat app].
  rewrite Z.add_0_l, Z.eqb_refl, !app_nil_r. reflexivity.
Qed.

Lemma all_items_drain_cur st :
  good st -> items (slot st (cur_bkt st)) ++ all_items (drain_cur st) ≡ₚ all_items st.
Proof.
  intros [[HT Hob Hlen Hwf Hne Hcap Hr] Hc]. unfold all_items.
  change (total_buckets (drain_cur st)) with (total_buckets st).
  rewrite <- (concat_indicator_list (cur_bkt st) (total_buckets st)
                (items (slot st (cur_bkt st)))) at 1 by lia.
  rewrite <- concat_fmap_app_perm.
  erewrite fmap_seqZ_ext; [reflexivity|].
  intros s Hs. cbn beta. rewrite slot_drain_cur by lia.
  destruct (Z.eqb_spec (cur_bkt st) s) as [<-|Hn].
  - rewrite Z.eqb_refl. unfold items at 2. cbn. rewrite app_nil_r. reflexivity.
  - destruct (Z.eqb_spec s (cur_bkt st)); [lia|]. reflexivity.
Qed.

Lemma all_items_only_overflow st :
  wf_st st -> (forall s, 0 <= s < open_buckets st -> size (slot st s) = 0) ->
  all_items st = items (slot st (open_buckets st)).
Proof.
  intros [HT Hob Hlen Hwf Hne Hcap Hr] H. unfold all_items.
  replace (total_buckets st) with (open_buckets st + 1) by lia.
  rewrite seqZ_app by lia. rewrite fmap_app, concat_app.
  rewrite concat_fmap_nil.
  - change (seqZ (0 + open_buckets st) 1) with [0 + open_buckets st].
    cbn [fmap list_fmap concat app]. rewrite Z.add_0_l, app_nil_r. reflexivity.
  - intros s Hs. apply elem_of_seqZ in Hs. apply items_nil. apply H. lia.
Qed.

(** Entries appended to empty slots, each where [to_range] sends the
    bucket number of its identifier. *)
Lemma content_apply_entries N d (es : list (Z * Z)) base :
  Forall wf_arr (bkts base) ->
  Z.of_nat (length (bkts base)) = total_buckets base ->
  (forall s, 0 <= s < total_buckets base -> size (slot base s) = 0) ->
  (forall e, e ∈ es -> 0 <= snd e < N /\ fst e = to_range base (ask d (snd e))) ->
  content N d (apply_entries es base).
Proof.
  intros Hwf Hlen Hz Hes s v Hs Hv.
  change (total_buckets (apply_entries es base)) with (total_buckets base) in Hs.
  rewrite slot_apply_entries in Hv by lia.
  rewrite items_append_items in Hv by (apply wf_slot; exact Hwf).
  rewrite (items_nil (slot base s)) in Hv by (apply Hz; exact Hs).
  cbn [app] in Hv. apply elem_of_sel in Hv.
  destruct (Hes _ Hv) as [H1 H2]. cbn [fst snd] in *. split; [exact H1|].
  rewrite H2. apply to_range_congr; reflexivity.
Qed.

Lemma togo_pos st : good st -> bounds st -> 0 < togo st.
Proof.
  intros [[HT Hob Hlen Hwf Hne Hcap Hr] Hc] Hb.
  unfold togo, pos, num_at, bounds in *. destruct (order st); nia.
Qed.

(** A turn of the loop of [next_bucket], the oracle being the one that
    the entries were classified with: no entry is lost. *)
Lemma sound_skip rt N d st :
  N <= 2 ^ 32 -> sound N d st -> scan_cond st = true ->
  exists st1,
    _next_bucket rt d st = Done st1 /\ sound N d st1
    /\ togo st1 = togo st - 1 /\ all_items st1 ≡ₚ all_items st.
Proof.
  intros HN (Hg & Hb & Hr & Hct) Hs.
  destruct (skip_step rt d st Hg Hb Hs) as (st1 & E & G1 & B1 & Hc).
  destruct (rng_skip rt d st st1 Hg Hr Hs E) as (R1 & Hp & Hd).
  pose proof (dir_order _ _ Hd) as Ho.
  exists st1. split; [exact E|].
  pose proof Hg as [Hwf Hcur]. pose proof Hwf as [HT Hob Hlen Hwfs Hne Hcap Hrr].
  destruct (scan_cond_true st Hwfs Hs) as [Hz Hpos].
  assert (Htogo : open_buckets st1 = open_buckets st -> togo st1 = togo st - 1).
  { intros HO. unfold togo. rewrite Ho, HO, Hp. unfold dir. destruct (order st); lia. }
  destruct Hc as [(Hlt & ->)|(E1 & Hm & ->)].
  - split; [|split; [apply Htogo; reflexivity|reflexivity]].
    split; [exact G1|]. split; [exact B1|]. split; [exact R1|].
    intros s v Hs' Hv. exact (Hct s v Hs' Hv).
  - set (sO := set_cur_bkt (open_buckets st) st) in *.
    pose proof (unpack_result_frame d sO) as (F1 & F2 & F3 & F4 & F5 & F6).
    pose proof (emptied_overflow_frame sO) as (Q1 & Q2 & Q3 & Q4 & Q5 & Q6 & Q7 & Q8).
    pose proof (advance_frame sO) as (A1 & A2 & A3 & _).
    assert (Hall : forall s, 0 <= s < open_buckets st -> size (slot st s) = 0).
    { intros s Hs'. destruct (decide (s = cur_bkt st)) as [->|Hn]; [exact Hz|].
      apply Hb. lia. }
    assert (Heo : forall s, 0 <= s < total_buckets (emptied_overflow sO) ->
                            size (slot (emptied_overflow sO) s) = 0).
    { intros s Hs'. rewrite Q3 in Hs'. change (total_buckets sO) with (total_buckets st) in Hs'.
      rewrite slot_emptied_overflow; [|change (bkts sO) with (bkts st);
                                        change (open_buckets sO) with (open_buckets st); lia|lia].
      change (open_buckets sO) with (open_buckets st).
      destruct (Z.eqb_spec s (open_buckets st)); [reflexivity|].
      apply (Hall s). lia. }
    assert (Hrange : forall b, to_range (emptied_overflow sO) b = to_range (advance sO) b).
    { intros b. apply to_range_congr; congruence. }
    assert (Hitem : forall v, v ∈ items (slot st (open_buckets st)) ->
              0 <= v < N
              /\ reclass d (emptied_overflow sO) v
                 = Some (to_range (emptied_overflow sO) (ask d v), v)).
    { intros v Hv. destruct (Hct (open_buckets st) v ltac:(lia) Hv) as [Hv1 Hv2].
      split; [exact Hv1|]. unfold reclass. cbv zeta.
      destruct Hr as [Hbd Hti].
      pose proof (to_range_advance sO (ask d v)) as Hadv.
      rewrite <- Hrange in Hadv.
      destruct (Z.eqb_spec (to_range (emptied_overflow sO) (ask d v)) null_bkt) as [En|En].
      - exfalso. revert En. apply Hadv.
        + change (open_buckets sO) with (open_buckets st). lia.
        + exact (proj1 Hrr).
        + exact Hbd.
        + apply ask_range.
        + exact Hv2.
      - rewrite wrap32_small by lia. reflexivity. }
    assert (Hes : snd <$> unpack_entries d sO = items (slot st (open_buckets st))).
    { unfold unpack_entries. apply fmap_omap_id. intros v Hv.
      destruct (Hitem v Hv) as [_ Hre]. eexists. split; [exact Hre|reflexivity]. }
    assert (Hwe : Forall wf_arr (bkts (emptied_overflow sO))).
    { apply wf_emptied_overflow. exact Hwfs. }
    assert (Hle : Z.of_nat (length (bkts (emptied_overflow sO)))
                  = total_buckets (emptied_overflow sO)).
    { rewrite Q8, Q3. exact Hlen. }
    split; [|split; [apply Htogo; cbn [open_buckets set_cur_bkt]; rewrite F2; reflexivity|]].
    + split; [exact G1|]. split; [exact B1|]. split; [exact R1|].
      assert (Hc' : content N d (apply_entries (unpack_entries d sO) (emptied_overflow sO))).
      { apply content_apply_entries; try assumption.
        intros e He. apply list_elem_of_omap in He as (v & Hv & Hre).
        destruct (Hitem v Hv) as [Hv1 Hre']. rewrite Hre' in Hre. injection Hre as <-.
        cbn [fst snd]. split; [exact Hv1|reflexivity]. }
      intros s v Hs' Hv. exact (Hc' s v Hs' Hv).
    + transitivity (all_items (apply_entries (unpack_entries d sO) (emptied_overflow sO)));
        [reflexivity|].
      rewrite all_items_apply_entries; try assumption.
      * rewrite (all_items_empty (emptied_overflow sO) Heo). cbn [app].
        rewrite Hes. rewrite (all_items_only_overflow st Hwf Hall). reflexivity.
      * intros e He. apply unpack_entries_slots in He; [exact He| |];
          change (open_buckets sO) with (open_buckets st);
          change (total_buckets sO) with (total_buckets st); lia.
Qed.

(** A call of [next_bucket] with the oracle that the entries were
    classified with returns: the sentinel when nothing is held, and
    otherwise all of the first slot that is not empty. *)
Lemma sound_call rt N d :
  N <= 2 ^ 32 -> (forall i, 0 <= i < N -> ask d i <> null_bkt) ->
  forall (m : nat) st, sound N d st -> togo st <= Z.of_nat m ->
    exists b st',
      returns rt d st b st' /\ sound N d st'
      /\ vs_s (identifiers b) ++ all_items st' ≡ₚ all_items st
      /\ ((id b = null_bkt /\ all_items st = [])
          \/ (id b <> null_bkt /\ vs_s (identifiers b) <> [])).
Proof.
  intros HN Hd. induction m as [|m IH]; intros st Hsd Hm.
  { destruct Hsd as (Hg & _ & [Hb _] & _). pose proof (togo_pos st Hg Hb). lia. }
  destruct (scan_cond st) eqn:Ec.
  - destruct (sound_skip rt N d st HN Hsd Ec) as (st1 & E & S1 & T1 & P1).
    destruct (IH st1 S1 ltac:(lia)) as (b & st' & Hret & S' & Hperm & Hcase).
    exists b, st'. split; [eapply returns_skip; eauto|]. split; [exact S'|].
    split; [rewrite Hperm; exact P1|].
    destruct Hcase as [[Hi Hnil]|Hcase]; [left|right; exact Hcase].
    split; [exact Hi|]. rewrite Hnil in P1.
    apply Permutation_nil in P1. exact P1.
  - pose proof Hsd as (Hg & Hb & Hr & Hct).
    pose proof Hg as [Hwf Hcur]. pose proof Hwf as [HT Hob Hlen Hwfs Hne Hcap Hrr].
    pose proof (total_size_nonneg st Hwfs) as H0.
    destruct (Z.eq_dec (num_elms st) 0) as [E0|E0].
    + exists (sentinel st), st. split; [apply returns_exhausted; assumption|].
      split; [exact Hsd|]. split; [reflexivity|]. left. split; [reflexivity|].
      apply all_items_empty. intros s Hs. apply total_size_zero; [exact Hwfs|lia|exact Hs].
    + pose proof (scan_cond_false st Ec E0 ltac:(lia)) as Hsz.
      destruct Hr as [Hbd Hti]. specialize (Hti ltac:(lia)).
      destruct (get_cur_bucket_num_at st) as [Hnum Hnn]; try assumption; try lia.
      assert (Hkeep : forall v, v ∈ items (slot st (cur_bkt st)) ->
                        0 <= v < N /\ ask d v = get_cur_bucket_num st).
      { intros v Hv. destruct (Hct (cur_bkt st) v ltac:(lia) Hv) as [Hv1 Hv2].
        split; [exact Hv1|]. rewrite Hnum.
        apply (to_range_open st (ask d v) (cur_bkt st)); try assumption; try lia.
        apply ask_range. }
      assert (Hf : cur_filtered d st = items (slot st (cur_bkt st))).
      { unfold cur_filtered. apply filter_all. intros v Hv.
        apply Z.eqb_eq. apply (Hkeep v Hv). }
      assert (Hnn' : items (slot st (cur_bkt st)) <> []).
      { intros En. pose proof (length_items (slot st (cur_bkt st))
                                 (wf_slot st (cur_bkt st) Hwfs)) as Hl.
        rewrite En in Hl. cbn [length] in Hl. lia. }
      exists (cur_emit d st), (drain_cur st).
      split; [apply returns_emit; [exact Ec|exact E0|rewrite Hf; exact Hnn']|].
      split; [|split].
      * split; [apply good_drain_cur; exact Hg|].
        split; [apply below_drain_cur; assumption|].
        split; [apply rng_drain_cur; [exact Hg|split; [exact Hbd|intros _; exact Hti]]|].
        intros s v Hs Hv.
        change (total_buckets (drain_cur st)) with (total_buckets st) in Hs.
        rewrite slot_drain_cur in Hv by lia.
        destruct (Z.eqb_spec s (cur_bkt st)) as [->|Hn].
        -- unfold items in Hv. cbn in Hv. apply elem_of_nil in Hv. contradiction.
        -- exact (Hct s v Hs Hv).
      * cbn [cur_emit identifiers vs_s]. rewrite Hf. apply all_items_drain_cur. exact Hg.
      * right. cbn [cur_emit identifiers vs_s id]. rewrite Hf. split; [|exact Hnn'].
        destruct (items (slot st (cur_bkt st))) as [|v l] eqn:Ei; [contradiction|].
        destruct (Hkeep v ltac:(left)) as [Hv1 Hv2]. rewrite <- Hv2. apply Hd. exact Hv1.
Qed.

(** The consumer's loop returns every identifier held, once. *)
Lemma sound_drain rt N d :
  N <= 2 ^ 32 -> (forall i, 0 <= i < N -> ask d i <> null_bkt) ->
  forall (k : nat) st, sound N d st -> (length (all_items st) <= k)%nat ->
    exists fuel0 calls0 l,
      (forall fuel calls, (fuel0 <= fuel)%nat -> (calls0 <= calls)%nat ->
         drain rt d fuel calls st = Done l)
      /\ concat ((fun r => vs_s (identifiers (fst r))) <$> l) ≡ₚ all_items st
      /\ Forall (fun r => id (fst r) <> null_bkt /\ vs_s (identifiers (fst r)) <> []) l.
Proof.
  intros HN Hd. induction k as [|k IH]; intros st Hsd Hk;
    destruct (sound_call rt N d HN Hd (Z.to_nat (togo st)) st Hsd ltac:(lia))
      as (b & st' & Hret & S' & Hperm & Hcase);
    destruct (returns_next_bucket rt d st b st' Hret) as (f0 & Hf0).
  - destruct Hcase as [[Hi Hnil]|[Hi Hne]].
    + exists f0, 1%nat, []. split; [|split; [rewrite Hnil; reflexivity|constructor]].
      intros fuel calls Hf Hc. destruct calls as [|calls]; [lia|].
      cbn [drain]. rewrite (Hf0 fuel Hf). rewrite Hi, Z.eqb_refl. reflexivity.
    + exfalso. apply Permutation_length in Hperm. rewrite length_app in Hperm.
      destruct (vs_s (identifiers b)); [contradiction|]. cbn [length] in Hperm. lia.
  - destruct Hcase as [[Hi Hnil]|[Hi Hne]].
    + exists f0, 1%nat, []. split; [|split; [rewrite Hnil; reflexivity|constructor]].
      intros fuel calls Hf Hc. destruct calls as [|calls]; [lia|].
      cbn [drain]. rewrite (Hf0 fuel Hf). rewrite Hi, Z.eqb_refl. reflexivity.
    + assert (Hlen : (length (all_items st') <= k)%nat).
      { apply Permutation_length in Hperm. rewrite length_app in Hperm.
        destruct (vs_s (identifiers b)); [contradiction|]. cbn [length] in Hperm. lia. }
      destruct (IH st' S' Hlen) as (f1 & c1 & l & Hrun & Hl & Hall).
      exists (Nat.max f0 f1), (S c1), ((b, st') :: l). split; [|split].
      * intros fuel calls Hf Hc. destruct calls as [|calls]; [lia|].
        cbn [drain]. rewrite (Hf0 fuel ltac:(lia)).
        destruct (Z.eqb_spec (id b) null_bkt); [contradiction|].
        rewrite (Hrun fuel calls ltac:(lia) ltac:(lia)). reflexivity.
      * rewrite fmap_cons. cbn [concat fst]. rewrite Hl. exact Hperm.
      * constructor; [split; assumption|exact Hall].
Qed.

Lemma sound_make_buckets rt n d o T :
  0 <= n < 2 ^ 31 -> 2 <= T < 2 ^ 32 ->
  (forall i, 0 <= i < n -> ask d i <> null_bkt) ->
  sound n d (make_buckets rt n d o T)
  /\ all_items (make_buckets rt n d o T) ≡ₚ seqZ 0 n.
Proof.
  intros Hn HT Hd.
  destruct (make_buckets_sound rt n d o T Hn HT) as (Hg & Hb & Hr & _).
  pose proof (wf_init_state n d o T HT) as [HT' Hob Hlen Hwfs Hne Hcap Hrr].
  assert (Hes : forall e, e ∈ init_entries n d o T ->
                          0 <= fst e < total_buckets (init_state n d o T)).
  { intros e He. apply init_entries_slots in He; [|exact HT].
    change (total_buckets (init_state n d o T)) with T. lia. }
  split.
  - split; [exact Hg|]. split; [exact Hb|]. split; [exact Hr|].
    rewrite make_buckets_closed by assumption.
    apply content_apply_entries; try assumption.
    + intros s _. rewrite slot_init_state. reflexivity.
    + intros e He. apply init_entries_slots in He; [|exact HT]. tauto.
  - rewrite make_buckets_closed by assumption.
    rewrite all_items_apply_entries by assumption.
    rewrite all_items_empty by (intros s _; rewrite slot_init_state; reflexivity).
    cbn [app]. unfold init_entries. rewrite fmap_omap_id; [reflexivity|].
    intros i Hi. apply elem_of_seqZ in Hi. unfold init_entry.
    destruct (Z.eqb_spec (ask d i) null_bkt) as [E|E]; [exfalso; apply (Hd i); [lia|exact E]|].
    eexists. split; reflexivity.
Qed.

(** C1. With an oracle that maps every identifier of [0..n) to a bucket
    number other than the sentinel and is not changed afterwards, the
    consumer's loop on the structure that the constructor builds comes
    to the sentinel, given enough fuel and calls, and the sets returned
    before it hold every identifier of [0..n) exactly once: their
    concatenation is a permutation of [0..n). No returned set is
    empty. *)
Theorem drain_covers rt n d o T :
  0 <= n < 2 ^ 31 -> 2 <= T < 2 ^ 32 ->
  (forall i, 0 <= i < n -> ask d i <> null_bkt) ->
  exists fuel0 calls0 l,
    (forall fuel calls, (fuel0 <= fuel)%nat -> (calls0 <= calls)%nat ->
       drain rt d fuel calls (make_buckets rt n d o T) = Done l)
    /\ concat ((fun r => vs_s (identifiers (fst r))) <$> l) ≡ₚ seqZ 0 n
    /\ NoDup (concat ((fun r => vs_s (identifiers (fst r))) <$> l))
    /\ (forall i, 0 <= i < n <->
                  i ∈ concat ((fun r => vs_s (identifiers (fst r))) <$> l))
    /\ Forall (fun r => id (fst r) <> null_bkt /\ vs_s (identifiers (fst r)) <> []) l.
Proof.
  intros Hn HT Hd.
  destruct (sound_make_buckets rt n d o T Hn HT Hd) as [Hsd Hall].
  destruct (sound_drain rt n d ltac:(lia) Hd _ _ Hsd (Nat.le_refl _))
    as (f0 & c0 & l & Hrun & Hl & Hne).
  exists f0, c0, l. split; [exact Hrun|].
  assert (Hp : concat ((fun r => vs_s (identifiers (fst r))) <$> l) ≡ₚ seqZ 0 n).
  { rewrite Hl. exact Hall. }
  split; [exact Hp|]. split; [rewrite Hp; apply NoDup_seqZ|]. split; [|exact Hne].
  intros i. rewrite Hp, elem_of_seqZ. lia.
Qed.

Lemma drain_covers_witness :
  let rt := mk_runtime 4 2048 in
  let d := oracle_of_list [7; 0; 3; 3; 12] in
  exists fuel0 calls0 l,
    drain rt d fuel0 calls0 (make_buckets rt 5 d decreasing 3) = Done l
    /\ concat ((fun r => vs_s (identifiers (fst r))) <$> l) ≡ₚ [0; 1; 2; 3; 4]
    /\ emitted <$> l = [(12, [4]); (7, [0]); (3, [2; 3]); (0, [1])].
Proof.
  cbv zeta.
  destruct (drain_covers (mk_runtime 4 2048) 5 (oracle_of_list [7; 0; 3; 3; 12])
              decreasing 3) as (f0 & c0 & l & Hrun & Hp & _).
  - lia.
  - lia.
  - intros i Hi.
    assert (Hc : i = 0 \/ i = 1 \/ i = 2 \/ i = 3 \/ i = 4) by lia.
    destruct Hc as [->|[->|[->|[->| ->]]]]; vm_compute; discriminate.
  - exists (Nat.max f0 40), (Nat.max c0 8), l.
    pose proof (Hrun (Nat.max f0 40) (Nat.max c0 8) ltac:(lia) ltac:(lia)) as E.
    split; [exact E|]. split; [exact Hp|].
    assert (E' : drain (mk_runtime 4 2048) (oracle_of_list [7; 0; 3; 3; 12]) 40 8
                   (make_buckets (mk_runtime 4 2048) 5 (oracle_of_list [7; 0; 3; 3; 12])
                      decreasing 3)
                 = Done l).
    { destruct (drain (mk_runtime 4 2048) (oracle_of_list [7; 0; 3; 3; 12]) 40 8
                  (make_buckets (mk_runtime 4 2048) 5 (oracle_of_list [7; 0; 3; 3; 12])
                     decreasing 3)) as [l'| |] eqn:E1; try (vm_compute in E1; discriminate).
      pose proof (drain_mono _ _ 40 (Nat.max f0 40) 8 (Nat.max c0 8) _ l'
                    ltac:(lia) ltac:(lia) E1) as E2.
      rewrite E in E2. injection E2 as ->. reflexivity. }
    vm_compute in E'. injection E' as <-. reflexivity.
Defined.

(** ** Every call of [next_bucket] returns *)

Lemma togo_skip rt d st st1 :
  good st -> rng st -> scan_cond st = true -> _next_bucket rt d st = Done st1 ->
  togo st1 = togo st - 1.
Proof.
  intros Hg Hr Hs E.
  destruct (rng_skip rt d st st1 Hg Hr Hs E) as (_ & Hp & Hd).
  pose proof (dir_order _ _ Hd) as Ho.
  assert (HO : open_buckets st1 = open_buckets st).
  { destruct (skip_cases rt d st st1 Hg Hs E) as [(_ & ->)|(_ & _ & ->)]; [reflexivity|].
    pose proof (unpack_result_frame d (set_cur_bkt (open_buckets st) st)) as (_ & F2 & _).
    cbn [open_buckets set_cur_bkt]. rewrite F2. reflexivity. }
  unfold togo. rewrite Ho, HO, Hp. unfold dir. destruct (order st); lia.
Qed.

(** Whatever the oracle, a call on a tidy structure returns: each turn
    of the loop brings the cursor nearer the end of the bucket numbers,
    and a slot of stale entries is dropped once. *)
Lemma tidy_returns rt d :
  forall (m : nat) st, tidy st ->
    2 * togo st + (if 0 <? size (slot st (cur_bkt st)) then 1 else 0) <= Z.of_nat m ->
    exists b st', returns rt d st b st' /\ tidy st'.
Proof.
  induction m as [|m IH]; intros st (Hg & Hb & Hr) Hm.
  { pose proof (togo_pos st Hg (proj1 Hr)). destruct (0 <? size (slot st (cur_bkt st))); lia. }
  pose proof Hg as [Hwf Hcur]. pose proof Hwf as [HT Hob Hlen Hwfs Hne Hcap Hrr].
  pose proof (total_size_nonneg st Hwfs) as H0.
  destruct (scan_cond st) eqn:Ec.
  - destruct (skip_step rt d st Hg Hb Ec) as (st1 & E & G1 & B1 & _).
    destruct (rng_skip rt d st st1 Hg Hr Ec E) as (R1 & _ & _).
    pose proof (togo_skip rt d st st1 Hg Hr Ec E) as Ht.
    destruct (IH st1) as (b & st' & Hret & Ht').
    + split; [exact G1|]. split; [exact B1|exact R1].
    + destruct (0 <? size (slot st1 (cur_bkt st1)));
        destruct (0 <? size (slot st (cur_bkt st))); lia.
    + exists b, st'. split; [eapply returns_skip; eauto|exact Ht'].
  - destruct (Z.eq_dec (num_elms st) 0) as [E0|E0].
    + exists (sentinel st), st. split; [apply returns_exhausted; assumption|].
      split; [exact Hg|]. split; [exact Hb|exact Hr].
    + pose proof (scan_cond_false st Ec E0 ltac:(lia)) as Hsz.
      assert (Htd : tidy (drain_cur st)).
      { split; [apply good_drain_cur; exact Hg|].
        split; [apply below_drain_cur; assumption|apply rng_drain_cur; assumption]. }
      destruct (cur_filtered d st) as [|v l] eqn:Ef.
      * destruct (IH (drain_cur st) Htd) as (b & st' & Hret & Ht').
        -- change (cur_bkt (drain_cur st)) with (cur_bkt st).
           rewrite slot_drain_cur by lia. rewrite Z.eqb_refl. cbn [size].
           change (togo (drain_cur st)) with (togo st).
           destruct (Z.ltb_spec 0 (size (slot st (cur_bkt st)))); [|lia].
           change (0 <? 0) with false. lia.
        -- exists b, st'. split; [|exact Ht'].
           apply returns_stale; assumption.
      * exists (cur_emit d st), (drain_cur st). split; [|exact Htd].
        apply returns_emit; [exact Ec|exact E0|rewrite Ef; discriminate].
Qed.

(** X1. Tidy structures: the constructor builds one; [update_buckets]
    keeps a structure tidy when the batch fits, inserts at or after the
    cursor and takes its slots from [to_range]; and on a tidy structure
    [next_bucket] returns, whatever the oracle has become, given enough
    fuel: it does not stop on the assertion of [unpack], it does not
    loop, and it leaves the structure tidy. *)
Theorem next_bucket_terminates rt :
  (forall n d o T, 0 <= n < 2 ^ 31 -> 2 <= T < 2 ^ 32 -> tidy (make_buckets rt n d o T))
  /\ (forall f k st, tidy st -> forward st f k -> ranged st f k ->
        tidy (snd (update_buckets rt f k st)))
  /\ (forall d st, tidy st ->
        exists fuel0 b st',
          (forall fuel, (fuel0 <= fuel)%nat -> next_bucket rt d fuel st = Done (b, st'))
          /\ tidy st').
Proof.
  split; [|split].
  - intros n d o T Hn HT.
    destruct (make_buckets_sound rt n d o T Hn HT) as (Hg & Hb & Hr & _).
    split; [exact Hg|]. split; [exact Hb|exact Hr].
  - intros f k st (Hg & Hb & Hr) Hfw Hrg.
    destruct (update_forward rt f k st Hg Hb Hfw) as [G1 B1].
    destruct (update_ranged rt f k st Hg Hr Hrg) as (_ & R1 & _).
    split; [exact G1|]. split; [exact B1|exact R1].
  - intros d st Ht.
    destruct (tidy_returns rt d
                (Z.to_nat (2 * togo st
                           + (if 0 <? size (slot st (cur_bkt st)) then 1 else 0))) st Ht)
      as (b & st' & Hret & Ht'); [lia|].
    destruct (returns_next_bucket rt d st b st' Hret) as (f0 & Hf0).
    exists f0, b, st'. split; [exact Hf0|exact Ht'].
Qed.

(** ** The consumer's loop sorts by bucket *)

Lemma emit_filter rt d fuel st b st' :
  next_bucket rt d fuel st = Done (b, st') -> id b <> null_bkt ->
  forall i, i ∈ vs_s (identifiers b) -> ask d i = id b.
Proof.
  intros H Hid i Hi. apply next_bucket_returns, returns_cases in H.
  destruct H as [(Hb & _)|(st_e & _ & _ & _ & Hb & _)]; subst b.
  - cbn in Hid. contradiction.
  - cbn [cur_emit identifiers vs_s id] in *. unfold cur_filtered in Hi.
    apply list_elem_of_In, List.filter_In in Hi as [_ Hi].
    apply Z.eqb_eq in Hi. exact Hi.
Qed.

(** The buckets that the loop returns come in the order of their bucket
    numbers, strictly, and hold identifiers of their bucket only. *)
Lemma drain_sorted rt d fuel calls : forall st l,
  good st -> rng st -> drain rt d fuel calls st = Done l ->
  Forall (fun r => precedes_eq (order st) (pos st) (id (fst r))) l
  /\ (size (slot st (cur_bkt st)) = 0 ->
      Forall (fun r => precedes (order st) (pos st) (id (fst r))) l)
  /\ StronglySorted (fun r r' => precedes (order st) (id (fst r)) (id (fst r'))) l
  /\ Forall (fun r => forall i, i ∈ vs_s (identifiers (fst r)) -> ask d i = id (fst r)) l.
Proof.
  induction calls as [|calls IH]; intros st l Hg Hr H; [discriminate|].
  cbn [drain] in H.
  destruct (next_bucket rt d fuel st) as [[b st1]| |] eqn:En; try discriminate.
  destruct (Z.eqb_spec (id b) null_bkt) as [Eb|Eb].
  { injection H as <-. repeat split; constructor. }
  destruct (drain rt d fuel calls st1) as [l1| |] eqn:Ed; try discriminate.
  injection H as <-.
  destruct (next_bucket_sound rt d fuel st b st1 Hg Hr En) as (G1 & R1 & O1 & P1 & Z1 & Hid).
  destruct (Hid Eb) as [Hi Hst].
  destruct (IH st1 l1 G1 R1 Ed) as (_ & Hlt & Hs & Hf). specialize (Hlt Z1).
  rewrite O1 in *. cbn [fst].
  assert (Hlt' : Forall (fun r => precedes (order st) (id b) (id (fst r))) l1).
  { rewrite Hi. exact Hlt. }
  split; [|split; [|split]].
  - constructor; [cbn [fst]; rewrite Hi; exact P1|].
    eapply Forall_impl; [exact Hlt'|]. cbn. intros r Hr'.
    apply precedes_weaken. eapply precedes_eq_lt; [|exact Hr']. rewrite Hi. exact P1.
  - intros H0. constructor; [cbn [fst]; rewrite Hi; auto|].
    eapply Forall_impl; [exact Hlt'|]. cbn. intros r Hr'.
    eapply precedes_eq_lt; [|exact Hr']. rewrite Hi. exact P1.
  - constructor; [exact Hs|exact Hlt'].
  - constructor; [|exact Hf]. cbn [fst]. apply (emit_filter rt d fuel st b st1 En Eb).
Qed.

Lemma precedes_irrefl o x : ~ precedes o x x.
Proof. destruct o; cbn; lia. Qed.

Lemma sorted_same_id o (l : list (bucket * buckets)) r r' :
  StronglySorted (fun r r' => precedes o (id (fst r)) (id (fst r'))) l ->
  r ∈ l -> r' ∈ l -> id (fst r) = id (fst r') -> r = r'.
Proof.
  intros Hs. induction Hs as [|x l Hs IH Hx]; intros Hr Hr' E.
  - apply elem_of_nil in Hr. contradiction.
  - rewrite Forall_forall in Hx.
    apply elem_of_cons in Hr as [->|Hr]; apply elem_of_cons in Hr' as [->|Hr'].
    + reflexivity.
    + exfalso. specialize (Hx r' Hr'). rewrite E in Hx. exact (precedes_irrefl _ _ Hx).
    + exfalso. specialize (Hx r Hr). rewrite E in Hx. exact (precedes_irrefl _ _ Hx).
    + auto.
Qed.

(** X2. With an oracle that maps every identifier of [0..n) to a bucket
    number other than the sentinel and is not changed afterwards, the
    consumer's loop is a bucket sort: it comes to the sentinel, the
    buckets it returns come strictly in the configured order of their
    bucket numbers, and each returned set holds exactly the identifiers
    of [0..n) that the oracle maps to its bucket number. *)
Theorem drain_bucket_sort rt n d o T :
  0 <= n < 2 ^ 31 -> 2 <= T < 2 ^ 32 ->
  (forall i, 0 <= i < n -> ask d i <> null_bkt) ->
  exists fuel0 calls0 l,
    (forall fuel calls, (fuel0 <= fuel)%nat -> (calls0 <= calls)%nat ->
       drain rt d fuel calls (make_buckets rt n d o T) = Done l)
    /\ StronglySorted (fun r r' => precedes o (id (fst r)) (id (fst r'))) l
    /\ (forall r, r ∈ l ->
          forall i, i ∈ vs_s (identifiers (fst r)) <-> 0 <= i < n /\ ask d i = id (fst r))
    /\ (forall i, 0 <= i < n -> exists r, r ∈ l /\ id (fst r) = ask d i).
Proof.
  intros Hn HT Hd.
  destruct (sound_make_buckets rt n d o T Hn HT Hd) as [Hsd Hall].
  destruct (sound_drain rt n d ltac:(lia) Hd _ _ Hsd (Nat.le_refl _))
    as (f0 & c0 & l & Hrun & Hl & _).
  destruct (make_buckets_sound rt n d o T Hn HT) as (Hg & _ & Hr & Ho).
  destruct (drain_sorted rt d f0 c0 _ l Hg Hr (Hrun f0 c0 (Nat.le_refl _) (Nat.le_refl _)))
    as (_ & _ & Hs & Hf).
  rewrite Ho in Hs. rewrite Forall_forall in Hf.
  assert (Hp : concat ((fun r => vs_s (identifiers (fst r))) <$> l) ≡ₚ seqZ 0 n).
  { rewrite Hl. exact Hall. }
  assert (Hin : forall i, 0 <= i < n ->
                  exists r, r ∈ l /\ i ∈ vs_s (identifiers (fst r))).
  { intros i Hi. assert (Hc : i ∈ seqZ 0 n) by (apply elem_of_seqZ; lia).
    rewrite <- Hp in Hc. apply list_elem_of_In, in_concat in Hc as (s & Hs1 & Hs2).
    apply list_elem_of_In, list_elem_of_fmap in Hs1 as (r & -> & Hrl).
    exists r. split; [exact Hrl|apply list_elem_of_In; exact Hs2]. }
  exists f0, c0, l. split; [exact Hrun|]. split; [exact Hs|]. split.
  - intros r Hrl i. split.
    + intros Hi. split; [|apply (Hf r Hrl i Hi)].
      assert (Hc : i ∈ concat ((fun r => vs_s (identifiers (fst r))) <$> l)).
      { apply list_elem_of_In, in_concat. exists (vs_s (identifiers (fst r))).
        split; [|apply list_elem_of_In; exact Hi].
        apply list_elem_of_In. apply list_elem_of_fmap. exists r. split; [reflexivity|exact Hrl]. }
      rewrite Hp in Hc. apply elem_of_seqZ in Hc. lia.
    + intros [Hi Ha]. destruct (Hin i Hi) as (r' & Hr'l & Hi').
      pose proof (Hf r' Hr'l i Hi') as Ha'.
      assert (r' = r) as ->; [|exact Hi'].
      apply (sorted_same_id o l); auto. congruence.
  - intros i Hi. destruct (Hin i Hi) as (r & Hrl & Hir).
    exists r. split; [exact Hrl|]. symmetry. apply (Hf r Hrl i Hir).
Qed.

Lemma drain_bucket_sort_witness :
  let rt := mk_runtime 2 2048 in
  let d := oracle_of_list [5; 1; 5; 9; 1; 0] in
  exists fuel0 calls0 l,
    drain rt d fuel0 calls0 (make_buckets rt 6 d increasing 4) = Done l
    /\ emitted <$> l = [(0, [5]); (1, [1; 4]); (5, [0; 2]); (9, [3])]
    /\ StronglySorted (fun r r' => precedes increasing (id (fst r)) (id (fst r'))) l.
Proof.
  cbv zeta.
  destruct (drain_bucket_sort (mk_runtime 2 2048) 6 (oracle_of_list [5; 1; 5; 9; 1; 0])
              increasing 4) as (f0 & c0 & l & Hrun & Hs & _).
  - lia.
  - lia.
  - intros i Hi.
    assert (Hc : i = 0 \/ i = 1 \/ i = 2 \/ i = 3 \/ i = 4 \/ i = 5) by lia.
    destruct Hc as [->|[->|[->|[->|[->| ->]]]]]; vm_compute; discriminate.
  - exists (Nat.max f0 40), (Nat.max c0 8), l.
    pose proof (Hrun (Nat.max f0 40) (Nat.max c0 8) ltac:(lia) ltac:(lia)) as E.
    split; [exact E|]. split; [|exact Hs].
    assert (E' : drain (mk_runtime 2 2048) (oracle_of_list [5; 1; 5; 9; 1; 0]) 40 8
                   (make_buckets (mk_runtime 2 2048) 6 (oracle_of_list [5; 1; 5; 9; 1; 0])
                      increasing 4)
                 = Done l).
    { destruct (drain (mk_runtime 2 2048) (oracle_of_list [5; 1; 5; 9; 1; 0]) 40 8
                  (make_buckets (mk_runtime 2 2048) 6 (oracle_of_list [5; 1; 5; 9; 1; 0])
                     increasing 4)) as [l'| |] eqn:E1; try (vm_compute in E1; discriminate).
      pose proof (drain_mono _ _ 40 (Nat.max f0 40) 8 (Nat.max c0 8) _ l'
                    ltac:(lia) ltac:(lia) E1) as E2.
      rewrite E in E2. injection E2 as ->. reflexivity. }
    vm_compute in E'. injection E' as <-. reflexivity.
Defined.

(** ** What the constructor puts in the slots *)

Lemma snd_init_entries d st0 (l : list Z) :
  snd <$> omap (init_entry d st0) l
  = List.filter (fun i => negb (ask d i =? null_bkt)) l.
Proof.
  induction l as [|i l IH]; [reflexivity|].
  change (omap (init_entry d st0) (i :: l))
    with (match init_entry d st0 i with
          | Some y => y :: omap (init_entry d st0) l
          | None => omap (init_entry d st0) l
          end).
  cbn [List.filter]. unfold init_entry at 1.
  destruct (ask d i =? null_bkt); cbn [negb]; [exact IH|].
  rewrite fmap_cons. cbn [snd]. f_equal. exact IH.
Qed.

(** X3. The structure that the constructor builds holds exactly the
    identifiers of [0..n) that the oracle does not map to the sentinel,
    each once, and each in the slot where [to_range] sends its bucket
    number, which exists; an identifier mapped to the sentinel is in no
    slot. *)
Theorem make_buckets_contents rt n d o T :
  0 <= n < 2 ^ 31 -> 2 <= T < 2 ^ 32 ->
  all_items (make_buckets rt n d o T)
  ≡ₚ List.filter (fun i => negb (ask d i =? null_bkt)) (seqZ 0 n)
  /\ (forall s v, 0 <= s < T -> v ∈ items (slot (make_buckets rt n d o T) s) ->
        0 <= v < n /\ ask d v <> null_bkt
        /\ to_range (make_buckets rt n d o T) (ask d v) = s)
  /\ (forall v, 0 <= v < n -> ask d v <> null_bkt ->
        0 <= to_range (make_buckets rt n d o T) (ask d v) < T
        /\ v ∈ items (slot (make_buckets rt n d o T)
                        (to_range (make_buckets rt n d o T) (ask d v)))).
Proof.
  intros Hn HT. rewrite make_buckets_closed by assumption.
  pose proof (wf_init_state n d o T HT) as [HT' Hob Hlen Hwfs Hne Hcap Hrr].
  change (total_buckets (init_state n d o T)) with T in *.
  assert (Hes : forall e, e ∈ init_entries n d o T ->
                          0 <= fst e < total_buckets (init_state n d o T)).
  { intros e He. apply init_entries_slots in He; [|exact HT].
    change (total_buckets (init_state n d o T)) with T. lia. }
  assert (Hitems : forall s, 0 <= s < T ->
            items (slot (apply_entries (init_entries n d o T) (init_state n d o T)) s)
            = sel s (init_entries n d o T)).
  { intros s Hs. rewrite slot_apply_entries by lia.
    rewrite items_append_items by (apply wf_slot; exact Hwfs).
    rewrite slot_init_state. reflexivity. }
  assert (Hto : forall b, to_range (apply_entries (init_entries n d o T) (init_state n d o T)) b
                          = to_range (init_state n d o T) b).
  { intros b. apply to_range_congr; reflexivity. }
  split; [|split].
  - rewrite all_items_apply_entries by assumption.
    rewrite all_items_empty by (intros s _; rewrite slot_init_state; reflexivity).
    cbn [app]. unfold init_entries. rewrite snd_init_entries. reflexivity.
  - intros s v Hs Hv. rewrite Hitems in Hv by exact Hs. apply elem_of_sel in Hv.
    apply init_entries_slots in Hv; [|exact HT]. cbn [fst snd] in Hv.
    destruct Hv as (H1 & H2 & H3 & _). rewrite Hto. auto.
  - intros v Hv Hne'. rewrite Hto.
    assert (He : (to_range (init_state n d o T) (ask d v), v) ∈ init_entries n d o T).
    { unfold init_entries. apply list_elem_of_omap. exists v.
      split; [apply elem_of_seqZ; lia|]. unfold init_entry.
      destruct (Z.eqb_spec (ask d v) null_bkt); [contradiction|reflexivity]. }
    pose proof (init_entries_slots n d o T _ HT He) as (_ & _ & _ & Hr). cbn [fst] in Hr.
    split; [exact Hr|]. rewrite Hitems by exact Hr. apply elem_of_sel. exact He.
Qed.

Lemma make_buckets_contents_witness :
  let st := make_buckets (mk_runtime 1 2048) 3 (oracle_of_list [0; 4294967295; 1])
              increasing 128 in
  all_items st ≡ₚ [0; 2]
  /\ items (slot st 0) = [0] /\ items (slot st 1) = [2].
Proof.
  cbv zeta.
  destruct (make_buckets_contents (mk_runtime 1 2048) 3
              (oracle_of_list [0; 4294967295; 1]) increasing 128 ltac:(lia) ltac:(lia))
    as (Hall & _ & _).
  split; [rewrite Hall; vm_compute; reflexivity|].
  split; vm_compute; reflexivity.
Defined.

(** ** Batches that insert nothing *)

Lemma entries_none f (js : list Z) :
  (forall j, j ∈ js -> live f j = None) -> entries f js = [].
Proof.
  induction js as [|j js IH]; intros H; [reflexivity|].
  unfold entries.
  change (omap (live f) (j :: js))
    with (match live f j with Some y => y :: omap (live f) js | None => omap (live f) js end).
  rewrite (H j) by left. apply IH. intros i Hi. apply H. right. exact Hi.
Qed.

(** X4. A batch all of whose entries are absent or name the sentinel as
    their slot, and in particular the empty batch, leaves a well-formed
    structure exactly as it was, and [update_buckets] returns 0, on
    either path. *)
Theorem update_buckets_nothing rt f k st :
  wf_st st -> 0 <= k < 2 ^ 32 ->
  (forall j, 0 <= j < k ->
     f j = None \/ exists v b, f j = Some (v, b) /\ wrap32 b = null_bkt) ->
  update_buckets rt f k st = (0, st)
  /\ update_buckets_seq f k st = (0, st)
  /\ update_buckets_par f k st = (0, st).
Proof.
  intros Hwf Hk Hf.
  assert (He : entries f (seqZ 0 k) = []).
  { apply entries_none. intros j Hj. apply elem_of_seqZ in Hj. unfold live.
    destruct (Hf j ltac:(lia)) as [->|(v & b & -> & Hb)]; [reflexivity|].
    unfold get1. cbn [snd]. rewrite Hb, Z.eqb_refl. reflexivity. }
  pose proof Hwf as [HT Hob Hlen Hwfs Hne Hcap Hrr].
  pose proof (total_size_nonneg st Hwfs) as H0.
  assert (Hok : batch_ok f k st).
  { split.
    - intros j b v Hj El.
      assert (Hin : (b, v) ∈ entries f (seqZ 0 k)).
      { apply list_elem_of_omap. exists j. split; [apply elem_of_seqZ; lia|exact El]. }
      rewrite He in Hin. apply elem_of_nil in Hin. contradiction.
    - intros s Hs. rewrite He. cbn [sel fmap list_fmap List.filter length].
      pose proof (size_le_total st s Hwfs ltac:(lia)). cbn. lia. }
  assert (Hres : (sub64 (wrap64 (num_elms st + Z.of_nat (length (entries f (seqZ 0 k)))))
                    (num_elms st),
                  apply_entries (entries f (seqZ 0 k)) st) = (0, st)).
  { rewrite He. cbn [length]. rewrite apply_entries_nil by lia.
    rewrite Z.add_0_r, wrap64_small by lia. unfold sub64. rewrite Z.sub_diag. reflexivity. }
  split; [|split].
  - rewrite update_buckets_closed; auto; lia.
  - rewrite update_buckets_seq_closed; auto; lia.
  - rewrite update_buckets_par_closed; auto; lia.
Qed.

Lemma update_buckets_nothing_witness :
  let st := make_buckets (mk_runtime 1 2048) 3 (oracle_of_list [0; 1; 2]) increasing 4 in
  let f : batch := fun j => if j mod 2 =? 0 then None else Some (j, 4294967295) in
  update_buckets (mk_runtime 8 16) f 5000 st = (0, st)
  /\ update_buckets (mk_runtime 8 16) f 0 st = (0, st).
Proof.
  cbv zeta.
  destruct (make_buckets_sound (mk_runtime 1 2048) 3 (oracle_of_list [0; 1; 2]) increasing 4
              ltac:(lia) ltac:(lia)) as ([Hwf _] & _).
  split.
  - apply (update_buckets_nothing (mk_runtime 8 16)); [exact Hwf|lia|].
    intros j Hj. destruct (j mod 2 =? 0); [left; reflexivity|].
    right. exists j, 4294967295. split; reflexivity.
  - apply (update_buckets_nothing (mk_runtime 8 16)); [exact Hwf|lia|].
    intros j Hj. lia.
Defined.

(** ** The slots that [get_bucket] gives *)

(** X5. On a structure with at least one open bucket, [to_range] and
    [get_bucket] return the sentinel or the index of a slot that exists,
    at most [open_buckets]: a batch built from the results of
    [get_bucket] never addresses a slot outside the array. *)
Theorem get_bucket_in_bounds st prev next :
  1 <= open_buckets st < 2 ^ 32 - 1 -> total_buckets st = open_buckets st + 1 ->
  0 <= next ->
  (to_range st next = null_bkt \/ 0 <= to_range st next < total_buckets st)
  /\ (get_bucket st prev next = null_bkt \/ 0 <= get_bucket st prev next < total_buckets st).
Proof.
  intros HO HT Hn.
  assert (Hr : to_range st next = null_bkt \/ 0 <= to_range st next < total_buckets st).
  { destruct (to_range_slot st next HO Hn); [left; assumption|right; lia]. }
  split; [exact Hr|]. unfold get_bucket. cbv zeta.
  destruct (negb _ && _); [exact Hr|left; reflexivity].
Qed.

Lemma get_bucket_in_bounds_witness :
  let st := make_buckets (mk_runtime 1 2048) 3 (oracle_of_list [0; 2; 5]) increasing 4 in
  get_bucket st 0 1000 = 3 /\ 0 <= get_bucket st 0 1000 < total_buckets st.
Proof.
  cbv zeta.
  destruct (get_bucket_in_bounds
              (make_buckets (mk_runtime 1 2048) 3 (oracle_of_list [0; 2; 5]) increasing 4)
              0 1000) as [_ [H|H]].
  - vm_compute. split; [discriminate|reflexivity].
  - reflexivity.
  - lia.
  - vm_compute in H. discriminate.
  - split; [reflexivity|exact H].
Defined.

(** ** Bucket numbers and slots of the window *)

Lemma rng_tight st : good st -> rng st -> 0 < num_elms st -> bounds st /\ tight st.
Proof.
  intros [[HT Hob Hlen Hwf Hne Hcap Hr] Hc] [Hb Ht] Hp. split; [exact Hb|].
  apply Ht. lia.
Qed.

(** X6. While a tidy structure holds entries, [to_range] and
    [get_cur_bucket_num] are inverse to each other on the part of the
    window that lies within the bucket numbers. [get_cur_bucket_num] is
    a [size_t] and the parameter of [to_range] a [uintE], so the number
    is converted at the call: when the bucket number that the cursor
    has on open slot [s] is at most the sentinel, it is sent to slot
    [s]; a bucket number sent to open slot [s] is the one the cursor has
    there; and [get_bucket] sends an identifier that moves to the
    current bucket number into the current slot, wherever it comes
    from. Under increasing order a slot whose number is beyond the
    sentinel, on a window that reaches past it, is not found again: the
    converted number lies before the window and is sent to the
    sentinel. *)
Theorem window_round_trip st :
  good st -> rng st -> 0 < num_elms st ->
  (forall s, 0 <= s < open_buckets st ->
     get_cur_bucket_num (set_cur_bkt s st) <= null_bkt ->
     to_range st (wrap32 (get_cur_bucket_num (set_cur_bkt s st))) = s)
  /\ (forall b s, 0 <= b <= null_bkt -> 0 <= s < open_buckets st ->
        to_range st b = s -> get_cur_bucket_num (set_cur_bkt s st) = b)
  /\ (forall prev, get_cur_bucket_num st <= null_bkt ->
        get_bucket st prev (wrap32 (get_cur_bucket_num st)) = cur_bkt st)
  /\ (forall s, order st = increasing -> 0 <= s < open_buckets st ->
        null_bkt < get_cur_bucket_num (set_cur_bkt s st) ->
        to_range st (wrap32 (get_cur_bucket_num (set_cur_bkt s st))) = null_bkt).
Proof.
  intros Hg Hr Hp. destruct (rng_tight st Hg Hr Hp) as [Hb Ht].
  destruct Hg as [[HT Hob Hlen Hwf Hne Hcap Hrr] Hc].
  assert (Hn : null_bkt = 2 ^ 32 - 1) by reflexivity.
  assert (Hnum : forall s, 0 <= s < open_buckets st ->
                   get_cur_bucket_num (set_cur_bkt s st) = num_at st s /\ 0 <= num_at st s).
  { intros s Hs. apply (get_cur_bucket_num_at (set_cur_bkt s st)); simpl_st; auto; lia. }
  assert (Hto : forall s, 0 <= s < open_buckets st ->
                  get_cur_bucket_num (set_cur_bkt s st) <= null_bkt ->
                  to_range st (wrap32 (get_cur_bucket_num (set_cur_bkt s st))) = s).
  { intros s Hs. destruct (Hnum s Hs) as [-> H0]. intros Hle.
    rewrite wrap32_small by lia.
    unfold num_at, bounds, tight in *. destruct (order st) eqn:Eo.
    - rewrite to_range_decreasing by (auto; lia).
      destruct (Z.geb_spec (cur_range st * open_buckets st - s - 1)
                  (cur_range st * open_buckets st)); [lia|].
      destruct (Z.geb_spec (cur_range st * open_buckets st - s - 1)
                  ((cur_range st - 1) * open_buckets st)); [|lia].
      replace (cur_range st * open_buckets st - s - 1)
        with ((cur_range st - 1) * open_buckets st + (open_buckets st - s - 1)) by lia.
      rewrite mod_window by lia. lia.
    - rewrite to_range_increasing by (auto; lia).
      destruct (Z.ltb_spec (cur_range st * open_buckets st + s)
                  (cur_range st * open_buckets st)); [lia|].
      destruct (Z.ltb_spec (cur_range st * open_buckets st + s)
                  ((cur_range st + 1) * open_buckets st)); [|lia].
      apply mod_window. lia. }
  split; [exact Hto|]. split; [|split].
  - intros b s Hbn Hs Hbs. destruct (Hnum s Hs) as [-> _]. symmetry.
    apply (to_range_open st b s); auto; lia.
  - intros prev Hle. unfold get_bucket. cbv zeta.
    replace (get_cur_bucket_num st) with (get_cur_bucket_num (set_cur_bkt (cur_bkt st) st)) in *
      by (destruct st; reflexivity).
    rewrite (Hto (cur_bkt st) Hc Hle). rewrite Z.eqb_refl, !orb_true_r.
    destruct (Z.eqb_spec (cur_bkt st) null_bkt) as [E|E]; [lia|reflexivity].
  - intros s Eo Hs. destruct (Hnum s Hs) as [-> H0]. intros Hgt.
    unfold num_at, bounds, tight in *. rewrite Eo in *.
    assert (Hw : wrap32 (cur_range st * open_buckets st + s)
                 = cur_range st * open_buckets st + s - 2 ^ 32).
    { unfold wrap32. symmetry. apply (Z.mod_unique _ _ 1); nia. }
    rewrite Hw. rewrite to_range_increasing by (auto; nia).
    destruct (Z.ltb_spec (cur_range st * open_buckets st + s - 2 ^ 32)
                (cur_range st * open_buckets st)); [reflexivity|lia].
Qed.

Lemma window_round_trip_witness :
  let st := make_buckets (mk_runtime 1 2048) 5 (oracle_of_list [7; 9; 8; 20; 7]) increasing 4 in
  let st' := make_buckets (mk_runtime 1 2048) 1 (oracle_of_list [4294967292]) increasing 8 in
  get_cur_bucket_num (set_cur_bkt 2 st) = 8
  /\ to_range st (wrap32 (get_cur_bucket_num (set_cur_bkt 2 st))) = 2
  /\ get_bucket st 20 (wrap32 (get_cur_bucket_num st)) = cur_bkt st
  /\ get_cur_bucket_num (set_cur_bkt 4 st') = 4294967296
  /\ to_range st' (wrap32 (get_cur_bucket_num (set_cur_bkt 4 st'))) = null_bkt.
Proof.
  cbv zeta.
  destruct (make_buckets_sound (mk_runtime 1 2048) 5 (oracle_of_list [7; 9; 8; 20; 7])
              increasing 4 ltac:(lia) ltac:(lia)) as (Hg & _ & Hr & _).
  destruct (make_buckets_sound (mk_runtime 1 2048) 1 (oracle_of_list [4294967292])
              increasing 8 ltac:(lia) ltac:(lia)) as (Hg' & _ & Hr' & _).
  destruct (window_round_trip _ Hg Hr) as (H1 & _ & H3 & _); [vm_compute; reflexivity|].
  destruct (window_round_trip _ Hg' Hr') as (_ & _ & _ & H4); [vm_compute; reflexivity|].
  split; [vm_compute; reflexivity|]. split; [|split; [|split]].
  - apply H1; vm_compute; [split; [discriminate|reflexivity]|discriminate].
  - apply H3. vm_compute. discriminate.
  - vm_compute. reflexivity.
  - apply (H4 4); vm_compute; [reflexivity|split; [discriminate|reflexivity]|reflexivity].
Defined.

(** X7. A turn of the loop of [next_bucket] on a tidy structure does not
    stop on the assertion, and while entries remain it moves the current
    bucket number by exactly one in the direction of the order, also
    when it unpacks the overflow slot and starts the next range: no
    bucket number is skipped and none comes twice. *)
Theorem _next_bucket_steps_one rt d st :
  tidy st -> scan_cond st = true ->
  exists st1,
    _next_bucket rt d st = Done st1 /\ tidy st1
    /\ order st1 = order st
    /\ (0 < num_elms st1 ->
        get_cur_bucket_num st1
        = match order st with
          | increasing => get_cur_bucket_num st + 1
          | decreasing => get_cur_bucket_num st - 1
          end).
Proof.
  intros (Hg & Hb & Hr) Hs.
  destruct (skip_step rt d st Hg Hb Hs) as (st1 & E & G1 & B1 & _).
  destruct (rng_skip rt d st st1 Hg Hr Hs E) as (R1 & Hp & Hd).
  exists st1. split; [exact E|]. split; [split; [exact G1|split; [exact B1|exact R1]]|].
  split; [apply dir_order; exact Hd|].
  intros Hp1.
  pose proof Hg as [[HT Hob Hlen Hwf Hne Hcap Hrr] Hc].
  destruct (scan_cond_true st Hwf Hs) as [_ Hp0].
  destruct (rng_tight st Hg Hr Hp0) as [Hbd Ht].
  destruct (rng_tight st1 G1 R1 Hp1) as [Hbd1 Ht1].
  pose proof G1 as [[HT1 Hob1 Hlen1 Hwf1 Hne1 Hcap1 Hrr1] Hc1].
  destruct (get_cur_bucket_num_at st) as [-> _]; auto; try lia.
  destruct (get_cur_bucket_num_at st1) as [-> _]; auto; try lia.
  fold (pos st) (pos st1). rewrite Hp. unfold dir. destruct (order st); lia.
Qed.

Lemma _next_bucket_steps_one_witness :
  let rt := mk_runtime 1 2048 in
  let d := oracle_of_list [3; 9] in
  let st0 := make_buckets rt 2 d increasing 3 in
  exists b st2 st3,
    next_bucket rt d 5 st0 = Done (b, st2)
    /\ _next_bucket rt d st2 = Done st3
    /\ cur_range st2 = 1 /\ get_cur_bucket_num st2 = 3
    /\ cur_range st3 = 2 /\ get_cur_bucket_num st3 = 4.
Proof.
  cbv zeta.
  destruct (make_buckets_sound (mk_runtime 1 2048) 2 (oracle_of_list [3; 9]) increasing 3
              ltac:(lia) ltac:(lia)) as (Hg & Hb & Hr & _).
  destruct (next_bucket (mk_runtime 1 2048) (oracle_of_list [3; 9]) 5
              (make_buckets (mk_runtime 1 2048) 2 (oracle_of_list [3; 9]) increasing 3))
    as [[b st2]| |] eqn:E; try (vm_compute in E; discriminate).
  destruct (next_bucket_sound _ _ _ _ _ _ Hg Hr E) as (G2 & R2 & _).
  assert (B2 : below st2).
  { destruct (next_bucket_tidy (mk_runtime 1 2048) (oracle_of_list [3; 9]) 5 _ Hg Hb)
      as [E'|(b' & st' & E' & _ & B')]; rewrite E in E'; [discriminate|].
    injection E' as _ <-. exact B'. }
  pose proof E as Ec. vm_compute in Ec. injection Ec as _ Ec.
  destruct (_next_bucket_steps_one (mk_runtime 1 2048) (oracle_of_list [3; 9]) st2
              (conj G2 (conj B2 R2))) as (st3 & E3 & _ & _ & N3);
    [rewrite <- Ec; vm_compute; reflexivity|].
  pose proof E3 as E3c. rewrite <- Ec in E3c. vm_compute in E3c. injection E3c as E3c.
  exists b, st2, st3. split; [reflexivity|]. split; [exact E3|].
  split; [rewrite <- Ec; reflexivity|]. split; [rewrite <- Ec; reflexivity|].
  split; [rewrite <- E3c; reflexivity|].
  rewrite N3 by (rewrite <- E3c; vm_compute; reflexivity).
  rewrite <- Ec. reflexivity.
Defined.

(** ** The fields of a returned bucket *)

Lemma length_items_le a : Z.of_nat (length (items a)) <= Z.max 0 (size a).
Proof. unfold items. rewrite length_take. lia. Qed.

Lemma length_filter_le {X} (p : X -> bool) (l : list X) :
  (length (List.filter p l) <= length l)%nat.
Proof. induction l as [|x l IH]; cbn; [lia|]. destruct (p x); cbn; lia. Qed.

(** X8. Of a bucket that [next_bucket] returns, either it is the
    sentinel, built by the constructor of [bucket], which leaves
    [num_filtered] unset, with an empty set; or [num_filtered] is set,
    the set is not empty, its size field counts its identifiers and is
    at most [num_filtered]. So [num_filtered] is to be read on a
    non-sentinel bucket only. *)
Theorem returned_bucket_fields rt d fuel st b st' :
  next_bucket rt d fuel st = Done (b, st') ->
  (b = new_bucket null_bkt (vs_empty (n st'))
   /\ num_filtered b = None /\ vs_s (identifiers b) = [] /\ vs_m (identifiers b) = 0)
  \/ (exists sz, num_filtered b = Some sz
                 /\ vs_m (identifiers b) = Z.of_nat (length (vs_s (identifiers b)))
                 /\ 1 <= vs_m (identifiers b) <= sz).
Proof.
  intros H. apply next_bucket_returns, returns_cases in H.
  destruct H as [(Hb & _)|(st_e & _ & _ & Hf & Hb & _)]; subst b.
  - left. repeat split.
  - right. exists (size (slot st_e (cur_bkt st_e))).
    cbn [cur_emit num_filtered identifiers vs_m vs_s].
    split; [reflexivity|]. split; [reflexivity|].
    pose proof (length_filter_le (fun i => ask d i =? get_cur_bucket_num st_e)
                  (items (slot st_e (cur_bkt st_e)))) as H1.
    pose proof (length_items_le (slot st_e (cur_bkt st_e))) as H2.
    fold (cur_filtered d st_e) in H1.
    destruct (cur_filtered d st_e) as [|v l]; [contradiction|].
    cbn [length] in *. lia.
Qed.

Lemma returned_bucket_fields_witness :
  let rt := mk_runtime 1 2048 in
  let st := make_buckets rt 2 (oracle_of_list [1; 1]) increasing 128 in
  exists b st',
    next_bucket rt (oracle_of_list [2; 1]) 4 st = Done (b, st')
    /\ num_filtered b = Some 2 /\ vs_m (identifiers b) = 1
    /\ 1 <= vs_m (identifiers b) <= 2.
Proof.
  cbv zeta.
  destruct (next_bucket (mk_runtime 1 2048) (oracle_of_list [2; 1]) 4
              (make_buckets (mk_runtime 1 2048) 2 (oracle_of_list [1; 1]) increasing 128))
    as [[b st']| |] eqn:E; try (vm_compute in E; discriminate).
  exists b, st'. split; [reflexivity|].
  destruct (returned_bucket_fields _ _ _ _ _ _ E) as [(Hb & _)|(sz & Hsz & _ & Hm)].
  - exfalso. vm_compute in E. injection E as <- <-. vm_compute in Hb. discriminate.
  - assert (Hs : num_filtered b = Some 2)
      by (vm_compute in E; injection E as <- _; reflexivity).
    rewrite Hs in Hsz. injection Hsz as <-.
    split; [exact Hs|]. split; [|exact Hm].
    vm_compute in E. injection E as <- _. reflexivity.
Defined.

(** ** Destruction *)

(** X9. [del] releases once: after it the structure is marked as not
    allocated and holds no slot, a second [del] changes nothing, and
    [del] on a structure that is not allocated changes nothing; the
    scalar members other than [allocated] are left as they were. *)
Theorem del_idempotent st :
  allocated (del st) = false
  /\ del (del st) = del st
  /\ (allocated st = false -> del st = st)
  /\ (allocated st = true -> bkts (del st) = [])
  /\ (order (del st), cur_bkt (del st), cur_range (del st), n (del st), num_elms (del st),
      open_buckets (del st), total_buckets (del st))
     = (order st, cur_bkt st, cur_range st, n st, num_elms st,
        open_buckets st, total_buckets st).
Proof.
  unfold del. destruct (allocated st) eqn:E; cbn; rewrite ?E;
    repeat split; try reflexivity; try discriminate; intros; congruence.
Qed.

(** ** What [unpack] does with the overflow slot *)

Lemma open_slots_empty st :
  wf_st st -> size (slot st (open_buckets st)) = num_elms st ->
  forall s, 0 <= s < open_buckets st -> size (slot st s) = 0.
Proof.
  intros [HT Hob Hlen Hwf Hne Hcap Hr] Hm s Hs.
  pose proof (wf_slot st s Hwf) as [H0 _].
  assert (Hsum : total_size st
                 = sumZ ((fun s => size (slot st s)) <$> seqZ 0 (open_buckets st))
                   + size (slot st (open_buckets st))).
  { unfold total_size. replace (total_buckets st) with (open_buckets st + 1) by lia.
    rewrite seqZ_app by lia. rewrite fmap_app, sumZ_app.
    change (seqZ (0 + open_buckets st) 1) with [0 + open_buckets st].
    rewrite fmap_cons, sumZ_cons. cbn [fmap list_fmap sumZ foldr].
    rewrite !Z.add_0_l, Z.add_0_r. reflexivity. }
  assert (Hle : size (slot st s)
                <= sumZ ((fun s => size (slot st s)) <$> seqZ 0 (open_buckets st))).
  { apply sumZ_elem_le.
    - apply Forall_fmap, Forall_forall. intros x _. cbn. apply (wf_slot st x Hwf).
    - apply (list_elem_of_fmap_2 (fun s => size (slot st s))). apply elem_of_seqZ. lia. }
  lia.
Qed.

(** X13. [unpack] on a well-formed structure whose entries are all in
    the overflow slot: the assertion holds, the range moves on by one,
    and each identifier of the overflow slot is looked up again under
    the new range: it goes to the slot that [to_range] now gives for
    its bucket number, open or overflow, and it is dropped when that is
    the sentinel, its bucket number being behind the window. Nothing
    else is in the slots afterwards, [num_elms] counts what was kept,
    and the structure is well formed. *)
Theorem unpack_reclassifies rt d st :
  wf_st st -> size (slot st (open_buckets st)) = num_elms st ->
  (forall v, v ∈ items (slot st (open_buckets st)) -> 0 <= v < 2 ^ 32) ->
  exists st',
    unpack rt d st = Done st'
    /\ wf_st st'
    /\ cur_range st'
       = match order st with
         | increasing => add64 (cur_range st) 1
         | decreasing => sub64 (cur_range st) 1
         end
    /\ cur_bkt st' = cur_bkt st
    /\ num_elms st' = Z.of_nat (length (all_items st'))
    /\ num_elms st' <= num_elms st
    /\ (forall s v, 0 <= s < total_buckets st ->
          v ∈ items (slot st' s)
          <-> v ∈ items (slot st (open_buckets st)) /\ to_range st' (ask d v) = s).
Proof.
  intros Hwf Hm Hv. pose proof Hwf as [HT Hob Hlen Hwfs Hne Hcap Hrr].
  exists (unpack_result d st). split; [apply unpack_done; assumption|].
  destruct (wf_unpack_result d st Hwf Hm) as [Hw' Hts].
  pose proof (unpack_result_frame d st) as (F1 & F2 & F3 & F4 & F5 & F6).
  pose proof (emptied_overflow_frame st) as (Q1 & Q2 & Q3 & Q4 & Q5 & Q6 & Q7 & Q8).
  pose proof (open_slots_empty st Hwf Hm) as Hopen.
  assert (Heo : forall s, 0 <= s < total_buckets st ->
                          size (slot (emptied_overflow st) s) = 0).
  { intros s Hs. rewrite slot_emptied_overflow by lia.
    destruct (Z.eqb_spec s (open_buckets st)); [reflexivity|]. apply Hopen. lia. }
  assert (Hwe : Forall wf_arr (bkts (emptied_overflow st)))
    by (apply wf_emptied_overflow; exact Hwfs).
  assert (Hle : Z.of_nat (length (bkts (emptied_overflow st)))
                = total_buckets (emptied_overflow st)) by (rewrite Q8, Q3; exact Hlen).
  assert (Hes : forall e, e ∈ unpack_entries d st ->
                          0 <= fst e < total_buckets (emptied_overflow st)).
  { intros e He. apply unpack_entries_slots in He; [exact He|lia|lia]. }
  assert (Hall : all_items (unpack_result d st) ≡ₚ snd <$> unpack_entries d st).
  { transitivity (all_items (apply_entries (unpack_entries d st) (emptied_overflow st)));
      [reflexivity|].
    rewrite all_items_apply_entries by assumption.
    rewrite (all_items_empty (emptied_overflow st)); [reflexivity|].
    intros s Hs. apply Heo. rewrite <- Q3. exact Hs. }
  assert (Hto : forall b, to_range (unpack_result d st) b = to_range (emptied_overflow st) b).
  { intros b. apply to_range_congr; congruence. }
  split; [exact Hw'|]. split; [|split; [exact F4|split; [|split]]].
  - rewrite F6. unfold advance. destruct (order st); reflexivity.
  - rewrite (Permutation_length Hall), length_fmap. reflexivity.
  - change (num_elms (unpack_result d st)) with (Z.of_nat (length (unpack_entries d st))).
    pose proof (length_omap_le (reclass d (emptied_overflow st))
                  (items (slot st (open_buckets st)))) as Hl.
    fold (unpack_entries d st) in Hl.
    pose proof (length_items (slot st (open_buckets st)) (wf_slot st _ Hwfs)). lia.
  - intros s v Hs.
    assert (Hit : items (slot (unpack_result d st) s) = sel s (unpack_entries d st)).
    { transitivity (items (slot (apply_entries (unpack_entries d st) (emptied_overflow st)) s));
        [reflexivity|].
      rewrite slot_apply_entries by lia.
      rewrite items_append_items by (apply wf_slot; exact Hwe).
      rewrite (items_nil (slot (emptied_overflow st) s)) by (apply Heo; exact Hs).
      reflexivity. }
    rewrite Hit, elem_of_sel, Hto. unfold unpack_entries. rewrite list_elem_of_omap. split.
    + intros (v0 & Hv0 & Hre). pose proof (Hv v0 Hv0) as Hr0.
      apply reclass_slot in Hre as (_ & Hf & Hsn); [|rewrite Q2; lia].
      cbn [fst snd] in Hf, Hsn. rewrite wrap32_small in Hsn by lia. subst v0.
      split; [exact Hv0|symmetry; exact Hf].
    + intros [Hv0 Hsv]. exists v. split; [exact Hv0|].
      unfold reclass. cbv zeta. rewrite Hsv.
      destruct (Z.eqb_spec s null_bkt) as [E|E]; [unfold null_bkt in E; lia|].
      rewrite wrap32_small by (apply Hv; exact Hv0). reflexivity.
Qed.

Lemma unpack_reclassifies_witness :
  let rt := mk_runtime 1 2048 in
  let d := oracle_of_list [4; 2; 9; 3] in
  let st := mk_buckets increasing
              [empty_arr; empty_arr; mk_dyn_arr [0; 1; 2; 3] 4] 2 3 0 4 4 2 3 true in
  exists st',
    unpack rt d st = Done st'
    /\ window st' = (1, [[1]; [3]; [0; 2]])
    /\ num_elms st' = 4.
Proof.
  cbv zeta.
  destruct (unpack_reclassifies (mk_runtime 1 2048) (oracle_of_list [4; 2; 9; 3])
              (mk_buckets increasing
                 [empty_arr; empty_arr; mk_dyn_arr [0; 1; 2; 3] 4] 2 3 0 4 4 2 3 true))
    as (st' & E & _).
  - constructor; cbn; try lia; try reflexivity.
    repeat constructor; cbn; lia.
  - reflexivity.
  - intros v Hv. vm_compute in Hv.
    repeat (apply elem_of_cons in Hv as [->|Hv]; [lia|]). apply elem_of_nil in Hv. contradiction.
  - exists st'. split; [exact E|].
    vm_compute in E. injection E as <-. split; reflexivity.
Defined.

(** ** What [update_buckets] does to a well-formed structure *)

(** X14. [update_buckets], on either path, with a batch that fits a
    well-formed structure: it returns the number of entries that exist
    and do not name the sentinel as their slot, [num_elms] grows by that
    number, every slot keeps its identifiers and receives after them,
    in the order of the batch, the identifiers that the batch sends to
    it, and the cursor, the range and the other scalar members are not
    touched. The structure stays well formed. *)
Theorem update_buckets_appends rt f k st :
  wf_st st -> batch_fits f k st ->
  fst (update_buckets rt f k st) = Z.of_nat (length (entries f (seqZ 0 k)))
  /\ num_elms (snd (update_buckets rt f k st))
     = num_elms st + fst (update_buckets rt f k st)
  /\ (forall s, 0 <= s < total_buckets st ->
        items (slot (snd (update_buckets rt f k st)) s)
        = items (slot st s) ++ sel s (entries f (seqZ 0 k)))
  /\ same_frame st (snd (update_buckets rt f k st))
  /\ wf_st (snd (update_buckets rt f k st)).
Proof.
  intros Hwf Hfit. rewrite (update_buckets_fits rt f k st Hwf Hfit). cbn [fst snd].
  pose proof Hwf as [HT Hob Hlen Hwfs Hne Hcap Hrr].
  pose proof Hfit as (Hk & Hvv & Hroom).
  pose proof (total_size_nonneg st Hwfs) as H0.
  assert (Hes : forall e, e ∈ entries f (seqZ 0 k) -> 0 <= fst e < total_buckets st).
  { intros e. apply batch_fits_entries. exact Hfit. }
  split; [reflexivity|]. split; [|split; [|split]].
  - unfold apply_entries. simpl_st. apply wrap64_small. lia.
  - intros s Hs. rewrite slot_apply_entries by lia.
    apply items_append_items. apply wf_slot. exact Hwfs.
  - apply same_frame_apply_entries.
  - apply wf_st_apply_entries; assumption.
Qed.

Lemma update_buckets_appends_witness :
  let st := make_buckets (mk_runtime 1 2048) 3 (oracle_of_list [0; 1; 2]) increasing 4 in
  let f : batch := fun j => if j =? 1 then None
                            else Some (j + 10, if j =? 2 then 4294967295 else 1) in
  fst (update_buckets (mk_runtime 1 2048) f 5 st) = 3
  /\ items (slot (snd (update_buckets (mk_runtime 1 2048) f 5 st)) 1) = [1; 10; 13; 14].
Proof.
  cbv zeta.
  destruct (make_buckets_sound (mk_runtime 1 2048) 3 (oracle_of_list [0; 1; 2]) increasing 4
              ltac:(lia) ltac:(lia)) as ([Hwf _] & _).
  destruct (update_buckets_appends (mk_runtime 1 2048)
              (fun j => if j =? 1 then None
                        else Some (j + 10, if j =? 2 then 4294967295 else 1)) 5 _ Hwf)
    as (H1 & _ & H3 & _).
  - split; [lia|]. split; [|vm_compute; reflexivity].
    intros j b v Hj Hl.
    assert (Hc : j = 0 \/ j = 1 \/ j = 2 \/ j = 3 \/ j = 4) by lia.
    destruct Hc as [->|[->|[->|[->| ->]]]]; vm_compute in Hl; try discriminate;
      injection Hl as <- _; vm_compute; reflexivity.
  - split; [rewrite H1; vm_compute; reflexivity|].
    rewrite H3 by (vm_compute; split; [discriminate|reflexivity]).
    vm_compute. reflexivity.
Defined.

(** ** A structure without entries *)

(** X15. When the oracle maps no identifier of [0..n) to a bucket, and
    so when [n = 0], the constructor builds a structure without
    entries: [num_elms] is 0, every slot is empty, and [next_bucket]
    returns the sentinel with an empty set at once and leaves the
    structure as it was. *)
Theorem make_buckets_empty rt n d o T fuel :
  0 <= n < 2 ^ 31 -> 2 <= T < 2 ^ 32 ->
  (forall i, 0 <= i < n -> ask d i = null_bkt) ->
  let st := make_buckets rt n d o T in
  num_elms st = 0
  /\ (forall s, items (slot st s) = [])
  /\ forall d', next_bucket rt d' (S fuel) st = Done (new_bucket null_bkt (vs_empty n), st).
Proof.
  intros Hn HT Hd. cbv zeta. rewrite make_buckets_closed by assumption.
  assert (He : init_entries n d o T = []).
  { unfold init_entries.
    assert (Hall : forall y, y ∈ seqZ 0 n -> init_entry d (init_state n d o T) y = None).
    { intros y Hy. apply elem_of_seqZ in Hy. unfold init_entry.
      rewrite Hd by lia. rewrite Z.eqb_refl. reflexivity. }
    revert Hall. generalize (seqZ 0 n). intros l0 Hall.
    induction l0 as [|y l0 IH0]; [reflexivity|].
    change (omap (init_entry d (init_state n d o T)) (y :: l0))
      with (match init_entry d (init_state n d o T) y with
            | Some z => z :: omap (init_entry d (init_state n d o T)) l0
            | None => omap (init_entry d (init_state n d o T)) l0
            end).
    rewrite (Hall y) by left. apply IH0. intros z Hz. apply Hall. right. exact Hz. }
  rewrite He. rewrite apply_entries_nil by (cbn; lia).
  split; [reflexivity|]. split.
  - intros s. rewrite slot_init_state. reflexivity.
  - intros d'. rewrite next_bucket_S. unfold scan_cond.
    change (num_elms (init_state n d o T)) with 0.
    rewrite andb_false_r. reflexivity.
Qed.

Lemma make_buckets_empty_witness :
  let rt := mk_runtime 1 2048 in
  let st := make_buckets rt 2 (oracle_of_list [4294967295; 4294967295]) decreasing 8 in
  num_elms st = 0
  /\ next_bucket rt (oracle_of_list [3; 3]) 1 st = Done (new_bucket null_bkt (vs_empty 2), st)
  /\ num_elms (make_buckets rt 0 (oracle_of_list []) increasing 2) = 0.
Proof.
  cbv zeta. split; [|split].
  - apply (make_buckets_empty (mk_runtime 1 2048) 2
             (oracle_of_list [4294967295; 4294967295]) decreasing 8 0); [lia|lia|].
    intros i Hi. assert (Hc : i = 0 \/ i = 1) by lia.
    destruct Hc as [->| ->]; reflexivity.
  - apply (make_buckets_empty (mk_runtime 1 2048) 2
             (oracle_of_list [4294967295; 4294967295]) decreasing 8 0); [lia|lia|].
    intros i Hi. assert (Hc : i = 0 \/ i = 1) by lia.
    destruct Hc as [->| ->]; reflexivity.
  - apply (make_buckets_empty (mk_runtime 1 2048) 0 (oracle_of_list []) increasing 2 0);
      [lia|lia|]. intros i Hi. lia.
Defined.

(** ** The counters of the workers *)

Lemma sumZ_wr l i v :
  0 <= i < Z.of_nat (length l) -> sumZ (wr l i v) = sumZ l - rd l i + v.
Proof.
  intros Hi. unfold wr, rd.
  destruct (lookup_lt_is_Some_2 l (Z.to_nat i)) as [x Hx]; [lia|].
  rewrite Hx. cbn [default from_option]. unfold Datatypes.id.
  rewrite <- (take_drop_middle l (Z.to_nat i) x Hx) at 2.
  rewrite insert_take_drop by lia.
  rewrite !sumZ_app, !sumZ_cons. lia.
Qed.

Lemma plusReduce_all l : plusReduce l (Z.of_nat (length l)) = wrap64 (sumZ l).
Proof.
  unfold plusReduce. rewrite Nat2Z.id, firstn_all.
  change (foldl add64 0 l) with (foldl (fun x i => add64 x (Datatypes.id i)) 0 l).
  rewrite foldl_add64 by lia. rewrite list_fmap_id. reflexivity.
Qed.

Lemma run_call_eq intersect counts c :
  run_call intersect counts c
  = wr counts (Z.shiftl (c_worker c) 4)
      (add64 (rd counts (Z.shiftl (c_worker c) 4))
             (wrap64 (intersect (c_src c) (c_dst c)))).
Proof. unfold run_call. destruct (c_atomic c); reflexivity. Qed.

Lemma run_calls_sum intersect workers (calls : list call) : forall counts,
  Z.of_nat (length counts) = 16 * workers ->
  (forall c, c ∈ calls -> 0 <= c_worker c < workers) ->
  Z.of_nat (length (foldl (run_call intersect) counts calls)) = 16 * workers
  /\ wrap64 (sumZ (foldl (run_call intersect) counts calls))
     = wrap64 (sumZ counts
               + sumZ ((fun c => intersect (c_src c) (c_dst c)) <$> calls))
  /\ (forall i, 0 <= i -> i mod 16 <> 0 ->
        rd (foldl (run_call intersect) counts calls) i = rd counts i).
Proof.
  induction calls as [|c calls IH]; intros counts Hlen Hw.
  - cbn. rewrite Z.add_0_r. auto.
  - cbn [foldl]. rewrite fmap_cons, sumZ_cons.
    assert (Hc : 0 <= c_worker c < workers) by (apply Hw; left).
    assert (Hi : 0 <= Z.shiftl (c_worker c) 4 < Z.of_nat (length counts)).
    { rewrite Z.shiftl_mul_pow2 by lia. lia. }
    destruct (IH (run_call intersect counts c)) as (L & S & U).
    + rewrite run_call_eq, length_wr. exact Hlen.
    + intros c' Hc'. apply Hw. right. exact Hc'.
    + split; [exact L|]. split.
      * rewrite S. rewrite run_call_eq, sumZ_wr by exact Hi.
        unfold add64, wrap64.
        set (r := rd counts (Z.shiftl (c_worker c) 4)).
        set (ct := intersect (c_src c) (c_dst c)).
        set (R := sumZ ((fun c0 => intersect (c_src c0) (c_dst c0)) <$> calls)).
        replace (sumZ counts - r + (r + ct mod 2 ^ 64) mod 2 ^ 64 + R)
          with ((sumZ counts - r + R) + (r + ct mod 2 ^ 64) mod 2 ^ 64) by lia.
        rewrite Zplus_mod_idemp_r.
        replace (sumZ counts - r + R + (r + ct mod 2 ^ 64))
          with ((sumZ counts + R) + ct mod 2 ^ 64) by lia.
        rewrite Zplus_mod_idemp_r. f_equal. lia.
      * intros i Hi0 Hm. rewrite U by assumption.
        rewrite run_call_eq. apply rd_wr_ne; [lia|exact Hi0|].
        intros E. apply Hm. rewrite <- E, Z.shiftl_mul_pow2 by lia.
        apply Z.mod_mul. lia.
Qed.

Lemma zero_counts_replicate workers c0 :
  0 <= workers -> Z.of_nat (length c0) = 16 * workers ->
  zero_counts workers c0 = replicate (Z.to_nat (16 * workers)) 0.
Proof.
  intros HW Hlen. unfold zero_counts.
  destruct (foldl_wr_seqZ (fun j => j) (fun _ => 0) c0 (Z.to_nat (16 * workers)))
    as (L & V & _).
  - intros j Hj. lia.
  - intros i j _ _ E. exact E.
  - rewrite Z2Nat.id in * by lia.
    set (c := foldl (fun h j => wr h j 0) c0 (seqZ 0 (16 * workers))) in *.
    apply list_eq. intros i.
    destruct (decide (i < Z.to_nat (16 * workers))%nat) as [Hlt|Hge].
    + rewrite lookup_replicate_2 by lia.
      destruct (lookup_lt_is_Some_2 c i) as [x Hx]; [lia|].
      rewrite Hx. f_equal. specialize (V (Z.of_nat i) ltac:(lia)).
      unfold rd in V. rewrite Nat2Z.id, Hx in V. exact V.
    + rewrite lookup_ge_None_2 by lia. symmetry.
      apply lookup_replicate_None. lia.
Qed.

Lemma sumZ_replicate_zero m : sumZ (replicate m 0) = 0.
Proof. induction m as [|m IH]; [reflexivity|]. cbn [replicate]. rewrite sumZ_cons, IH. lia. Qed.

(** X10. The count that [CountDirected] returns, the counters having
    been set to 0 as [Triangle] does: whatever worker runs each call of
    the functor and in whatever order the calls come, no count is lost
    or added twice; the result is the sum, in [size_t], of the
    intersection sizes of the edges visited. Each worker writes its own
    cell, at a multiple of 16, and the cells between stay 0. *)
Theorem CountDirected_sum intersect workers c0 calls :
  0 <= workers -> Z.of_nat (length c0) = 16 * workers ->
  (forall c, c ∈ calls -> 0 <= c_worker c < workers) ->
  fst (CountDirected intersect workers (zero_counts workers c0) calls)
  = wrap64 (sumZ ((fun c => intersect (c_src c) (c_dst c)) <$> calls))
  /\ (forall i, 0 <= i -> i mod 16 <> 0 ->
        rd (snd (CountDirected intersect workers (zero_counts workers c0) calls)) i = 0)
  /\ (forall calls',
        (forall c, c ∈ calls' -> 0 <= c_worker c < workers) ->
        (fun c => (c_src c, c_dst c)) <$> calls' ≡ₚ (fun c => (c_src c, c_dst c)) <$> calls ->
        fst (CountDirected intersect workers (zero_counts workers c0) calls')
        = fst (CountDirected intersect workers (zero_counts workers c0) calls)).
Proof.
  intros HW Hlen Hw.
  assert (Hz : zero_counts workers c0 = replicate (Z.to_nat (16 * workers)) 0)
    by (apply zero_counts_replicate; assumption).
  assert (Hcount : forall cs, (forall c, c ∈ cs -> 0 <= c_worker c < workers) ->
            fst (CountDirected intersect workers (zero_counts workers c0) cs)
            = wrap64 (sumZ ((fun c => intersect (c_src c) (c_dst c)) <$> cs))).
  { intros cs Hcs. unfold CountDirected. cbv zeta. cbn [fst].
    destruct (run_calls_sum intersect workers cs (zero_counts workers c0)) as (L & S & _).
    - rewrite Hz, length_replicate. lia.
    - exact Hcs.
    - rewrite <- L, plusReduce_all, S, Hz, sumZ_replicate_zero. reflexivity. }
  split; [apply Hcount; exact Hw|]. split.
  - intros i Hi Hm. unfold CountDirected. cbv zeta. cbn [snd].
    destruct (run_calls_sum intersect workers calls (zero_counts workers c0)) as (_ & _ & U).
    + rewrite Hz, length_replicate. lia.
    + exact Hw.
    + rewrite U by assumption. rewrite Hz. apply rd_replicate.
  - intros calls' Hw' Hp. rewrite !Hcount by assumption. f_equal.
    assert (E : forall cs : list call,
              sumZ ((fun c => intersect (c_src c) (c_dst c)) <$> cs)
              = sumZ ((fun e : Z * Z => intersect (fst e) (snd e))
                        <$> ((fun c => (c_src c, c_dst c)) <$> cs))).
    { intros cs. rewrite <- list_fmap_compose. reflexivity. }
    rewrite !E.
    assert (Hsum : forall l1 l2 : list Z, l1 ≡ₚ l2 -> sumZ l1 = sumZ l2).
    { intros l1 l2 H. induction H as [|x l1 l2 _ IH|x y l|l1 l2 l3 _ IH1 _ IH2];
        rewrite ?sumZ_cons; lia. }
    apply Hsum. apply fmap_Permutation. exact Hp.
Qed.

Lemma CountDirected_sum_witness :
  let intersect : Z -> Z -> Z := fun s d => s + d in
  let c0 := replicate 32 7 in
  let calls := [mk_call 1 true 0 1; mk_call 0 false 1 2; mk_call 1 false 0 2] in
  let calls' := [mk_call 0 true 0 2; mk_call 0 true 0 1; mk_call 0 true 1 2] in
  fst (CountDirected intersect 2 (zero_counts 2 c0) calls) = 6
  /\ fst (CountDirected intersect 2 (zero_counts 2 c0) calls') = 6
  /\ rd (snd (CountDirected intersect 2 (zero_counts 2 c0) calls)) 16 = 3.
Proof.
  cbv zeta.
  destruct (CountDirected_sum (fun s d => s + d) 2 (replicate 32 7)
              [mk_call 1 true 0 1; mk_call 0 false 1 2; mk_call 1 false 0 2])
    as (H1 & _ & H3).
  - lia.
  - reflexivity.
  - intros c Hc. repeat (apply elem_of_cons in Hc as [->|Hc]); cbn; try lia.
    apply elem_of_nil in Hc. contradiction.
  - split; [rewrite H1; reflexivity|]. split; [|reflexivity].
    rewrite (H3 [mk_call 0 true 0 2; mk_call 0 true 0 1; mk_call 0 true 1 2]).
    + rewrite H1. reflexivity.
    + intros c Hc. repeat (apply elem_of_cons in Hc as [->|Hc]); cbn; try lia.
      apply elem_of_nil in Hc. contradiction.
    + cbn. etransitivity; [apply perm_swap|]. apply perm_skip. apply perm_swap.
Defined.

(** ** Ranks *)

Lemma StronglySorted_lookup_lt {X} (R : X -> X -> Prop) (l : list X) (i j : nat) x y :
  StronglySorted R l -> (i < j)%nat -> l !! i = Some x -> l !! j = Some y -> R x y.
Proof.
  intros Hs. revert i j. induction Hs as [|a l Hs IH Ha]; intros i j Hij Hx Hy.
  - rewrite lookup_nil in Hx. discriminate.
  - destruct j as [|j]; [lia|]. cbn in Hy. destruct i as [|i].
    + cbn in Hx. injection Hx as <-. rewrite Forall_forall in Ha. apply Ha.
      eapply list_elem_of_lookup_2; eauto.
    + cbn in Hx. apply (IH i j); [lia|exact Hx|exact Hy].
Qed.

(** What [rankNodes] computes, given that the sort permutes its array:
    every vertex [u] has a place [j] in the sorted array [o], and its
    rank is [j]. *)
Lemma rankNodes_spec sample_sort getOutDegree n r0 :
  (forall less l, sample_sort less l ≡ₚ l) ->
  0 <= n <= 2 ^ 32 -> Z.of_nat (length r0) = n ->
  let o := sample_sort (fun u v => getOutDegree u <? getOutDegree v) (seqZ 0 n) in
  let r := rankNodes sample_sort getOutDegree n r0 in
  Z.of_nat (length r) = n
  /\ (forall j, 0 <= j < n -> 0 <= rd o j < n /\ rd r (rd o j) = j)
  /\ (forall u, 0 <= u < n -> exists j, 0 <= j < n /\ o !! Z.to_nat j = Some u
                                        /\ rd r u = j)
  /\ (forall i j x, o !! i = Some x -> o !! j = Some x -> i = j).
Proof.
  intros Hperm Hn Hlen. cbv zeta.
  assert (Eo : (fun i => wrap32 i) <$> seqZ 0 n = seqZ 0 n).
  { rewrite <- (list_fmap_id (seqZ 0 n)) at 2. apply fmap_seqZ_ext.
    intros j Hj. unfold Datatypes.id. apply wrap32_small. lia. }
  unfold rankNodes. cbv zeta. rewrite Eo.
  set (o := sample_sort (fun u v => getOutDegree u <? getOutDegree v) (seqZ 0 n)).
  assert (Po : o ≡ₚ seqZ 0 n) by apply Hperm.
  assert (Lo : Z.of_nat (length o) = n).
  { rewrite (Permutation_length Po), length_seqZ. lia. }
  assert (No : NoDup o) by (rewrite Po; apply NoDup_seqZ).
  assert (Ho : forall j, 0 <= j < n -> exists x, o !! Z.to_nat j = Some x
                                                 /\ rd o j = x /\ 0 <= x < n).
  { intros j Hj. destruct (lookup_lt_is_Some_2 o (Z.to_nat j)) as [x Hx]; [lia|].
    exists x. split; [exact Hx|]. split; [unfold rd; rewrite Hx; reflexivity|].
    assert (Hin : x ∈ o) by (eapply list_elem_of_lookup_2; eauto).
    rewrite Po in Hin. apply elem_of_seqZ in Hin. lia. }
  assert (Hinj : forall i j x, o !! i = Some x -> o !! j = Some x -> i = j).
  { intros i j x Hi Hj. eapply NoDup_lookup; eauto. }
  destruct (foldl_wr_seqZ (fun j => rd o j) (fun j => wrap32 j) r0 (Z.to_nat n))
    as (L & V & _).
  - intros j Hj. destruct (Ho j ltac:(lia)) as (x & _ & -> & Hx). lia.
  - intros i j Hi Hj E.
    destruct (Ho i ltac:(lia)) as (x & Hxi & Ei & _).
    destruct (Ho j ltac:(lia)) as (y & Hyj & Ej & _).
    rewrite Ei, Ej in E. subst y.
    pose proof (Hinj _ _ _ Hxi Hyj). lia.
  - rewrite Z2Nat.id in * by lia.
    set (r := foldl (fun h j => wr h (rd o j) (wrap32 j)) r0 (seqZ 0 n)) in *.
    split; [lia|]. split; [|split; [|exact Hinj]].
    + intros j Hj. destruct (Ho j Hj) as (x & _ & E & Hx).
      split; [rewrite E; exact Hx|]. rewrite V by exact Hj. apply wrap32_small. lia.
    + intros u Hu. assert (Hin : u ∈ o).
      { rewrite Po. apply elem_of_seqZ. lia. }
      apply list_elem_of_lookup in Hin as (i & Hi).
      pose proof (lookup_lt_Some _ _ _ Hi) as Hil.
      exists (Z.of_nat i). rewrite Nat2Z.id. split; [lia|]. split; [exact Hi|].
      destruct (Ho (Z.of_nat i) ltac:(lia)) as (x & Hx & E & _).
      rewrite Nat2Z.id in Hx. rewrite Hi in Hx. injection Hx as <-.
      rewrite <- E. rewrite V by lia. apply wrap32_small. lia.
Qed.

(** X11. [rankNodes], with a sort that permutes its array and leaves it
    in non-decreasing order of out-degree, returns a ranking of the
    vertices: the ranks of the vertices [0 .. n-1] are the numbers
    [0 .. n-1], each once, a vertex of lower out-degree has the lower
    rank, and the result does not depend on what the fresh array held. *)
Theorem rankNodes_ranking sample_sort getOutDegree n r0 :
  (forall less l, sample_sort less l ≡ₚ l) ->
  (forall key l, StronglySorted (fun x y => key x <= key y)
                   (sample_sort (fun u v => key u <? key v) l)) ->
  0 <= n <= 2 ^ 32 -> Z.of_nat (length r0) = n ->
  let r := rankNodes sample_sort getOutDegree n r0 in
  Z.of_nat (length r) = n
  /\ (forall u, 0 <= u < n -> 0 <= rd r u < n)
  /\ (forall u v, 0 <= u < n -> 0 <= v < n -> rd r u = rd r v -> u = v)
  /\ (forall j, 0 <= j < n -> exists u, 0 <= u < n /\ rd r u = j)
  /\ (forall u v, 0 <= u < n -> 0 <= v < n ->
        getOutDegree u < getOutDegree v -> rd r u < rd r v)
  /\ (forall r0', Z.of_nat (length r0') = n ->
        rankNodes sample_sort getOutDegree n r0' = r).
Proof.
  intros Hperm Hsort Hn Hlen. cbv zeta.
  destruct (rankNodes_spec sample_sort getOutDegree n r0 Hperm Hn Hlen) as (L & V & U & Hinj).
  set (o := sample_sort (fun u v => getOutDegree u <? getOutDegree v) (seqZ 0 n)) in *.
  set (r := rankNodes sample_sort getOutDegree n r0) in *.
  split; [exact L|]. split; [|split; [|split; [|split]]].
  - intros u Hu. destruct (U u Hu) as (j & Hj & _ & ->). exact Hj.
  - intros u v Hu Hv E.
    destruct (U u Hu) as (j & Hj & Hju & Eu). destruct (U v Hv) as (j' & Hj' & Hjv & Ev).
    rewrite Eu, Ev in E. subst j'. rewrite Hju in Hjv. injection Hjv as ->. reflexivity.
  - intros j Hj. destruct (V j Hj) as [Ho E]. exists (rd o j). split; assumption.
  - intros u v Hu Hv Hd.
    destruct (U u Hu) as (j & Hj & Hju & ->). destruct (U v Hv) as (j' & Hj' & Hjv & ->).
    destruct (Z.lt_trichotomy j j') as [Hlt|[->|Hgt]]; [exact Hlt| |].
    + rewrite Hju in Hjv. injection Hjv as ->. lia.
    + pose proof (StronglySorted_lookup_lt _ o (Z.to_nat j') (Z.to_nat j) v u
                    (Hsort getOutDegree (seqZ 0 n)) ltac:(lia) Hjv Hju) as Hle.
      cbn beta in Hle. lia.
  - intros r0' Hlen'.
    destruct (rankNodes_spec sample_sort getOutDegree n r0' Hperm Hn Hlen') as (L' & _ & U' & _).
    fold o in U'. set (r' := rankNodes sample_sort getOutDegree n r0') in *.
    apply list_eq. intros i.
    destruct (decide (i < Z.to_nat n)%nat) as [Hlt|Hge].
    + destruct (lookup_lt_is_Some_2 r i) as [x Hx]; [lia|].
      destruct (lookup_lt_is_Some_2 r' i) as [x' Hx']; [lia|].
      rewrite Hx, Hx'. f_equal.
      destruct (U (Z.of_nat i) ltac:(lia)) as (j & Hj & Hji & Ej).
      destruct (U' (Z.of_nat i) ltac:(lia)) as (j' & Hj' & Hji' & Ej').
      unfold rd in Ej, Ej'. rewrite Nat2Z.id in Ej, Ej'. rewrite Hx in Ej. rewrite Hx' in Ej'.
      cbn in Ej, Ej'. pose proof (Hinj _ _ _ Hji Hji'). lia.
    + rewrite !lookup_ge_None_2 by lia. reflexivity.
Qed.

Lemma rankNodes_ranking_witness :
  let sort : (Z -> Z -> bool) -> list Z -> list Z :=
    fun less => @merge_sort Z (fun x y => less y x = false)
                  (fun x y => bool_eq_dec (less y x) false) in
  let deg : Z -> Z := fun u => rd [3; 1; 2; 1] u in
  let r := rankNodes sort deg 4 [9; 9; 9; 9] in
  r = [3; 0; 2; 1]
  /\ (forall u v, 0 <= u < 4 -> 0 <= v < 4 -> deg u < deg v -> rd r u < rd r v)
  /\ rankNodes sort deg 4 [0; 0; 0; 0] = r.
Proof.
  cbv zeta.
  destruct (rankNodes_ranking
              (fun less => @merge_sort Z (fun x y => less y x = false)
                  (fun x y => bool_eq_dec (less y x) false))
              (fun u => rd [3; 1; 2; 1] u) 4 [9; 9; 9; 9]) as (_ & _ & _ & _ & Hd & Hr).
  - intros less l. apply merge_sort_Permutation.
  - intros key l.
    assert (Tr : Transitive (fun x y : Z => (key y <? key x) = false)).
    { intros x y z H1 H2. apply Z.ltb_ge in H1, H2. apply Z.ltb_ge. lia. }
    assert (To : Total (fun x y : Z => (key y <? key x) = false)).
    { intros x y. destruct (Z.ltb_spec (key y) (key x)); [right|left; reflexivity].
      apply Z.ltb_ge. lia. }
    eapply StronglySorted_weaken; [|apply StronglySorted_merge_sort; assumption].
    intros x y H. apply Z.ltb_ge in H. exact H.
  - lia.
  - reflexivity.
  - split; [vm_compute; reflexivity|]. split; [exact Hd|].
    apply Hr. reflexivity.
Defined.

(** X12. The orientation that [Triangle] gives the edges, [rank] being
    what [rankNodes] returns for such a sort: of two different vertices
    exactly one direction passes [pack_predicate], the one from the
    vertex of lower out-degree when the degrees differ; no vertex
    passes with itself; and along edges that pass the rank goes up, so a
    path of such edges never comes back to its first vertex. *)
Theorem pack_predicate_orients sample_sort getOutDegree n r0 :
  (forall less l, sample_sort less l ≡ₚ l) ->
  (forall key l, StronglySorted (fun x y => key x <= key y)
                   (sample_sort (fun u v => key u <? key v) l)) ->
  0 <= n <= 2 ^ 32 -> Z.of_nat (length r0) = n ->
  let rank := rankNodes sample_sort getOutDegree n r0 in
  (forall u v, 0 <= u < n -> 0 <= v < n -> u <> v ->
     pack_predicate rank u v = negb (pack_predicate rank v u))
  /\ (forall u, pack_predicate rank u u = false)
  /\ (forall u v, 0 <= u < n -> 0 <= v < n -> getOutDegree u < getOutDegree v ->
        pack_predicate rank u v = true /\ pack_predicate rank v u = false)
  /\ (forall u path w,
        (forall i x y, (u :: path ++ [w]) !! i = Some x ->
                       (u :: path ++ [w]) !! S i = Some y ->
                       pack_predicate rank x y = true) ->
        pack_predicate rank u w = true /\ u <> w).
Proof.
  intros Hperm Hsort Hn Hlen. cbv zeta.
  destruct (rankNodes_spec sample_sort getOutDegree n r0 Hperm Hn Hlen) as (L & V & U & Hinj).
  set (o := sample_sort (fun u v => getOutDegree u <? getOutDegree v) (seqZ 0 n)) in *.
  set (rank := rankNodes sample_sort getOutDegree n r0) in *.
  unfold pack_predicate.
  assert (Hdeg : forall u v, 0 <= u < n -> 0 <= v < n ->
                   getOutDegree u < getOutDegree v -> rd rank u < rd rank v).
  { intros u v Hu Hv Hd.
    destruct (U u Hu) as (j & Hj & Hju & ->). destruct (U v Hv) as (j' & Hj' & Hjv & ->).
    destruct (Z.lt_trichotomy j j') as [Hlt|[->|Hgt]]; [exact Hlt| |].
    - rewrite Hju in Hjv. injection Hjv as ->. lia.
    - pose proof (StronglySorted_lookup_lt _ o (Z.to_nat j') (Z.to_nat j) v u
                    (Hsort getOutDegree (seqZ 0 n)) ltac:(lia) Hjv Hju) as Hle.
      cbn beta in Hle. lia. }
  split; [|split; [|split]].
  - intros u v Hu Hv Hne.
    assert (Hr : rd rank u <> rd rank v).
    { intros E. apply Hne.
      destruct (U u Hu) as (j & Hj & Hju & Eu). destruct (U v Hv) as (j' & Hj' & Hjv & Ev).
      rewrite Eu, Ev in E. subst j'. rewrite Hju in Hjv. injection Hjv as ->. reflexivity. }
    destruct (Z.ltb_spec (rd rank u) (rd rank v)), (Z.ltb_spec (rd rank v) (rd rank u));
      cbn; (reflexivity || lia).
  - intros u. apply Z.ltb_irrefl.
  - intros u v Hu Hv Hd. pose proof (Hdeg u v Hu Hv Hd).
    split; [apply Z.ltb_lt; lia|apply Z.ltb_ge; lia].
  - intros u path. revert u. induction path as [|x path IH]; intros u w Hp.
    + pose proof (Hp 0%nat u w eq_refl eq_refl) as H. apply Z.ltb_lt in H.
      split; [apply Z.ltb_lt; exact H|]. intros ->. lia.
    + pose proof (Hp 0%nat u x eq_refl eq_refl) as H. apply Z.ltb_lt in H.
      destruct (IH x w) as [H' _].
      { intros i a b Ha Hb. apply (Hp (S i) a b); [exact Ha|exact Hb]. }
      apply Z.ltb_lt in H'. split; [apply Z.ltb_lt; lia|]. intros ->. lia.
Qed.

Lemma pack_predicate_orients_witness :
  let sort : (Z -> Z -> bool) -> list Z -> list Z :=
    fun less => @merge_sort Z (fun x y => less y x = false)
                  (fun x y => bool_eq_dec (less y x) false) in
  let deg : Z -> Z := fun u => rd [3; 1; 2; 1] u in
  let rank := rankNodes sort deg 4 [9; 9; 9; 9] in
  pack_predicate rank 1 0 = true /\ pack_predicate rank 0 1 = false
  /\ pack_predicate rank 1 3 = negb (pack_predicate rank 3 1).
Proof.
  cbv zeta.
  destruct (pack_predicate_orients
              (fun less => @merge_sort Z (fun x y => less y x = false)
                  (fun x y => bool_eq_dec (less y x) false))
              (fun u => rd [3; 1; 2; 1] u) 4 [9; 9; 9; 9]) as (H1 & _ & H3 & _).
  - intros less l. apply merge_sort_Permutation.
  - intros key l.
    assert (Tr : Transitive (fun x y : Z => (key y <? key x) = false)).
    { intros x y z Ha Hb. apply Z.ltb_ge in Ha, Hb. apply Z.ltb_ge. lia. }
    assert (To : Total (fun x y : Z => (key y <? key x) = false)).
    { intros x y. destruct (Z.ltb_spec (key y) (key x)); [right|left; reflexivity].
      apply Z.ltb_ge. lia. }
    eapply StronglySorted_weaken; [|apply StronglySorted_merge_sort; assumption].
    intros x y H. apply Z.ltb_ge in H. exact H.
  - lia.
  - reflexivity.
  - destruct (H3 1 0) as [Ha Hb]; [lia|lia|vm_compute; reflexivity|].
    split; [exact Ha|]. split; [exact Hb|]. apply H1; lia.
Defined.
